(** * ByteHop: the file-transfer protocol and the relay's code registry

    A shallow embedding of
    - [useFileTransfer] (the composable with [registerProtocol],
      [handleIncomingTransfer] and [sendFile]), and
    - the relay's share-code registry ([generateCode], the sweep interval and
      the [/code] endpoints of [startHttpServer]),
    together with the properties the design document states about them.

    Conventions.
    - JavaScript numbers are modelled by integers ([Z]) where the code
      computes with lengths, offsets, byte counts and epoch milliseconds:
      integers far below 2^53, on which double arithmetic is exact. The one
      expression that computes with a fraction, in [generateCode], is
      evaluated in double precision: a value of [Math.random()] is a
      rational that is a double, and each operation rounds to the nearest
      double, ties to even.
    - A JavaScript string is modelled by the bytes of its UTF-8 encoding
      (a [string]); bytes on the wire are [list byte].
    - One run of [handleIncomingTransfer] or [sendFile] is modelled on its
      own, its [await] points being sequential composition. The calls of
      [registerProtocol] are modelled with their [await] points, so that
      calls can overlap. *)

From Stdlib Require Import ZArith NArith QArith Qround Qpower Qabs Lia Lqa List String Ascii.
From Stdlib.Strings Require Import Byte.
From stdpp Require Import base gmap strings list.

Local Open Scope string_scope.
Local Open Scope Z_scope.

(** ** Decimal rendering of integers: [Number.prototype.toString] *)

Definition digit_char (d : N) : ascii := ascii_of_N (48 + d).

(** Most significant digit first; [acc] is the text already produced for the
    lower digits. Each step divides by ten, so a fuel of the binary size of
    [n] is never exhausted. *)
Fixpoint to_digits (fuel : nat) (n : N) (acc : string) : string :=
  let acc' := String (digit_char (n mod 10)) acc in
  match fuel with
  | O => acc'
  | S f => if (n <? 10)%N then acc' else to_digits f (n / 10) acc'
  end.

Definition N_toString (n : N) : string := to_digits (N.size_nat n) n "".

Definition Number_toString (z : Z) : string :=
  if z <? 0 then String "-" (N_toString (Z.to_N (- z))) else N_toString (Z.to_N z).

Definition is_digit (c : ascii) : bool :=
  ((48 <=? N_of_ascii c) && (N_of_ascii c <=? 57))%N.

Definition digit_value (c : ascii) : N := (N_of_ascii c - 48)%N.

(** Reads the longest prefix of decimal digits, most significant first. *)
Fixpoint read_digits (s : string) (acc : N) : N * string :=
  match s with
  | String c r => if is_digit c then read_digits r (acc * 10 + digit_value c)%N else (acc, s)
  | EmptyString => (acc, s)
  end.

Fixpoint all_digits (s : string) : bool :=
  match s with
  | String c r => is_digit c && all_digits r
  | EmptyString => true
  end.

(** ** Double-precision arithmetic *)

(** The nearest integer, the even one of two that are equally near. *)
Definition round_half_even (q : Q) : Z :=
  let f := Qfloor q in
  match Qcompare (q - inject_Z f) (1 # 2) with
  | Lt => f
  | Gt => f + 1
  | Eq => if Z.even f then f else f + 1
  end.

(** The exponent [e] of the doubles next to [q]: 2^e <= |q| < 2^(e+1), and
    -1022, the exponent of the subnormal numbers, below 2^-1022. *)
Definition exponent (q : Q) : Z :=
  Z.max (Z.log2 (Qfloor (Qabs q * 2 ^ 1074)%Q) - 1074) (-1022).

(** The double a real number rounds to: the nearest multiple of
    2^(e - 52), ties to the even multiple. (Stated for results of a
    magnitude below 2^1024; beyond, the double is an infinity.) *)
Definition binary64 (q : Q) : Q :=
  let ulp := (2 ^ (exponent q - 52))%Q in
  (inject_Z (round_half_even (q / ulp)) * ulp)%Q.

(** ** JavaScript values *)

#[warnings="-register-all"]
Inductive jsvalue :=
| VUndefined
| VNull
| VBool (b : bool)
| VNumber (z : Z)
| VString (s : string)
| VArray (items : list jsvalue)
| VObject (fields : list (string * jsvalue)).

(** A string where a value is expected is the string value. *)
Coercion VString : string >-> jsvalue.

(** [ToBoolean], as [!address] applies it. *)
Definition ToBoolean (v : jsvalue) : bool :=
  match v with
  | VUndefined | VNull => false
  | VBool b => b
  | VNumber z => negb (z =? 0)
  | VString s => negb (String.eqb s "")
  | VArray _ | VObject _ => true
  end.

(** ** The relay's share-code registry (relay/index.ts) *)

Module Relay.

Definition CODE_EXPIRY_MS : Z := 5 * 60 * 1000.

(** An entry holds what the body of the request gave as [address], which
    the listener stores without looking at its type. *)
Record CodeEntry := { address : jsvalue; createdAt : Z }.

(** [Math.floor(100000 + Math.random() * 900000).toString()], for the value
    [r] returned by [Math.random()]: the product and the sum are each
    rounded to a double. *)
Definition draw_code (r : Q) : string :=
  Number_toString (Qfloor (binary64 (100000 + binary64 (r * 900000)))).

(** [generateCode]: draw until the code is not a key of the registry.
    [draws] are the successive values of [Math.random()]; [None] means the
    loop has used them all and is still running. *)
Fixpoint generateCode (draws : list Q) (codeRegistry : gmap string CodeEntry)
  : option (string * list Q) :=
  match draws with
  | [] => None
  | r :: rest =>
      let code := draw_code r in
      match codeRegistry !! code with
      | Some _ => generateCode rest codeRegistry
      | None => Some (code, rest)
      end
  end.

Definition expired (now : Z) (entry : CodeEntry) : bool :=
  CODE_EXPIRY_MS <? now - createdAt entry.

(** The [setInterval] callback: delete every entry older than the expiry. *)
Definition sweep (now : Z) (codeRegistry : gmap string CodeEntry)
  : gmap string CodeEntry :=
  filter (fun kv => expired now (snd kv) = false) codeRegistry.

Inductive response :=
| R200_code (code : string)
| R200_address (addr : jsvalue)
| R400 (err : string)
| R404 (err : string).

(** [POST /code] with a body that gives [address] the value [addr], at time
    [now]: the statements of the [try] block after [JSON.parse]. An
    [address] that is truthy is stored under a new code; when it is not a
    string, [address.substring] then throws a [TypeError], and the [catch]
    answers 400 with the entry already in the registry. *)
Definition post_code (now : Z) (draws : list Q) (addr : jsvalue)
    (codeRegistry : gmap string CodeEntry)
  : option (response * gmap string CodeEntry * list Q) :=
  if negb (ToBoolean addr) then Some (R400 "Address required", codeRegistry, draws)
  else
    match generateCode draws codeRegistry with
    | None => None
    | Some (code, rest) =>
        let codeRegistry' :=
          <[code := {| address := addr; createdAt := now |}]> codeRegistry in
        match addr with
        | VString _ => Some (R200_code code, codeRegistry', rest)
        | _ => Some (R400 "Invalid JSON", codeRegistry', rest)
        end
    end.

(** [GET /code?code=...] at time [now]; [None] is a request without the
    [code] parameter. *)
Definition get_code (now : Z) (code : option string)
    (codeRegistry : gmap string CodeEntry)
  : response * gmap string CodeEntry :=
  match code with
  | None => (R400 "Code required", codeRegistry)
  | Some code =>
      if String.eqb code "" then (R400 "Code required", codeRegistry)
      else
        match codeRegistry !! code with
        | None => (R404 "Code not found or expired", codeRegistry)
        | Some entry =>
            if expired now entry
            then (R404 "Code expired", delete code codeRegistry)
            else (R200_address (address entry), codeRegistry)
        end
  end.

(** The requests that touch the registry, each with the clock reading
    [Date.now()] gives while it is served; a POST also carries the values
    [Math.random()] returns during it. *)
Inductive request :=
| POST (now : Z) (draws : list Q) (addr : jsvalue)
| GET (now : Z) (code : option string)
| SWEEP (now : Z).

Definition request_time (rq : request) : Z :=
  match rq with
  | POST now _ _ | GET now _ | SWEEP now => now
  end.

(** The registry after a request; [None] while [generateCode] is still
    drawing. *)
Definition serve (rq : request) (codeRegistry : gmap string CodeEntry)
  : option (gmap string CodeEntry) :=
  match rq with
  | POST now draws addr =>
      match post_code now draws addr codeRegistry with
      | Some (_, codeRegistry', _) => Some codeRegistry'
      | None => None
      end
  | GET now code => Some (snd (get_code now code codeRegistry))
  | SWEEP now => Some (sweep now codeRegistry)
  end.

Fixpoint serve_all (rqs : list request) (codeRegistry : gmap string CodeEntry)
  : option (gmap string CodeEntry) :=
  match rqs with
  | [] => Some codeRegistry
  | rq :: rest =>
      match serve rq codeRegistry with
      | Some codeRegistry' => serve_all rest codeRegistry'
      | None => None
      end
  end.

(** The contract of [Math.random()]: a double that is at least 0 and less
    than 1. *)
Definition unit_interval (r : Q) : Prop :=
  (0 <= r)%Q /\ (r < 1)%Q /\ (binary64 r == r)%Q.

(** A decimal integer between 100000 and 999999, written with six digits. *)
Definition six_digit_code (code : string) : Prop :=
  String.length code = 6%nat /\ all_digits code = true /\
  exists n : Z, 100000 <= n <= 999999 /\ code = Number_toString n.

End Relay.

(** ** The platform functions the composable calls *)

(** The result of a numeric conversion. *)
Inductive number := NaN | Num (z : Z).

(** [ToNumber], where the model has an answer: strings, arrays and objects
    convert through [ToPrimitive] and the numeric-string grammar, which the
    model leaves out ([None]). *)
Definition ToNumber (v : jsvalue) : option number :=
  match v with
  | VUndefined => Some NaN
  | VNull => Some (Num 0)
  | VBool b => Some (Num (if b then 1 else 0))
  | VNumber z => Some (Num z)
  | VString _ | VArray _ | VObject _ => None
  end.

(** The result of a parser: a value and the unread text, a syntax error, or
    a text on which the model takes no position (number literals with a
    fraction or exponent or beyond 2^53, escapes above U+007F, malformed
    UTF-8). *)
Inductive parsed (A : Type) :=
| Parsed (a : A) (rest : string)
| SyntaxError
| Unmodelled.
Arguments Parsed {A} a rest.
Arguments SyntaxError {A}.
Arguments Unmodelled {A}.

Definition dquote : ascii := ascii_of_N 34.
Definition backslash : ascii := ascii_of_N 92.

Definition hex_char (d : N) : ascii :=
  if (d <? 10)%N then ascii_of_N (48 + d) else ascii_of_N (87 + d).

Definition hex_value (c : ascii) : option N :=
  let n := N_of_ascii c in
  if ((48 <=? n) && (n <=? 57))%N then Some (n - 48)%N
  else if ((97 <=? n) && (n <=? 102))%N then Some (n - 87)%N
  else if ((65 <=? n) && (n <=? 70))%N then Some (n - 55)%N
  else None.

(** [QuoteJSONString] on one character: the two-character escapes, [\u00xx]
    for the other control characters, the character itself otherwise. *)
Definition escape_char (c : ascii) : string :=
  let n := N_of_ascii c in
  if (n =? 8)%N then "\b"
  else if (n =? 9)%N then "\t"
  else if (n =? 10)%N then "\n"
  else if (n =? 12)%N then "\f"
  else if (n =? 13)%N then "\r"
  else if (n =? 34)%N then String backslash (String dquote "")
  else if (n =? 92)%N then String backslash (String backslash "")
  else if (n <? 32)%N then
    "\u00" ++ String (hex_char (n / 16)) (String (hex_char (n mod 16)) "")
  else String c "".

Fixpoint escape_string (s : string) : string :=
  match s with
  | EmptyString => ""
  | String c r => escape_char c ++ escape_string r
  end.

Definition QuoteJSONString (s : string) : string :=
  String dquote (escape_string s ++ String dquote "").

(** [JSON.stringify({ filename: name, size: size })] for a string and a
    non-negative integer. *)
Definition JSON_stringify_metadata (name : string) (size : Z) : string :=
  "{" ++ QuoteJSONString "filename" ++ ":" ++ QuoteJSONString name ++ ","
      ++ QuoteJSONString "size" ++ ":" ++ Number_toString size ++ "}".

Fixpoint skip_ws (s : string) : string :=
  match s with
  | String c r =>
      let n := N_of_ascii c in
      if ((n =? 32) || (n =? 9) || (n =? 10) || (n =? 13))%N then skip_ws r else s
  | EmptyString => s
  end.

Definition map_parsed {A B} (f : A -> B) (p : parsed A) : parsed B :=
  match p with
  | Parsed a rest => Parsed (f a) rest
  | SyntaxError => SyntaxError
  | Unmodelled => Unmodelled
  end.

Definition unescape (e : ascii) : option ascii :=
  let n := N_of_ascii e in
  if (n =? 34)%N then Some dquote
  else if (n =? 92)%N then Some backslash
  else if (n =? 47)%N then Some "/"%char
  else if (n =? 98)%N then Some (ascii_of_N 8)
  else if (n =? 102)%N then Some (ascii_of_N 12)
  else if (n =? 110)%N then Some (ascii_of_N 10)
  else if (n =? 114)%N then Some (ascii_of_N 13)
  else if (n =? 116)%N then Some (ascii_of_N 9)
  else None.

(** The characters of a JSON string literal after its opening quote, up to
    and including the closing quote. *)
Fixpoint parse_string_body (s : string) : parsed string :=
  match s with
  | EmptyString => SyntaxError
  | String c r =>
      if (N_of_ascii c =? 34)%N then Parsed "" r
      else if (N_of_ascii c =? 92)%N then
        match r with
        | String "u" (String h3 (String h2 (String h1 (String h0 r')))) =>
            match hex_value h3, hex_value h2, hex_value h1, hex_value h0 with
            | Some a, Some b, Some c', Some d =>
                let cp := (((a * 16 + b) * 16 + c') * 16 + d)%N in
                if (cp <? 128)%N
                then map_parsed (String (ascii_of_N cp)) (parse_string_body r')
                else Unmodelled
            | _, _, _, _ => SyntaxError
            end
        | String e r' =>
            match unescape e with
            | Some c' => map_parsed (String c') (parse_string_body r')
            | None => SyntaxError
            end
        | EmptyString => SyntaxError
        end
      else if (N_of_ascii c <? 32)%N then SyntaxError
      else map_parsed (String c) (parse_string_body r)
  end.

(** A JSON number literal, of which the model covers the integers of
    magnitude at most 2^53. *)
Definition parse_number (s : string) : parsed jsvalue :=
  let '(neg, s1) :=
    match s with
    | String "-" r => (true, r)
    | _ => (false, s)
    end in
  match s1 with
  | String c r =>
      if is_digit c then
        let '(n, rest) :=
          if (N_of_ascii c =? 48)%N then (0%N, r) else read_digits s1 0 in
        match rest with
        | String d _ =>
            if is_digit d then SyntaxError
            else if ((N_of_ascii d =? 46) || (N_of_ascii d =? 101)
                     || (N_of_ascii d =? 69))%N then Unmodelled
            else if (2 ^ 53 <? n)%N then Unmodelled
            else Parsed (VNumber (if neg then - Z.of_N n else Z.of_N n)) rest
        | EmptyString =>
            if (2 ^ 53 <? n)%N then Unmodelled
            else Parsed (VNumber (if neg then - Z.of_N n else Z.of_N n)) rest
        end
      else SyntaxError
  | EmptyString => SyntaxError
  end.

(** Recursive descent over the JSON grammar. Every call consumes fuel; a
    text of [n] characters needs less than [n + 1], and running out is
    reported as [Unmodelled]. *)
Fixpoint parse_value (fuel : nat) (s : string) : parsed jsvalue :=
  match fuel with
  | O => Unmodelled
  | S f =>
      match skip_ws s with
      | String "{" r =>
          match skip_ws r with
          | String "}" r' => Parsed (VObject []) r'
          | _ => parse_members f r []
          end
      | String "[" r =>
          match skip_ws r with
          | String "]" r' => Parsed (VArray []) r'
          | _ => parse_elements f r []
          end
      | String "t" (String "r" (String "u" (String "e" r))) => Parsed (VBool true) r
      | String "f" (String "a" (String "l" (String "s" (String "e" r)))) =>
          Parsed (VBool false) r
      | String "n" (String "u" (String "l" (String "l" r))) => Parsed VNull r
      | String c r =>
          if (N_of_ascii c =? 34)%N then map_parsed VString (parse_string_body r)
          else parse_number (String c r)
      | EmptyString => SyntaxError
      end
  end
with parse_members (fuel : nat) (s : string) (acc : list (string * jsvalue))
  : parsed jsvalue :=
  match fuel with
  | O => Unmodelled
  | S f =>
      match skip_ws s with
      | String c r =>
          if (N_of_ascii c =? 34)%N then
            match parse_string_body r with
            | Parsed key r1 =>
                match skip_ws r1 with
                | String ":" r2 =>
                    match parse_value f r2 with
                    | Parsed v r3 =>
                        match skip_ws r3 with
                        | String "," r4 => parse_members f r4 (acc ++ [(key, v)])
                        | String "}" r4 => Parsed (VObject (acc ++ [(key, v)])) r4
                        | _ => SyntaxError
                        end
                    | SyntaxError => SyntaxError
                    | Unmodelled => Unmodelled
                    end
                | _ => SyntaxError
                end
            | SyntaxError => SyntaxError
            | Unmodelled => Unmodelled
            end
          else SyntaxError
      | EmptyString => SyntaxError
      end
  end
with parse_elements (fuel : nat) (s : string) (acc : list jsvalue)
  : parsed jsvalue :=
  match fuel with
  | O => Unmodelled
  | S f =>
      match parse_value f s with
      | Parsed v r1 =>
          match skip_ws r1 with
          | String "," r2 => parse_elements f r2 (acc ++ [v])
          | String "]" r2 => Parsed (VArray (acc ++ [v])) r2
          | _ => SyntaxError
          end
      | SyntaxError => SyntaxError
      | Unmodelled => Unmodelled
      end
  end.

(** [JSON.parse]: one value, surrounded by optional white space. *)
Definition JSON_parse (text : string) : parsed jsvalue :=
  match parse_value (S (String.length text)) text with
  | Parsed v rest =>
      match skip_ws rest with
      | EmptyString => Parsed v ""
      | _ => SyntaxError
      end
  | SyntaxError => SyntaxError
  | Unmodelled => Unmodelled
  end.

(** Well-formed UTF-8 (the decoder's state: continuation bytes still due and
    the range allowed for the next one). *)
Fixpoint utf8_wf (needed : nat) (lo hi : N) (s : string) : bool :=
  match s with
  | EmptyString => Nat.eqb needed 0
  | String c r =>
      let b := N_of_ascii c in
      match needed with
      | O =>
          if (b <=? 0x7F)%N then utf8_wf 0 0x80 0xBF r
          else if ((0xC2 <=? b) && (b <=? 0xDF))%N then utf8_wf 1 0x80 0xBF r
          else if (b =? 0xE0)%N then utf8_wf 2 0xA0 0xBF r
          else if (b =? 0xED)%N then utf8_wf 2 0x80 0x9F r
          else if ((0xE1 <=? b) && (b <=? 0xEF))%N then utf8_wf 2 0x80 0xBF r
          else if (b =? 0xF0)%N then utf8_wf 3 0x90 0xBF r
          else if (b =? 0xF4)%N then utf8_wf 3 0x80 0x8F r
          else if ((0xF1 <=? b) && (b <=? 0xF3))%N then utf8_wf 3 0x80 0xBF r
          else false
      | S k =>
          if ((lo <=? b) && (b <=? hi))%N then utf8_wf k 0x80 0xBF r else false
      end
  end.

Definition well_formed (s : string) : bool := utf8_wf 0 0x80 0xBF s.

(** [new TextDecoder().decode(bytes)]: drops a leading byte-order mark;
    malformed input (which the browser patches with U+FFFD) is [None]. *)
Definition TextDecoder_decode (bytes : list byte) : option string :=
  let s := string_of_list_byte bytes in
  let s' :=
    match s with
    | String b0 (String b1 (String b2 r)) =>
        if ((N_of_ascii b0 =? 0xEF) && (N_of_ascii b1 =? 0xBB)
            && (N_of_ascii b2 =? 0xBF))%N then r else s
    | _ => s
    end in
  if well_formed s' then Some s' else None.

(** [fromString(text)] of uint8arrays: the UTF-8 bytes of the text. *)
Definition fromString (text : string) : list byte := list_byte_of_string text.

Definition byte_of_Z (z : Z) : byte :=
  match Byte.of_N (Z.to_N (z mod 256)) with
  | Some b => b
  | None => x00
  end.

Definition Z_of_byte (b : byte) : Z := Z.of_N (Byte.to_N b).

(** [new DataView(buf).setUint32(0, n)]: big-endian, modulo 2^32. *)
Definition setUint32 (n : Z) : list byte :=
  [byte_of_Z (Z.shiftr n 24); byte_of_Z (Z.shiftr n 16);
   byte_of_Z (Z.shiftr n 8); byte_of_Z n].

(** [new DataView(buf).getUint32(0)] on a four-byte buffer. *)
Definition getUint32 (buf : list byte) : Z :=
  match buf with
  | [b0; b1; b2; b3] =>
      Z.lor (Z.shiftl (Z_of_byte b0) 24)
        (Z.lor (Z.shiftl (Z_of_byte b1) 16)
           (Z.lor (Z.shiftl (Z_of_byte b2) 8) (Z_of_byte b3)))
  | _ => 0
  end.

(** ** The composable's data (useFileTransfer) *)

Definition FILE_TRANSFER_PROTOCOL : string := "/bytehop/file/1.0.0".
Definition CHUNK_SIZE : Z := 1024 * 64.

Inductive Status := pending | transferring | completed | error.
Inductive Direction := send | receive.

(** What a [catch] clause can receive. *)
Inductive exn :=
| JsError (message : string)   (* [throw new Error(message)] in the composable *)
| UnexpectedEOFError           (* [bytes.read]: the stream ended first *)
| JsSyntaxError                (* [JSON.parse] *)
| JsTypeError                  (* property access on [null] or [undefined] *)
| StorageError                 (* a rejected write or close of the OPFS file *)
| StreamError.                 (* a rejected dial, write or close of the stream *)

Module FileTransferProgress.

(** [error] holds the message of the caught exception; the model keeps the
    exception, whose message it is. *)
Record t := {
  id : nat;
  filename : jsvalue;
  size : jsvalue;
  transferred : Z;
  status : Status;
  direction : Direction;
  error : option exn
}.

Definition with_transferred (n : Z) (p : t) : t :=
  {| id := id p; filename := filename p; size := size p; transferred := n;
     status := status p; direction := direction p; error := error p |}.

Definition with_status (st : Status) (p : t) : t :=
  {| id := id p; filename := filename p; size := size p;
     transferred := transferred p; status := st; direction := direction p;
     error := error p |}.

Definition with_error (e : exn) (p : t) : t :=
  {| id := id p; filename := filename p; size := size p;
     transferred := transferred p; status := status p;
     direction := direction p; error := Some e |}.

End FileTransferProgress.

Module FTP := FileTransferProgress.

Module ReceivedFile.

Record t := { filename : jsvalue; blob : list byte }.

End ReceivedFile.

Module File.

Record t := { name : string; content : list byte }.

Definition size (f : t) : Z := Z.of_nat (length (content f)).

(** [file.slice(from, to)] *)
Definition slice (f : t) (from to : Z) : list byte :=
  take (Z.to_nat (to - from)) (drop (Z.to_nat from) (content f)).

End File.

Record Connection := { remotePeer : string; remoteAddr : string; is_webrtc : bool }.

(** What the run of a pipeline does to its surroundings, in order. *)
Inductive event :=
| EvRead (n : Z)                                  (* [bytes.read({ bytes: n })] *)
| EvRegistry (id : nat) (entry : FileTransferProgress.t)  (* an entry as written *)
| EvAcquire (ok : bool)                           (* the attempt to open the OPFS file *)
| EvSpool (persistent : bool) (chunk : list byte) (* [writable.write] or [chunks.push] *)
| EvDial (addr : string)
| EvClose.                                        (* [stream.close()] *)

(** The reactive state of one composable, the stream at hand and the log of
    events. [uuids] counts the identifiers [crypto.randomUUID()] has handed
    out, which are never repeated. *)
Record state := {
  transfers : gmap nat FileTransferProgress.t;
  receivedFiles : list ReceivedFile.t;
  uuids : nat;
  inbound : list byte;
  outbound : list (list byte);
  trace : list event
}.

(** How the collaborators behave during one run. *)
Record environment := {
  opfs_available : bool;         (* the OPFS directory, handle and writable open *)
  opfs_write_ok : nat -> bool;   (* the k-th [writable.write] resolves *)
  opfs_close_ok : bool;          (* [writable.close()] and [getFile()] resolve *)
  stream_close_ok : bool;        (* [stream.close()] resolves *)
  node_ready : bool;             (* [node.value] is not null *)
  connections : list Connection; (* [node.value.getConnections()] *)
  dial_ok : bool;                (* [dialProtocol] resolves within its 30 s *)
  stream_write_ok : nat -> bool  (* the k-th [bytes.write] resolves *)
}.

Definition set_transfers (m : gmap nat FileTransferProgress.t) (s : state) : state :=
  {| transfers := m; receivedFiles := receivedFiles s; uuids := uuids s;
     inbound := inbound s; outbound := outbound s; trace := trace s |}.
Definition set_receivedFiles (l : list ReceivedFile.t) (s : state) : state :=
  {| transfers := transfers s; receivedFiles := l; uuids := uuids s;
     inbound := inbound s; outbound := outbound s; trace := trace s |}.
Definition set_uuids (n : nat) (s : state) : state :=
  {| transfers := transfers s; receivedFiles := receivedFiles s; uuids := n;
     inbound := inbound s; outbound := outbound s; trace := trace s |}.
Definition set_inbound (l : list byte) (s : state) : state :=
  {| transfers := transfers s; receivedFiles := receivedFiles s; uuids := uuids s;
     inbound := l; outbound := outbound s; trace := trace s |}.
Definition set_outbound (l : list (list byte)) (s : state) : state :=
  {| transfers := transfers s; receivedFiles := receivedFiles s; uuids := uuids s;
     inbound := inbound s; outbound := l; trace := trace s |}.
Definition log (ev : event) (s : state) : state :=
  {| transfers := transfers s; receivedFiles := receivedFiles s; uuids := uuids s;
     inbound := inbound s; outbound := outbound s; trace := trace s ++ [ev] |}.

(** ** A state and exception monad for the async functions *)

Inductive outcome (A : Type) :=
| Return (a : A)
| Throw (e : exn)
| OutsideModel.
Arguments Return {A} a.
Arguments Throw {A} e.
Arguments OutsideModel {A}.

Definition M (A : Type) : Type := state -> outcome A * state.

Definition ret {A} (a : A) : M A := fun s => (Return a, s).
Definition throw {A} (e : exn) : M A := fun s => (Throw e, s).
Definition outside_model {A} : M A := fun s => (OutsideModel, s).
Definition bind {A B} (m : M A) (k : A -> M B) : M B :=
  fun s =>
    match m s with
    | (Return a, s') => k a s'
    | (Throw e, s') => (Throw e, s')
    | (OutsideModel, s') => (OutsideModel, s')
    end.
(** [try { m } catch (err) { h err }] *)
Definition try_catch {A} (m : M A) (h : exn -> M A) : M A :=
  fun s =>
    match m s with
    | (Throw e, s') => h e s'
    | r => r
    end.
Definition modify (f : state -> state) : M unit := fun s => (Return tt, f s).

Notation "x <- m ;; k" := (bind m (fun x => k))
  (at level 100, m at next level, right associativity).
Notation "m ;; k" := (bind m (fun _ => k))
  (at level 100, right associativity).

(** ** Operations of the collaborators *)

Definition randomUUID : M nat :=
  fun s => (Return (uuids s), set_uuids (S (uuids s)) s).

(** byteStream keeps the bytes that have arrived and are not yet read in a
    buffer, and rejects a read once the buffer holds more than this many
    bytes (its default). *)
Definition MAX_BUFFER_SIZE : Z := 4 * 1024 * 1024.

(** [bytes.read({ bytes: n })] of byteStream: exactly [n] bytes, or an
    exception when the stream ends before that. How fast the bytes arrive
    is not modelled, so the overflow of the buffer is not either: a stream
    of no more than [MAX_BUFFER_SIZE] bytes cannot overflow it, and what is
    stated about a stream that is received in full is stated for such a
    stream. *)
Definition read (n : Z) : M (list byte) :=
  fun s =>
    let s1 := log (EvRead n) s in
    if Z.of_nat (length (inbound s)) <? n then (Throw UnexpectedEOFError, s1)
    else (Return (take (Z.to_nat n) (inbound s)),
          set_inbound (drop (Z.to_nat n) (inbound s)) s1).

(** [bytes.write(buf)] *)
Definition write (env : environment) (buf : list byte) : M unit :=
  fun s =>
    if stream_write_ok env (length (outbound s))
    then (Return tt, set_outbound (outbound s ++ [buf]) s)
    else (Throw StreamError, s).

(** [stream.close()] *)
Definition stream_close (env : environment) : M unit :=
  fun s =>
    if stream_close_ok env then (Return tt, log EvClose s)
    else (Throw StreamError, log EvClose s).

(** [transfers.value.set(id, entry)] *)
Definition transfers_set (id : nat) (entry : FileTransferProgress.t) : M unit :=
  modify (fun s => log (EvRegistry id entry) (set_transfers (<[id := entry]> (transfers s)) s)).

(** [const t = transfers.value.get(id); if (t) { ...assign to t... }]:
    answers whether the entry was there. *)
Definition transfers_update (id : nat)
    (f : FileTransferProgress.t -> FileTransferProgress.t) : M bool :=
  fun s =>
    match transfers s !! id with
    | Some entry =>
        (Return true,
         log (EvRegistry id (f entry)) (set_transfers (<[id := f entry]> (transfers s)) s))
    | None => (Return false, s)
    end.

(** [transfers.value.get(id)!.field = ...]: a [TypeError] without the entry. *)
Definition transfers_update_required (id : nat)
    (f : FileTransferProgress.t -> FileTransferProgress.t) : M unit :=
  found <- transfers_update id f ;;
  if found : bool then ret tt else throw JsTypeError.

(** [JSON.parse(new TextDecoder().decode(bytes))] *)
Definition parse_metadata (bytes : list byte) : M jsvalue :=
  match TextDecoder_decode bytes with
  | None => outside_model
  | Some text =>
      match JSON_parse text with
      | Parsed v _ => ret v
      | SyntaxError => throw JsSyntaxError
      | Unmodelled => outside_model
      end
  end.

Fixpoint last_field (key : string) (fields : list (string * jsvalue)) : jsvalue :=
  match fields with
  | [] => VUndefined
  | (k, v) :: rest =>
      match last_field key rest with
      | VUndefined => if String.eqb k key then v else VUndefined
      | later => later
      end
  end.

(** [v.key] for the keys [filename] and [size], which no prototype defines. *)
Definition get_property (v : jsvalue) (key : string) : M jsvalue :=
  match v with
  | VUndefined | VNull => throw JsTypeError
  | VObject fields => ret (last_field key fields)
  | VBool _ | VNumber _ | VString _ | VArray _ => ret VUndefined
  end.

(** The inner [try] of the receiver: open the OPFS file, or fall back. *)
Definition acquire_writable (env : environment) : M bool :=
  modify (log (EvAcquire (opfs_available env))) ;;
  ret (opfs_available env).

(** [writable.write(chunk)], the [k]-th of the session. *)
Definition writable_write (env : environment) (k : nat) (chunk : list byte) : M unit :=
  if opfs_write_ok env k then modify (log (EvSpool true chunk))
  else throw StorageError.

(** [chunks.push(chunk)] *)
Definition chunks_push (chunk : list byte) : M unit :=
  modify (log (EvSpool false chunk)).

(** [await writable.close(); await fileHandle.getFile()] *)
Definition writable_close (env : environment) : M unit :=
  if opfs_close_ok env then ret tt else throw StorageError.

(** [dialProtocol(addr, FILE_TRANSFER_PROTOCOL, { signal })] *)
Definition dialProtocol (env : environment) (addr : string) : M unit :=
  modify (log (EvDial addr)) ;;
  if dial_ok env then ret tt else throw StreamError.

(** ** [handleIncomingTransfer] *)

(** The [while (remaining > 0)] loop. [total] is the number [metadata.size]
    converts to; [chunks] is the memory buffer and [file] what the writable
    holds; [k] counts the chunks stored. Every turn reads at least one byte
    or throws, so a fuel above the number of bytes left on the stream is
    never used up. *)
Fixpoint receive_loop (fuel : nat) (env : environment) (transferId : nat)
    (total : Z) (writable : bool) (remaining : Z)
    (chunks : list (list byte)) (file : list byte) (k : nat)
  : M (list (list byte) * list byte) :=
  if 0 <? remaining then
    match fuel with
    | O => outside_model
    | S fuel' =>
        let readSize := Z.min remaining CHUNK_SIZE in
        chunk <- read readSize ;;
        stored <- (if writable
                   then writable_write env k chunk ;; ret (chunks, (file ++ chunk)%list)
                   else chunks_push chunk ;; ret ((chunks ++ [chunk])%list, file)) ;;
        let remaining' := remaining - Z.of_nat (length chunk) in
        transfers_update transferId
          (FileTransferProgress.with_transferred (total - remaining')) ;;
        receive_loop fuel' env transferId total writable remaining'
          (fst stored) (snd stored) (S k)
    end
  else ret (chunks, file).

Definition receive_body (env : environment) (transferId : nat) : M unit :=
  lenBytes <- read 4 ;;
  let metadataLength := getUint32 lenBytes in
  if 10000 <? metadataLength then
    throw (JsError ("Invalid metadata length: " ++ Number_toString metadataLength))
  else
    metaBytes <- read metadataLength ;;
    metadata <- parse_metadata metaBytes ;;
    metadata_filename <- get_property metadata "filename" ;;
    metadata_size <- get_property metadata "size" ;;
    transfers_set transferId
      {| FileTransferProgress.id := transferId;
         FileTransferProgress.filename := metadata_filename;
         FileTransferProgress.size := metadata_size;
         FileTransferProgress.transferred := 0;
         FileTransferProgress.status := transferring;
         FileTransferProgress.direction := receive;
         FileTransferProgress.error := None |} ;;
    writable <- acquire_writable env ;;
    (* [remaining] starts as [metadata.size]; each use converts it *)
    spooled <- (fun s =>
                  match ToNumber metadata_size with
                  | None => outside_model s
                  | Some NaN => ret ([], []) s
                  | Some (Num total) =>
                      receive_loop (S (length (inbound s))) env transferId total
                        writable total [] [] 0 s
                  end) ;;
    finalBlob <- (if writable : bool
                  then writable_close env ;; ret (snd spooled)
                  else ret (concat (fst spooled))) ;;
    transfers_update_required transferId (FileTransferProgress.with_status completed) ;;
    modify (fun s => set_receivedFiles
                       (receivedFiles s ++
                          [{| ReceivedFile.filename := metadata_filename;
                              ReceivedFile.blob := finalBlob |}])%list s) ;;
    stream_close env.

Definition handleIncomingTransfer (env : environment) (stream : list byte) : M unit :=
  modify (set_inbound stream) ;;
  transferId <- randomUUID ;;
  try_catch (receive_body env transferId)
    (fun err =>
       transfers_set transferId
         {| FileTransferProgress.id := transferId;
            FileTransferProgress.filename := VString "Unknown";
            FileTransferProgress.size := VNumber 0;
            FileTransferProgress.transferred := 0;
            FileTransferProgress.status := error;
            FileTransferProgress.direction := receive;
            FileTransferProgress.error := Some err |}).

(** ** [sendFile] *)

(** The [while (offset < file.size)] loop; every turn sends at least one
    byte, so the bytes still to send bound the number of turns. *)
Fixpoint send_loop (fuel : nat) (env : environment) (transferId : nat)
    (file : File.t) (offset : Z) : M unit :=
  if offset <? File.size file then
    match fuel with
    | O => outside_model
    | S fuel' =>
        let chunk := File.slice file offset (offset + CHUNK_SIZE) in
        write env chunk ;;
        let offset' := offset + Z.of_nat (length chunk) in
        transfers_update transferId (FileTransferProgress.with_transferred offset') ;;
        send_loop fuel' env transferId file offset'
    end
  else ret tt.

Definition send_body (env : environment) (transferId : nat) (file : File.t)
    (peerId : string) : M unit :=
  let peerConns :=
    List.filter (fun c => String.eqb (remotePeer c) peerId) (connections env) in
  match peerConns with
  | [] => throw (JsError "Not connected to peer")
  | first :: _ =>
      let peerConn :=
        match List.find is_webrtc peerConns with
        | Some c => c
        | None => first
        end in
      let metadata := JSON_stringify_metadata (File.name file) (File.size file) in
      let metaBytes := fromString metadata in
      let lenBuf := setUint32 (Z.of_nat (length metaBytes)) in
      dialProtocol env (remoteAddr peerConn) ;;
      transfers_update_required transferId (FileTransferProgress.with_status transferring) ;;
      write env lenBuf ;;
      write env metaBytes ;;
      send_loop (length (File.content file)) env transferId file 0 ;;
      stream_close env ;;
      transfers_update_required transferId (FileTransferProgress.with_status completed)
  end.

Definition sendFile (env : environment) (file : File.t) (peerId : string) : M unit :=
  if node_ready env then
    transferId <- randomUUID ;;
    transfers_set transferId
      {| FileTransferProgress.id := transferId;
         FileTransferProgress.filename := VString (File.name file);
         FileTransferProgress.size := VNumber (File.size file);
         FileTransferProgress.transferred := 0;
         FileTransferProgress.status := pending;
         FileTransferProgress.direction := send;
         FileTransferProgress.error := None |} ;;
    try_catch (send_body env transferId file peerId)
      (fun err =>
         transfers_update transferId
           (fun t => FileTransferProgress.with_error err
                       (FileTransferProgress.with_status error t)) ;;
         throw err)
  else throw (JsError "Node not initialized").

(** ** [registerProtocol] and the delivery of inbound streams *)

(** The node's registrar: protocol identifiers with the handler installed
    for each, a handler being named by the composable that installed it. *)
Record Libp2p := { handlers : list (string * nat) }.

(** [libp2p.unhandle(protocol)] *)
Definition unhandle (protocol : string) (libp2p : Libp2p) : Libp2p :=
  {| handlers := List.filter (fun h => negb (String.eqb (fst h) protocol)) (handlers libp2p) |}.

(** [libp2p.handle(protocol, handler)]: rejects ([None]) a protocol that
    already has a handler. *)
Definition handle (protocol : string) (handler : nat) (libp2p : Libp2p)
  : option Libp2p :=
  if existsb (fun h => String.eqb (fst h) protocol) (handlers libp2p) then None
  else Some {| handlers := (handlers libp2p ++ [(protocol, handler)])%list |}.

(** A call of the watcher's callback, which is an async function: where it
    awaits, or how it returned. [libp2p] names the node the call is for. *)
Inductive registration :=
| Skipped                        (* returned at the flag, or [node.value] was null *)
| AwaitsUnhandle (libp2p : nat)  (* at [await libp2p.unhandle(...)] *)
| AwaitsHandle (libp2p : nat)    (* at [await libp2p.handle(...)], which resolves *)
| Registered (libp2p : nat)      (* returned after setting [protocolRegistered] *)
| Rejected (libp2p : nat).       (* [libp2p.handle] rejected: returned from the [catch] *)

(** The composable as its registrations see it: the flag, the registrars
    of the nodes that [node.value] takes, each node under its name, and the
    calls of the callback made so far, in the order they were made. *)
Record composable := {
  protocolRegistered : bool;
  nodes : gmap nat Libp2p;
  calls : list registration
}.

(** [registerProtocol(libp2p)] up to its first [await]: the registrar drops
    the protocol when [unhandle] is called, and the call waits for the
    promise to settle. *)
Definition registerProtocol (libp2p : nat) (c : composable) : registration * composable :=
  if protocolRegistered c then (Skipped, c)
  else
    (AwaitsUnhandle libp2p,
     {| protocolRegistered := protocolRegistered c;
        nodes := alter (unhandle FILE_TRANSFER_PROTOCOL) libp2p (nodes c);
        calls := calls c |}).

(** The callback of [watch(() => node.value, ..., { immediate: true })], up
    to its first [await]. *)
Definition on_node (newNode : option nat) (c : composable) : registration * composable :=
  match newNode with
  | Some libp2p =>
      if negb (protocolRegistered c) then registerProtocol libp2p c else (Skipped, c)
  | None => (Skipped, c)
  end.

(** A call goes on after its [await], in the composable [self], up to its
    next [await] or its return: after [unhandle] it calls [handle], which
    installs the handler or rejects; after [handle] it sets the flag. *)
Definition resume (self : nat) (r : registration) (c : composable)
  : registration * composable :=
  match r with
  | AwaitsUnhandle libp2p =>
      match nodes c !! libp2p with
      | Some node =>
          match handle FILE_TRANSFER_PROTOCOL self node with
          | Some node' =>
              (AwaitsHandle libp2p,
               {| protocolRegistered := protocolRegistered c;
                  nodes := <[libp2p := node']> (nodes c);
                  calls := calls c |})
          | None => (Rejected libp2p, c)
          end
      | None => (Rejected libp2p, c)
      end
  | AwaitsHandle libp2p =>
      (Registered libp2p,
       {| protocolRegistered := true; nodes := nodes c; calls := calls c |})
  | Skipped | Registered _ | Rejected _ => (r, c)
  end.

(** What the event loop runs next: the callback, for a new value of
    [node.value], or the continuation of one of the calls made. *)
Inductive turn :=
| NodeChanged (newNode : option nat)
| Resumed (call : nat).

Definition take_turn (self : nat) (t : turn) (c : composable) : composable :=
  match t with
  | NodeChanged newNode =>
      let '(r, c') := on_node newNode c in
      {| protocolRegistered := protocolRegistered c'; nodes := nodes c';
         calls := (calls c' ++ [r])%list |}
  | Resumed call =>
      match calls c !! call with
      | Some r =>
          let '(r', c') := resume self r c in
          {| protocolRegistered := protocolRegistered c'; nodes := nodes c';
             calls := <[call := r']> (calls c') |}
      | None => c
      end
  end.

Definition take_turns (self : nat) (ts : list turn) (c : composable) : composable :=
  fold_left (fun c t => take_turn self t c) ts c.

(** A composable that has not registered anything, with the nodes it is
    going to see. *)
Definition set_up (nodes : gmap nat Libp2p) : composable :=
  {| protocolRegistered := false; nodes := nodes; calls := [] |}.

(** A call that is not waiting. *)
Definition returned (r : registration) : bool :=
  match r with
  | AwaitsUnhandle _ | AwaitsHandle _ => false
  | Skipped | Registered _ | Rejected _ => true
  end.

(** The node a call has started to register on. *)
Definition node_of (r : registration) : option nat :=
  match r with
  | Skipped => None
  | AwaitsUnhandle libp2p | AwaitsHandle libp2p | Registered libp2p | Rejected libp2p =>
      Some libp2p
  end.

(** Some call went past the flag for the node [libp2p]. *)
Definition started (libp2p : nat) (c : composable) : Prop :=
  exists r, In r (calls c) /\ node_of r = Some libp2p.

(** A node after [unhandle], and after the [handle] that follows it. *)
Definition unhandled (node0 : Libp2p) : Libp2p := unhandle FILE_TRANSFER_PROTOCOL node0.

Definition installed (self : nat) (node0 : Libp2p) : Libp2p :=
  {| handlers := handlers (unhandled node0) ++ [(FILE_TRANSFER_PROTOCOL, self)] |}.

(** Every call has returned. *)
Definition quiescent (c : composable) : Prop :=
  Forall (fun r => returned r = true) (calls c).

(** What the turns keep true of a node that was [node0] before any
    registration: as long as no call has started on it, it is as it was;
    once a call has, it has lost its handlers for the protocol and either
    waits for a call to install the handler, or holds the handler of
    [self], installed by a call that has set the flag or is about to. *)
Definition registering_on (self : nat) (node0 : Libp2p) (libp2p : nat) (c : composable)
  : Prop :=
  (~ started libp2p c -> nodes c !! libp2p = Some node0) /\
  (started libp2p c ->
   (nodes c !! libp2p = Some (unhandled node0) /\
    In (AwaitsUnhandle libp2p) (calls c)) \/
   (nodes c !! libp2p = Some (installed self node0) /\
    (protocolRegistered c = true \/ In (AwaitsHandle libp2p) (calls c)))).

Definition registering (self : nat) (nodes0 : gmap nat Libp2p) (c : composable) : Prop :=
  forall libp2p,
    match nodes0 !! libp2p with
    | None => nodes c !! libp2p = None
    | Some node0 => registering_on self node0 libp2p c
    end.

(** The handler installed by [registerProtocol]: run the receiver and log,
    rather than rethrow, what it throws. *)
Definition protocol_handler (env : environment) (stream : list byte) : M unit :=
  try_catch (handleIncomingTransfer env stream) (fun _ => ret tt).

(** An inbound stream for [protocol] reaches every handler the registrar
    holds for it; those of the composable [self] run on its state. *)
Fixpoint deliver (hs : list (string * nat)) (protocol : string) (self : nat)
    (env : environment) (stream : list byte) : M unit :=
  match hs with
  | [] => ret tt
  | (p, owner) :: rest =>
      (if String.eqb p protocol && Nat.eqb owner self
       then protocol_handler env stream
       else ret tt) ;;
      deliver rest protocol self env stream
  end.

Definition initial_state : state :=
  {| transfers := ∅; receivedFiles := []; uuids := 0; inbound := [];
     outbound := []; trace := [] |}.

(** ** Reading the log *)

Definition error_entry (transferId : nat) (err : exn) : FileTransferProgress.t :=
  {| FileTransferProgress.id := transferId;
     FileTransferProgress.filename := VString "Unknown";
     FileTransferProgress.size := VNumber 0;
     FileTransferProgress.transferred := 0;
     FileTransferProgress.status := error;
     FileTransferProgress.direction := receive;
     FileTransferProgress.error := Some err |}.

(** The entry the receiver records once the header is decoded. *)
Definition start_entry (transferId : nat) (metadata_filename metadata_size : jsvalue)
  : FileTransferProgress.t :=
  {| FileTransferProgress.id := transferId;
     FileTransferProgress.filename := metadata_filename;
     FileTransferProgress.size := metadata_size;
     FileTransferProgress.transferred := 0;
     FileTransferProgress.status := transferring;
     FileTransferProgress.direction := receive;
     FileTransferProgress.error := None |}.

(** The byte count a declared size stands for in the receive loop. *)
Definition declared_total (num : number) : Z :=
  match num with
  | NaN => 0
  | Num total => total
  end.

Definition total_length (cs : list (list byte)) : Z := Z.of_nat (length (concat cs)).

(** The successive values of the registry entry of [id]. *)
Fixpoint registry_log (id : nat) (tr : list event) : list FileTransferProgress.t :=
  match tr with
  | [] => []
  | EvRegistry id' entry :: rest =>
      if Nat.eqb id' id then entry :: registry_log id rest else registry_log id rest
  | _ :: rest => registry_log id rest
  end.

Fixpoint closes (tr : list event) : nat :=
  match tr with
  | [] => 0
  | EvClose :: rest => S (closes rest)
  | _ :: rest => closes rest
  end.

Fixpoint reads (tr : list event) : list Z :=
  match tr with
  | [] => []
  | EvRead n :: rest => n :: reads rest
  | _ :: rest => reads rest
  end.

Fixpoint acquisitions (tr : list event) : list bool :=
  match tr with
  | [] => []
  | EvAcquire ok :: rest => ok :: acquisitions rest
  | _ :: rest => acquisitions rest
  end.


(** The events of the turns of the receive loop that store the chunks [cs],
    starting with [remaining] bytes to go, in a session whose entry is
    [entry] before the loop. *)
Fixpoint loop_events (id : nat) (entry : FileTransferProgress.t) (writable : bool)
    (total remaining : Z) (cs : list (list byte)) : list event :=
  match cs with
  | [] => []
  | c :: cs' =>
      let remaining' := remaining - Z.of_nat (length c) in
      EvRead (Z.min remaining CHUNK_SIZE)
        :: EvSpool writable c
        :: EvRegistry id (FileTransferProgress.with_transferred (total - remaining') entry)
        :: loop_events id entry writable total remaining' cs'
  end.

(** The registry writes of the turns of the send loop that send the chunks
    [cs], starting at [offset]. *)
Fixpoint send_events (id : nat) (entry : FileTransferProgress.t) (offset : Z)
    (cs : list (list byte)) : list event :=
  match cs with
  | [] => []
  | c :: cs' =>
      let offset' := offset + Z.of_nat (length c) in
      EvRegistry id (FileTransferProgress.with_transferred offset' entry)
        :: send_events id entry offset' cs'
  end.

(** The chunks a receive loop can have stored when [total] bytes were
    declared: none is empty or longer than a chunk, and together they do not
    exceed the declared total. *)
Definition spooled_chunks (total : Z) (cs : list (list byte)) : Prop :=
  Forall (fun c => 0 < Z.of_nat (length c) <= CHUNK_SIZE) cs /\
  total_length cs <= Z.max 0 total.

(** The shapes a run of [handleIncomingTransfer] for the session [id] can
    take: the events it logs, the entry it leaves in the registry and the
    files it publishes. [persistent] tells whether the OPFS file opened and
    [stream_closes] whether [stream.close()] resolves. *)
Inductive receiver_run (id : nat) (persistent stream_closes : bool)
  : list event -> FileTransferProgress.t -> list ReceivedFile.t -> Prop :=
| recv_header_failed (rs : list Z) (err : exn) :
    rs = [4] \/ (exists L, rs = [4; L]) ->
    receiver_run id persistent stream_closes
      (map EvRead rs ++ [EvRegistry id (error_entry id err)])
      (error_entry id err) []
| recv_spool_failed (L : Z) (fname sz : jsvalue) (num : number)
    (cs : list (list byte)) (tail : list event) (err : exn) :
    ToNumber sz = Some num ->
    spooled_chunks (declared_total num) cs ->
    tail = [] \/ (exists n, tail = [EvRead n]) ->
    receiver_run id persistent stream_closes
      ([EvRead 4; EvRead L; EvRegistry id (start_entry id fname sz); EvAcquire persistent]
         ++ loop_events id (start_entry id fname sz) persistent
              (declared_total num) (declared_total num) cs
         ++ tail ++ [EvRegistry id (error_entry id err)])
      (error_entry id err) []
| recv_completed (L : Z) (fname sz : jsvalue) (num : number) (cs : list (list byte)) :
    ToNumber sz = Some num ->
    spooled_chunks (declared_total num) cs ->
    total_length cs = Z.max 0 (declared_total num) ->
    let done := FileTransferProgress.with_status completed
                  (FileTransferProgress.with_transferred (total_length cs)
                     (start_entry id fname sz)) in
    receiver_run id persistent stream_closes
      ([EvRead 4; EvRead L; EvRegistry id (start_entry id fname sz); EvAcquire persistent]
         ++ loop_events id (start_entry id fname sz) persistent
              (declared_total num) (declared_total num) cs
         ++ [EvRegistry id done; EvClose]
         ++ (if stream_closes then [] else [EvRegistry id (error_entry id StreamError)]))
      (if stream_closes then done else error_entry id StreamError)
      [{| ReceivedFile.filename := fname; ReceivedFile.blob := concat cs |}].

(** The entry [sendFile] records before it does anything else. *)
Definition pending_entry (transferId : nat) (file : File.t) : FileTransferProgress.t :=
  {| FileTransferProgress.id := transferId;
     FileTransferProgress.filename := VString (File.name file);
     FileTransferProgress.size := VNumber (File.size file);
     FileTransferProgress.transferred := 0;
     FileTransferProgress.status := pending;
     FileTransferProgress.direction := send;
     FileTransferProgress.error := None |}.

(** What the sender's [catch] makes of an entry. *)
Definition failed (err : exn) (entry : FileTransferProgress.t) : FileTransferProgress.t :=
  FileTransferProgress.with_error err (FileTransferProgress.with_status error entry).

Definition sent_chunks (file : File.t) (cs : list (list byte)) : Prop :=
  Forall (fun c => 0 < Z.of_nat (length c) <= CHUNK_SIZE) cs /\
  total_length cs <= File.size file.

(** The shapes a run of [sendFile] for the session [id] can take once the
    node is there: the events it logs, how it ends and the entry it leaves. *)
Inductive sender_run (id : nat) (file : File.t)
  : list event -> outcome unit -> FileTransferProgress.t -> Prop :=
| send_not_connected :
    let p := pending_entry id file in
    let err := JsError "Not connected to peer" in
    sender_run id file [EvRegistry id p; EvRegistry id (failed err p)]
      (Throw err) (failed err p)
| send_dial_failed (addr : string) :
    let p := pending_entry id file in
    sender_run id file [EvRegistry id p; EvDial addr; EvRegistry id (failed StreamError p)]
      (Throw StreamError) (failed StreamError p)
| send_interrupted (addr : string) (cs : list (list byte)) (closing : list event) :
    sent_chunks file cs ->
    closing = [] \/ (closing = [EvClose] /\ total_length cs = File.size file) ->
    let p := pending_entry id file in
    let t0 := FileTransferProgress.with_status transferring p in
    let t := FileTransferProgress.with_transferred (total_length cs) t0 in
    sender_run id file
      ([EvRegistry id p; EvDial addr; EvRegistry id t0]
         ++ send_events id t0 0 cs ++ closing ++ [EvRegistry id (failed StreamError t)])
      (Throw StreamError) (failed StreamError t)
| send_completed (addr : string) (cs : list (list byte)) :
    sent_chunks file cs ->
    total_length cs = File.size file ->
    let p := pending_entry id file in
    let t0 := FileTransferProgress.with_status transferring p in
    let t := FileTransferProgress.with_transferred (total_length cs) t0 in
    sender_run id file
      ([EvRegistry id p; EvDial addr; EvRegistry id t0]
         ++ send_events id t0 0 cs
         ++ [EvClose; EvRegistry id (FileTransferProgress.with_status completed t)])
      (Return tt) (FileTransferProgress.with_status completed t).

(** ** Properties of logs *)

(** The two pipelines a session can be driven by. *)
Inductive pipeline :=
| Receive (stream : list byte)
| Send (file : File.t) (peerId : string).

Definition run_pipeline (env : environment) (p : pipeline) : M unit :=
  match p with
  | Receive stream => handleIncomingTransfer env stream
  | Send file peerId => sendFile env file peerId
  end.



Fixpoint nondecreasing (l : list Z) : Prop :=
  match l with
  | a :: (b :: _) as rest => a <= b /\ nondecreasing rest
  | _ => True
  end.

(** The moves of a session's status that go forward: out of [pending] into
    [transferring] or [error], and from [transferring] on to itself (a
    progress update), [completed] or [error]; none out of [completed] or
    [error]. *)
Definition forward (a b : Status) : bool :=
  match a, b with
  | pending, transferring | pending, error => true
  | transferring, transferring | transferring, completed | transferring, error => true
  | _, _ => false
  end.

Fixpoint lifecycle (l : list Status) : bool :=
  match l with
  | a :: (b :: _) as rest => forward a b && lifecycle rest
  | _ => true
  end.

(** No identifier still to be handed out is a key of the registry. *)
Definition fresh_uuids (s : state) : Prop :=
  forall j : nat, (uuids s <= j)%nat -> transfers s !! j = None.

(** ** Environments and streams for the examples *)

(** Every collaborator does as asked; the peer [peer] is connected twice. *)
Definition calm : environment :=
  {| opfs_available := true; opfs_write_ok := fun _ => true; opfs_close_ok := true;
     stream_close_ok := true; node_ready := true;
     connections :=
       [{| remotePeer := "peer"; remoteAddr := "/p2p-circuit"; is_webrtc := false |};
        {| remotePeer := "peer"; remoteAddr := "/webrtc"; is_webrtc := true |}];
     dial_ok := true; stream_write_ok := fun _ => true |}.

(** As [calm], but [stream.close()] is rejected. *)
Definition close_rejected : environment :=
  {| opfs_available := true; opfs_write_ok := fun _ => true; opfs_close_ok := true;
     stream_close_ok := false; node_ready := true; connections := connections calm;
     dial_ok := true; stream_write_ok := fun _ => true |}.

(** As [calm], but the browser has no OPFS. *)
Definition without_opfs : environment :=
  {| opfs_available := false; opfs_write_ok := fun _ => true; opfs_close_ok := true;
     stream_close_ok := true; node_ready := true; connections := connections calm;
     dial_ok := true; stream_write_ok := fun _ => true |}.

(** A length prefix followed by the given metadata text. *)
Definition framed (text : string) : list byte :=
  setUint32 (Z.of_nat (length (fromString text))) ++ fromString text.

(** The header and payload of a file, as [sendFile] writes them. *)
Definition file_frame (file : File.t) : list byte :=
  framed (JSON_stringify_metadata (File.name file) (File.size file)) ++ File.content file.

(** A stream that byteStream's buffer can hold whole. *)
Definition fits_buffer (stream : list byte) : Prop :=
  Z.of_nat (length stream) <= MAX_BUFFER_SIZE.

(** A file the receiver's header check lets through and the read buffer
    has room for: its name is well-formed text, its size is an integer a JS
    number holds exactly, its metadata takes no more than 10000 bytes, and
    its header and content together fit the buffer. *)
Definition acceptable (file : File.t) : Prop :=
  well_formed (File.name file) = true /\
  File.size file <= 2 ^ 53 /\
  Z.of_nat (length (fromString (JSON_stringify_metadata (File.name file) (File.size file))))
    <= 10000 /\
  fits_buffer (file_frame file).

(** What a sender in [calm] surroundings puts on the wire for a file. *)
Definition wire (file : File.t) : list byte :=
  concat (outbound (snd (sendFile calm file "peer" initial_state))).

Definition hello : File.t :=
  {| File.name := "hello.txt"; File.content := fromString "hello" |}.

(** The receiver's state after it took [hello] off the wire. *)
Definition hello_received : state :=
  snd (handleIncomingTransfer calm (wire hello) initial_state).

(** The sender's state after it sent [hello]. *)
Definition hello_sent : state := snd (sendFile calm hello "peer" initial_state).

(** A node on which an earlier composable (3) left its handler for the
    file protocol, next to a handler for another protocol. *)
Definition reused_node : Libp2p :=
  {| handlers := [("/ipfs/id/1.0.0", 1%nat); (FILE_TRANSFER_PROTOCOL, 3%nat)] |}.

(** The handlers a registrar holds for a protocol. *)
Definition handlers_for (protocol : string) (libp2p : Libp2p) : list (string * nat) :=
  List.filter (fun h => String.eqb (fst h) protocol) (handlers libp2p).

(** A stream that ends after two bytes. *)
Definition two_bytes : list byte := [x00; x00].


(** A header that declares one byte more than a chunk, the chunk, and then
    the end of the stream. *)
Definition cut_short : list byte :=
  framed (JSON_stringify_metadata "big.bin" 65537) ++ repeat x00 (Z.to_nat 65536).

(** A file of three chunks and seventeen bytes more. *)
Definition three_chunks_and_more : File.t :=
  {| File.name := "big.bin"; File.content := repeat x00 (Z.to_nat 196625) |}.

(** A file without content whose name has ten thousand characters. *)
Definition long_name : File.t :=
  {| File.name := string_of_list_ascii (repeat "a"%char (Z.to_nat 10000));
     File.content := [] |}.




(** ** The relay's HTTP listener ([startHttpServer]) *)

Module Http.

(** A request as the listener reads it: [req.method], the [pathname] and
    the [code] parameter of [new URL(req.url || '/', ...)], and the body
    the [data] events add up to. *)
Record IncomingMessage := {
  method : string;
  pathname : string;
  code : option string;
  body : string
}.

(** [res.writeHead(status, ...); res.end(...)]: the 204 without a body, or a
    status with a JSON body. *)
Inductive ServerResponse :=
| R204
| R405 (err : string)
| Json (r : Relay.response).

Definition statusCode (res : ServerResponse) : Z :=
  match res with
  | R204 => 204
  | R405 _ => 405
  | Json (Relay.R200_code _) | Json (Relay.R200_address _) => 200
  | Json (Relay.R400 _) => 400
  | Json (Relay.R404 _) => 404
  end.

(** What serving a request comes to: an answer, the registry and the values
    of [Math.random()] not yet used; [Drawing] while [generateCode] is still
    looping; [Beyond] for a body on which the model of [JSON.parse] takes no
    position. *)
Inductive served :=
| Done (res : ServerResponse) (codeRegistry : gmap string Relay.CodeEntry) (draws : list Q)
| Drawing
| Beyond.

(** [const { address } = v]: a [TypeError] ([None]) for [null], the own
    property of an object, and [undefined] for every other value, none of
    which has or inherits a property of that name. *)
Definition destructure_address (v : jsvalue) : option jsvalue :=
  match v with
  | VUndefined | VNull => None
  | VObject fields => Some (last_field "address" fields)
  | VBool _ | VNumber _ | VString _ | VArray _ => Some VUndefined
  end.

(** The [end] handler of a POST to [/code]. *)
Definition post (now : Z) (draws : list Q) (body : string)
    (codeRegistry : gmap string Relay.CodeEntry) : served :=
  match JSON_parse body with
  | SyntaxError => Done (Json (Relay.R400 "Invalid JSON")) codeRegistry draws
  | Unmodelled => Beyond
  | Parsed v _ =>
      match destructure_address v with
      | None => Done (Json (Relay.R400 "Invalid JSON")) codeRegistry draws
      | Some address =>
          match Relay.post_code now draws address codeRegistry with
          | Some (r, codeRegistry', rest) => Done (Json r) codeRegistry' rest
          | None => Drawing
          end
      end
  end.

(** The request listener of [http.createServer], at the time [now] that
    [Date.now()] gives while the request is served. *)
Definition requestListener (now : Z) (draws : list Q) (req : IncomingMessage)
    (codeRegistry : gmap string Relay.CodeEntry) : served :=
  if String.eqb (method req) "OPTIONS" then Done R204 codeRegistry draws
  else if String.eqb (pathname req) "/code" then
    if String.eqb (method req) "POST" then post now draws (body req) codeRegistry
    else if String.eqb (method req) "GET" then
      let '(r, codeRegistry') := Relay.get_code now (code req) codeRegistry in
      Done (Json r) codeRegistry' draws
    else Done (R405 "Method not allowed") codeRegistry draws
  else Done (Json (Relay.R404 "Not found")) codeRegistry draws.

(** What happens to the registry over time: a request, or a turn of the
    sweep interval. *)
Inductive tick :=
| Request (now : Z) (draws : list Q) (req : IncomingMessage)
| Sweep (now : Z).

Definition tick_time (t : tick) : Z :=
  match t with
  | Request now _ _ | Sweep now => now
  end.

(** The registry after a tick; [None] where [requestListener] gives no
    answer. *)
Definition step (t : tick) (codeRegistry : gmap string Relay.CodeEntry)
  : option (gmap string Relay.CodeEntry) :=
  match t with
  | Request now draws req =>
      match requestListener now draws req codeRegistry with
      | Done _ codeRegistry' _ => Some codeRegistry'
      | Drawing | Beyond => None
      end
  | Sweep now => Some (Relay.sweep now codeRegistry)
  end.

Fixpoint run (ts : list tick) (codeRegistry : gmap string Relay.CodeEntry)
  : option (gmap string Relay.CodeEntry) :=
  match ts with
  | [] => Some codeRegistry
  | t :: rest =>
      match step t codeRegistry with
      | Some codeRegistry' => run rest codeRegistry'
      | None => None
      end
  end.

(** The draws of every request are values [Math.random()] can return. *)
Definition fair (t : tick) : Prop :=
  match t with
  | Request _ draws _ => Forall Relay.unit_interval draws
  | Sweep _ => True
  end.

(** Every key is a six-digit code and every address is a truthy value. *)
Definition well_kept (codeRegistry : gmap string Relay.CodeEntry) : Prop :=
  forall c entry, codeRegistry !! c = Some entry ->
    Relay.six_digit_code c /\ ToBoolean (Relay.address entry) = true.

(** A value that is not a string. *)
Definition not_a_string (v : jsvalue) : Prop := forall s : string, v <> VString s.

(** The ways the listener gives an answer. *)
Inductive listened (now : Z) (draws : list Q) (req : IncomingMessage)
    (reg : gmap string Relay.CodeEntry)
  : ServerResponse -> gmap string Relay.CodeEntry -> list Q -> Prop :=
| listened_registered (c addr : string) (rest : list Q) :
    method req = "POST" -> pathname req = "/code" ->
    addr <> "" ->
    Relay.generateCode draws reg = Some (c, rest) ->
    listened now draws req reg (Json (Relay.R200_code c))
      (<[c := {| Relay.address := addr; Relay.createdAt := now |}]> reg) rest
| listened_stored (c : string) (addr : jsvalue) (rest : list Q) :
    method req = "POST" -> pathname req = "/code" ->
    ToBoolean addr = true -> not_a_string addr ->
    Relay.generateCode draws reg = Some (c, rest) ->
    listened now draws req reg (Json (Relay.R400 "Invalid JSON"))
      (<[c := {| Relay.address := addr; Relay.createdAt := now |}]> reg) rest
| listened_expired (c : string) (entry : Relay.CodeEntry) :
    method req = "GET" -> pathname req = "/code" ->
    code req = Some c -> reg !! c = Some entry ->
    Relay.expired now entry = true ->
    listened now draws req reg (Json (Relay.R404 "Code expired")) (delete c reg) draws
| listened_found (c : string) (entry : Relay.CodeEntry) :
    method req = "GET" -> pathname req = "/code" ->
    code req = Some c -> c <> "" -> reg !! c = Some entry ->
    Relay.expired now entry = false ->
    listened now draws req reg (Json (Relay.R200_address (Relay.address entry)))
      reg draws
| listened_other (res : ServerResponse) :
    statusCode res <> 200 ->
    res <> Json (Relay.R404 "Code expired") ->
    listened now draws req reg res reg draws.

Definition POST (text : string) : IncomingMessage :=
  {| method := "POST"; pathname := "/code"; code := None; body := text |}.

Definition GET (c : string) : IncomingMessage :=
  {| method := "GET"; pathname := "/code"; code := Some c; body := "" |}.

(** [JSON.stringify({ address: addr })] *)
Definition JSON_stringify_address (addr : string) : string :=
  "{" ++ QuoteJSONString "address" ++ ":" ++ QuoteJSONString addr ++ "}".

(** A body that gives [address] a number. *)
Definition numeric_body : string := "{" ++ QuoteJSONString "address" ++ ":5}".

(** An address with a backslash and a quote in it, and a body that carries
    it after another field, with white space around. *)
Definition odd_address : string := String backslash "dns4" ++ String dquote "relay".

Definition spaced_body : string :=
  " {" ++ QuoteJSONString "port" ++ ": 443 ,"
       ++ QuoteJSONString "address" ++ ":" ++ QuoteJSONString odd_address ++ "} ".

End Http.

(** ** The rest of the composable: [clearTransfer] and [downloadFile] *)

(** [clearTransfer(id)] *)
Definition clearTransfer (id : nat) : M unit :=
  modify (fun s => set_transfers (delete id (transfers s)) s).

(** [f.filename === filename], for the string [filename]. *)
Definition named (filename : string) (f : ReceivedFile.t) : bool :=
  match ReceivedFile.filename f with
  | VString name => String.eqb name filename
  | _ => false
  end.

(** What [downloadFile] does in the document; [url] is the object URL that
    [URL.createObjectURL] hands out. *)
Inductive dom_event :=
| CreateObjectURL (blob : list byte) (url : nat)
| AnchorClick (href : nat) (download : string)
| RevokeObjectURL (url : nat).

(** [downloadFile(filename)] *)
Definition downloadFile (filename : string) (receivedFiles : list ReceivedFile.t)
    (url : nat) : list dom_event :=
  match List.find (named filename) receivedFiles with
  | None => []
  | Some file =>
      [CreateObjectURL (ReceivedFile.blob file) url;
       AnchorClick url filename;
       RevokeObjectURL url]
  end.

(** Pipelines run one after the other on the composable's state; what one
    of them throws goes to its caller and the next one starts. [None] when
    a run leaves the model. *)
Fixpoint run_pipelines (env : environment) (ps : list pipeline) (s : state)
  : option state :=
  match ps with
  | [] => Some s
  | p :: rest =>
      match run_pipeline env p s with
      | (OutsideModel, _) => None
      | (_, s') => run_pipelines env rest s'
      end
  end.

(** Whether a pipeline gets as far as recording a session: the receiver
    always does, [sendFile] when the node is there. *)
Definition records_session (env : environment) (p : pipeline) : bool :=
  match p with
  | Receive _ => true
  | Send _ _ => node_ready env
  end.

(** The addresses dialed, in order. *)
Fixpoint dials (tr : list event) : list string :=
  match tr with
  | [] => []
  | EvDial addr :: rest => addr :: dials rest
  | _ :: rest => dials rest
  end.

(** A session that is over: its status is [completed], or [error] with the
    exception that ended it. *)
Definition settled (entry : FileTransferProgress.t) : Prop :=
  (FileTransferProgress.status entry = completed /\ FileTransferProgress.error entry = None) \/
  (FileTransferProgress.status entry = error /\ FileTransferProgress.error entry <> None).


(** The frame of [hello] cut after three bytes of its content, and the
    frame followed by four bytes more. *)
Definition hello_cut : list byte :=
  framed (JSON_stringify_metadata "hello.txt" 5) ++ fromString "hel".

Definition hello_and_more : list byte :=
  framed (JSON_stringify_metadata "hello.txt" 5) ++ fromString "hellomore".

(** ** The list of connected peers (composables/useLibp2p.ts) *)

Module Peers.

(** The part of the composable's state the list depends on. *)
Record t := { relayPeerId : option string; connectedPeers : list string }.

(** What touches the list: the node's [connection:open] and
    [connection:close] events, [connectToRelay] once its dial has resolved,
    and [stopNode]. *)
Inductive change :=
| ConnectionOpen (peerId : string)
| ConnectionClose (peerId : string)
| RelayDialed (peerId : string)
| NodeStopped.

(** [peerId !== state.relayPeerId] *)
Definition is_relay (peerId : string) (state : t) : bool :=
  match relayPeerId state with
  | Some r => String.eqb peerId r
  | None => false
  end.

Definition apply (c : change) (state : t) : t :=
  match c with
  | ConnectionOpen peerId =>
      if negb (is_relay peerId state)
         && negb (existsb (String.eqb peerId) (connectedPeers state))
      then {| relayPeerId := relayPeerId state;
              connectedPeers := (connectedPeers state ++ [peerId])%list |}
      else state
  | ConnectionClose peerId =>
      {| relayPeerId := relayPeerId state;
         connectedPeers :=
           List.filter (fun p => negb (String.eqb p peerId)) (connectedPeers state) |}
  | RelayDialed r =>
      {| relayPeerId := Some r;
         connectedPeers :=
           List.filter (fun p => negb (String.eqb p r)) (connectedPeers state) |}
  | NodeStopped => {| relayPeerId := relayPeerId state; connectedPeers := [] |}
  end.

Definition initial : t := {| relayPeerId := None; connectedPeers := [] |}.

End Peers.

(** ** The page's [handleSendFile] (pages/index.vue) *)

Module Page.

(** [toast.add({ title, description, color })], the description of a
    failure being the message of the exception kept here. *)
Inductive toast :=
| FileSent (description : string)       (* title 'File Sent', color 'success' *)
| SendFailed (err : exn).               (* title 'Send Failed', color 'error' *)

Record t := {
  selectedFile : option File.t;
  selectedPeer : option string;
  isSending : bool;
  toasts : list toast
}.

(** [handleSendFile()]: the page afterwards. *)
Definition handleSendFile (env : environment) (page : t) : M t :=
  match selectedFile page, selectedPeer page with
  | Some file, Some peer =>
      if String.eqb peer "" then ret page
      else
        fun s =>
          match sendFile env file peer s with
          | (Return _, s') =>
              (Return {| selectedFile := None; selectedPeer := selectedPeer page;
                         isSending := false;
                         toasts := toasts page
                                     ++ [FileSent (File.name file ++ " sent successfully")] |},
               s')
          | (Throw err, s') =>
              (Return {| selectedFile := selectedFile page;
                         selectedPeer := selectedPeer page;
                         isSending := false;
                         toasts := toasts page ++ [SendFailed err] |},
               s')
          | (OutsideModel, s') => (OutsideModel, s')
          end
  | _, _ => ret page
  end.

(** A page with [hello] selected for the peer [peer]. *)
Definition ready : t :=
  {| selectedFile := Some hello; selectedPeer := Some "peer"; isSending := false;
     toasts := [] |}.

End Page.

(** * Proof automation *)

#[local] Arguments String.append : simpl nomatch.

Ltac div10 := Z.to_euclidean_division_equations; lia.


(** * Facts *)

(** ** Decimal digits *)

Lemma string_app_assoc (a b c : string) : ((a ++ b) ++ c = a ++ (b ++ c))%string.
Proof. induction a as [|x a IH]; simpl; [reflexivity | now rewrite IH]. Qed.

Lemma string_app_nil_r (a : string) : (a ++ "" = a)%string.
Proof. induction a as [|x a IH]; simpl; [reflexivity | now rewrite IH]. Qed.

Lemma string_length_app (a b : string) :
  String.length (a ++ b) = (String.length a + String.length b)%nat.
Proof. induction a as [|x a IH]; simpl; [reflexivity | now rewrite IH]. Qed.

Lemma N_div10_lt (n : N) : (10 <= n -> n / 10 < n)%N.
Proof. intros H. zify. div10. Qed.

Lemma digit_char_code (d : N) : (d < 10)%N -> N_of_ascii (digit_char d) = (48 + d)%N.
Proof. intros H. unfold digit_char. apply N_ascii_embedding. lia. Qed.

Lemma digit_char_is_digit (d : N) : (d < 10)%N -> is_digit (digit_char d) = true.
Proof.
  intros H. unfold is_digit. rewrite digit_char_code by exact H.
  apply andb_true_intro. split; apply N.leb_le; lia.
Qed.

Lemma digit_char_value (d : N) : (d < 10)%N -> digit_value (digit_char d) = d.
Proof. intros H. unfold digit_value. rewrite digit_char_code by exact H. lia. Qed.

Lemma mod10_lt (n : N) : (n mod 10 < 10)%N.
Proof. apply N.mod_lt. discriminate. Qed.

(** The digits are put in front of the accumulator. *)
Lemma to_digits_acc (fuel : nat) : forall n acc,
  to_digits fuel n acc = (to_digits fuel n "" ++ acc)%string.
Proof.
  induction fuel as [|f IH]; intros n acc; simpl.
  - reflexivity.
  - destruct (n <? 10)%N; [reflexivity|].
    rewrite (IH _ (String _ acc)), (IH _ (String _ "")).
    rewrite string_app_assoc. reflexivity.
Qed.

(** Reading back what [to_digits] printed continues behind it with the
    value extended by the digits of [n]. *)
Lemma read_to_digits (fuel : nat) : forall n acc,
  (n < 2 ^ N.of_nat fuel)%N ->
  exists k : N, forall v,
    read_digits (to_digits fuel n acc) v = read_digits acc (v * 10 ^ k + n)%N.
Proof.
  induction fuel as [|f IH]; intros n acc Hn.
  - exists 1%N. intros v. simpl in *.
    assert (n = 0%N) by lia. subst n. simpl.
    replace (v * 10 ^ 1 + 0)%N with (v * 10 + 0)%N by lia. reflexivity.
  - simpl. destruct (N.ltb_spec n 10) as [Hlt|Hge].
    + exists 1%N. intros v. simpl.
      rewrite digit_char_is_digit by apply mod10_lt.
      rewrite digit_char_value by apply mod10_lt.
      rewrite N.mod_small by exact Hlt.
      replace (v * 10 ^ 1 + n)%N with (v * 10 + n)%N by lia. reflexivity.
    + destruct (IH (n / 10)%N (String (digit_char (n mod 10)) acc)) as [k Hk].
      { rewrite Nat2N.inj_succ, N.pow_succ_r' in Hn. zify. div10. }
      exists (k + 1)%N. intros v. rewrite Hk. simpl.
      rewrite digit_char_is_digit by apply mod10_lt.
      rewrite digit_char_value by apply mod10_lt.
      f_equal. rewrite N.pow_add_r. change (10 ^ 1)%N with 10%N.
      pose proof (N.div_mod n 10 ltac:(discriminate)). nia.
Qed.

Lemma N_size_fuel (n : N) : (n < 2 ^ N.of_nat (N.size_nat n))%N.
Proof.
  destruct n as [|p]; [simpl; lia|]. simpl.
  induction p as [p IH|p IH|]; simpl Pos.size_nat;
    rewrite ?Nat2N.inj_succ, ?N.pow_succ_r'; simpl; lia.
Qed.

Lemma to_digits_small (fuel : nat) (n : N) (acc : string) :
  (n < 10)%N -> to_digits fuel n acc = String (digit_char n) acc.
Proof.
  intros H. destruct fuel; simpl.
  - now rewrite N.mod_small.
  - apply N.ltb_lt in H as H'. rewrite H'. now rewrite N.mod_small.
Qed.

Lemma to_digits_step (fuel : nat) (n : N) (acc : string) :
  (10 <= n)%N ->
  to_digits (S fuel) n acc = to_digits fuel (n / 10) (String (digit_char (n mod 10)) acc).
Proof. intros H. simpl. apply N.ltb_ge in H. now rewrite H. Qed.

Lemma all_digits_to_digits (fuel : nat) : forall n acc,
  all_digits (to_digits fuel n acc) = all_digits acc.
Proof.
  induction fuel as [|f IH]; intros n acc; simpl.
  - now rewrite digit_char_is_digit by apply mod10_lt.
  - destruct (n <? 10)%N; [|rewrite IH]; simpl;
      now rewrite digit_char_is_digit by apply mod10_lt.
Qed.

Lemma to_digits_nonempty (fuel : nat) : forall n acc, to_digits fuel n acc <> "".
Proof.
  induction fuel as [|f IH]; intros n acc; simpl; [discriminate|].
  destruct (n <? 10)%N; [discriminate|].
  rewrite to_digits_acc. destruct (to_digits f (n / 10) "") eqn:E; [|discriminate].
  now apply IH in E.
Qed.

Lemma Number_toString_nonempty (z : Z) : Number_toString z <> "".
Proof.
  unfold Number_toString, N_toString. destruct (z <? 0); [discriminate|].
  apply to_digits_nonempty.
Qed.

(** Six digits for the integers from 100000 to 999999. *)
Lemma to_digits_six (fuel : nat) (n : N) :
  (100000 <= n <= 999999)%N -> (5 <= fuel)%nat ->
  String.length (to_digits fuel n "") = 6%nat.
Proof.
  intros Hn Hf.
  do 5 (destruct fuel as [|fuel]; [lia|]).
  rewrite to_digits_step by lia.
  rewrite to_digits_step by (zify; div10).
  rewrite to_digits_step by (zify; div10).
  rewrite to_digits_step by (zify; div10).
  rewrite to_digits_step by (zify; div10).
  rewrite to_digits_small by (zify; div10).
  reflexivity.
Qed.

Lemma Number_toString_six (n : Z) :
  100000 <= n <= 999999 -> Relay.six_digit_code (Number_toString n).
Proof.
  intros Hn. unfold Relay.six_digit_code. split; [|split].
  - unfold Number_toString, N_toString.
    destruct (Z.ltb_spec n 0) as [?|_]; [lia|].
    apply to_digits_six; [lia|].
    pose proof (N_size_fuel (Z.to_N n)) as Hs.
    destruct (N.size_nat (Z.to_N n)) as [|[|[|[|[|f]]]]]; simpl in Hs; lia.
  - unfold Number_toString, N_toString.
    destruct (Z.ltb_spec n 0) as [?|_]; [lia|].
    now rewrite all_digits_to_digits.
  - exists n. split; [exact Hn | reflexivity].
Qed.

(** ** Rounding to a double *)

Lemma round_half_even_cases (q : Q) :
  (round_half_even q = Qfloor q /\ (q - inject_Z (Qfloor q) <= 1 # 2)%Q) \/
  (round_half_even q = Qfloor q + 1 /\ (1 # 2 <= q - inject_Z (Qfloor q))%Q).
Proof.
  unfold round_half_even. cbv zeta.
  destruct (Qcompare (q - inject_Z (Qfloor q)) (1 # 2)) eqn:E.
  - apply Qeq_alt in E. destruct (Z.even (Qfloor q)); [left|right]; split; auto; lra.
  - apply Qlt_alt in E. left. split; auto. lra.
  - apply Qgt_alt in E. right. split; auto. lra.
Qed.

Lemma round_half_even_le (q : Q) (N : Z) :
  (q <= inject_Z N)%Q -> round_half_even q <= N.
Proof.
  intros H. pose proof (Qfloor_le q) as Hf.
  destruct (round_half_even_cases q) as [[-> _]|[-> Hh]].
  - rewrite Zle_Qle. lra.
  - assert (Qfloor q < N); [|lia]. rewrite Zlt_Qlt. lra.
Qed.

Lemma round_half_even_ge (q : Q) (N : Z) :
  (inject_Z N <= q)%Q -> N <= round_half_even q.
Proof.
  intros H. assert (Hf : N <= Qfloor q).
  { rewrite <- (Qfloor_Z N). now apply Qfloor_resp_le. }
  destruct (round_half_even_cases q) as [[-> _]|[-> _]]; lia.
Qed.

Lemma round_half_even_below (q : Q) (N : Z) :
  (q < inject_Z N - (1 # 2))%Q -> round_half_even q <= N - 1.
Proof.
  intros H. pose proof (Qfloor_le q) as Hf.
  destruct (round_half_even_cases q) as [[-> _]|[-> Hh]].
  - assert (Qfloor q < N); [|lia]. rewrite Zlt_Qlt. lra.
  - assert (Qfloor q + 1 < N); [|lia]. rewrite Zlt_Qlt, inject_Z_plus.
    change (inject_Z 1) with 1%Q. lra.
Qed.

Lemma two_power_pos (k : Z) : (0 < 2 ^ k)%Q.
Proof. now apply Qpower_0_lt. Qed.

Lemma two_power_le (n m : Z) : n <= m -> (2 ^ n <= 2 ^ m)%Q.
Proof. intros H. apply Qpower_le_compat_l; [exact H|]. discriminate. Qed.

Lemma two_power_inject (n : Z) : 0 <= n -> (inject_Z (2 ^ n) == 2 ^ n)%Q.
Proof. intros H. now rewrite Zpower_Qpower. Qed.

Lemma two_power_shift (n m : Z) : (2 ^ (n + m) == 2 ^ n * 2 ^ m)%Q.
Proof. apply Qpower_plus. discriminate. Qed.

Lemma exponent_min (q : Q) : -1022 <= exponent q.
Proof. unfold exponent. lia. Qed.

Lemma scaled_nonneg (q : Q) : (0 <= Qabs q * 2 ^ 1074)%Q.
Proof.
  apply Qmult_le_0_compat; [apply Qabs_nonneg|]. apply Qlt_le_weak, two_power_pos.
Qed.

Lemma unscale (q : Q) (l : Z) :
  (q * 2 ^ 1074 < 2 ^ l -> q < 2 ^ (l - 1074))%Q.
Proof.
  intros H. pose proof (two_power_pos 1074) as Hp. pose proof (two_power_pos (l - 1074)) as Hq.
  assert (E : (2 ^ l == 2 ^ (l - 1074) * 2 ^ 1074)%Q).
  { rewrite <- two_power_shift. now replace (l - 1074 + 1074) with l by lia. }
  rewrite E in H. apply Qmult_lt_r in H; assumption.
Qed.

Lemma unscale_le (q : Q) (l : Z) :
  (2 ^ l <= q * 2 ^ 1074 -> 2 ^ (l - 1074) <= q)%Q.
Proof.
  intros H. pose proof (two_power_pos 1074) as Hp.
  assert (E : (2 ^ l == 2 ^ (l - 1074) * 2 ^ 1074)%Q).
  { rewrite <- two_power_shift. now replace (l - 1074 + 1074) with l by lia. }
  rewrite E in H. apply Qmult_le_r in H; assumption.
Qed.

Lemma exponent_lower (q : Q) :
  -1022 < exponent q -> (2 ^ exponent q <= Qabs q)%Q.
Proof.
  unfold exponent. set (n := Qfloor _). intros H.
  assert (Hn : 0 < n).
  { destruct (Z.ltb_spec 0 n) as [?|Hle]; [assumption|].
    rewrite (Z.log2_nonpos n Hle) in H. lia. }
  rewrite Z.max_l by lia.
  apply unscale_le. rewrite <- two_power_inject by apply Z.log2_nonneg.
  eapply Qle_trans; [|apply Qfloor_le]. fold n. rewrite <- Zle_Qle.
  apply Z.log2_spec, Hn.
Qed.

Lemma exponent_upper (q : Q) : (Qabs q < 2 ^ (exponent q + 1))%Q.
Proof.
  unfold exponent. set (n := Qfloor _).
  pose proof (Qlt_floor (Qabs q * 2 ^ 1074)%Q) as Hlt. fold n in Hlt.
  assert (Hn : 0 <= n).
  { subst n. rewrite <- (Qfloor_Z 0). apply Qfloor_resp_le, scaled_nonneg. }
  eapply Qlt_le_trans; [apply (unscale _ (Z.log2 n + 1))|apply two_power_le; lia].
  eapply Qlt_le_trans; [exact Hlt|].
  rewrite <- two_power_inject by (pose proof (Z.log2_nonneg n); lia).
  rewrite <- Zle_Qle.
  destruct (Z.eq_dec n 0) as [->|Hne]; [simpl; lia|].
  pose proof (Z.log2_spec n ltac:(lia)). lia.
Qed.

Lemma exponent_below (q : Q) (k : Z) :
  (Qabs q < 2 ^ k)%Q -> -1022 < k -> exponent q < k.
Proof.
  intros H Hk. destruct (Z.ltb_spec (exponent q) k) as [?|Hge]; [assumption|exfalso].
  pose proof (exponent_lower q ltac:(lia)) as Hl.
  pose proof (two_power_le k (exponent q) Hge). lra.
Qed.

Lemma on_grid (M k j : Z) :
  j <= k -> (inject_Z M * 2 ^ k == inject_Z (M * 2 ^ (k - j)) * 2 ^ j)%Q.
Proof.
  intros H. rewrite inject_Z_mult, two_power_inject by lia.
  rewrite <- Qmult_assoc, <- two_power_shift. now replace (k - j + j) with k by lia.
Qed.

Lemma binary64_le_grid (q : Q) (M k : Z) :
  (q <= inject_Z M * 2 ^ k)%Q -> exponent q - 52 <= k ->
  (binary64 q <= inject_Z M * 2 ^ k)%Q.
Proof.
  intros H Hk. unfold binary64. cbv zeta. set (j := exponent q - 52) in *.
  pose proof (two_power_pos j) as Hp.
  rewrite (on_grid M k j Hk) in *.
  apply Qmult_le_compat_r; [|lra]. rewrite <- Zle_Qle.
  apply round_half_even_le. apply Qle_shift_div_r; assumption.
Qed.

Lemma binary64_ge_grid (q : Q) (M k : Z) :
  (inject_Z M * 2 ^ k <= q)%Q -> exponent q - 52 <= k ->
  (inject_Z M * 2 ^ k <= binary64 q)%Q.
Proof.
  intros H Hk. unfold binary64. cbv zeta. set (j := exponent q - 52) in *.
  pose proof (two_power_pos j) as Hp.
  rewrite (on_grid M k j Hk) in *.
  apply Qmult_le_compat_r; [|lra]. rewrite <- Zle_Qle.
  apply round_half_even_ge. apply Qle_shift_div_l; assumption.
Qed.

(** The largest double below 1 is 1 - 2^-53. *)
Lemma double_below_one (r : Q) :
  Relay.unit_interval r -> (r <= 1 - 2 ^ (-53))%Q.
Proof.
  intros (H0 & H1 & Hd).
  assert (Ha : (Qabs r == r)%Q) by now apply Qabs_pos.
  assert (He : exponent r < 0).
  { apply exponent_below; [|lia]. rewrite Ha. exact H1. }
  destruct (Z.eq_dec (exponent r) (-1)) as [E|N].
  - unfold binary64 in Hd. cbv zeta in Hd. rewrite E in Hd.
    change (-1 - 52) with (-53) in Hd.
    set (n := round_half_even _) in Hd.
    change (2 ^ (-53))%Q with (1 # 9007199254740992)%Q in *.
    assert (Hn : n < 9007199254740992).
    { rewrite Zlt_Qlt. change (inject_Z 9007199254740992) with (9007199254740992 # 1)%Q. lra. }
    assert (Hn' : (inject_Z n <= 9007199254740991 # 1)%Q).
    { change (9007199254740991 # 1)%Q with (inject_Z 9007199254740991).
      rewrite <- Zle_Qle. lia. }
    lra.
  - pose proof (exponent_upper r) as Hu. rewrite Ha in Hu.
    pose proof (two_power_le (exponent r + 1) (-1) ltac:(lia)) as Hle.
    change (2 ^ (-1))%Q with (1 # 2)%Q in Hle.
    change (2 ^ (-53))%Q with (1 # 9007199254740992)%Q. lra.
Qed.

(** The product [r * 900000], rounded, stays below 900000 by at least one
    unit in the last place. *)
Lemma product_range (r : Q) :
  Relay.unit_interval r ->
  (0 <= binary64 (r * 900000) <= 900000 - 2 ^ (-33))%Q.
Proof.
  intros Hr. pose proof (double_below_one r Hr) as Hb. destruct Hr as (H0 & H1 & _).
  change (2 ^ (-53))%Q with (1 # 9007199254740992)%Q in Hb.
  set (x := (r * 900000)%Q).
  assert (Hx0 : (0 <= x)%Q) by (subst x; lra).
  assert (Hx1 : (x <= 900000 - (900000 # 9007199254740992))%Q) by (subst x; lra).
  assert (Ha : (Qabs x == x)%Q) by now apply Qabs_pos.
  assert (He : exponent x < 20).
  { apply exponent_below; [|lia]. rewrite Ha.
    change (2 ^ 20)%Q with (1048576 # 1)%Q. lra. }
  split.
  - change 0%Q with (inject_Z 0 * 2 ^ 0)%Q. apply binary64_ge_grid; [|lia].
    change (inject_Z 0 * 2 ^ 0)%Q with 0%Q. exact Hx0.
  - destruct (Z.eq_dec (exponent x) 19) as [E|N].
    + unfold binary64. cbv zeta. rewrite E. change (19 - 52) with (-33).
      change (2 ^ (-33))%Q with (1 # 8589934592)%Q.
      assert (Hn : round_half_even (x / (1 # 8589934592)) <= 7730941132800000 - 1).
      { apply round_half_even_below.
        change (inject_Z 7730941132800000) with (7730941132800000 # 1)%Q.
        apply Qlt_shift_div_r; [reflexivity|]. lra. }
      rewrite Zle_Qle in Hn.
      change (inject_Z (7730941132800000 - 1)) with (7730941132799999 # 1)%Q in Hn. lra.
    + pose proof (exponent_upper x) as Hu. rewrite Ha in Hu.
      pose proof (two_power_le (exponent x + 1) 19 ltac:(lia)) as Hle.
      change (2 ^ 19)%Q with (524288 # 1)%Q in Hle.
      assert (Hg : (binary64 x <= inject_Z 1 * 2 ^ 19)%Q).
      { apply binary64_le_grid; [|lia]. change (inject_Z 1 * 2 ^ 19)%Q with (524288 # 1)%Q. lra. }
      change (inject_Z 1 * 2 ^ 19)%Q with (524288 # 1)%Q in Hg.
      change (2 ^ (-33))%Q with (1 # 8589934592)%Q. lra.
Qed.

Lemma sum_range (p : Q) :
  (0 <= p <= 900000 - 2 ^ (-33))%Q ->
  (100000 <= binary64 (100000 + p) <= 1000000 - 2 ^ (-33))%Q.
Proof.
  change (2 ^ (-33))%Q with (1 # 8589934592)%Q. intros [H0 H1].
  set (s := (100000 + p)%Q).
  assert (Ha : (Qabs s == s)%Q) by (apply Qabs_pos; subst s; lra).
  assert (He : exponent s < 20).
  { apply exponent_below; [|lia]. rewrite Ha.
    change (2 ^ 20)%Q with (1048576 # 1)%Q. subst s. lra. }
  split.
  - change 100000%Q with (inject_Z 100000 * 2 ^ 0)%Q. apply binary64_ge_grid; [|lia].
    change (inject_Z 100000 * 2 ^ 0)%Q with 100000%Q. subst s. lra.
  - assert (E : (1000000 - (1 # 8589934592) == inject_Z 8589934591999999 * 2 ^ (-33))%Q)
      by reflexivity.
    rewrite E. apply binary64_le_grid; [|lia]. rewrite <- E. subst s. lra.
Qed.

Lemma draw_in_range (r : Q) :
  Relay.unit_interval r ->
  100000 <= Qfloor (binary64 (100000 + binary64 (r * 900000))) <= 999999.
Proof.
  intros Hr.
  destruct (sum_range _ (product_range r Hr)) as [Hl Hu].
  change (2 ^ (-33))%Q with (1 # 8589934592)%Q in Hu.
  set (v := binary64 _) in *. split.
  - rewrite <- (Qfloor_Z 100000). apply Qfloor_resp_le.
    change (inject_Z 100000) with 100000%Q. exact Hl.
  - assert (Qfloor v < 1000000); [|lia]. rewrite Zlt_Qlt.
    eapply Qle_lt_trans; [apply Qfloor_le|].
    change (inject_Z 1000000) with (1000000 # 1)%Q. lra.
Qed.

(** ** The code registry *)

Lemma generateCode_spec (draws : list Q) (reg : gmap string Relay.CodeEntry)
    (code : string) (rest : list Q) :
  Relay.generateCode draws reg = Some (code, rest) ->
  reg !! code = None /\ exists r, In r draws /\ code = Relay.draw_code r.
Proof.
  induction draws as [|r draws IH]; simpl; [discriminate|].
  destruct (reg !! Relay.draw_code r) eqn:E.
  - intros H. destruct (IH H) as (Hn & r' & Hin & Hc). eauto.
  - intros [= <- <-]. eauto.
Qed.

(** The loop stops at the first draw whose code is free. *)
Lemma generateCode_progress (draws : list Q) (reg : gmap string Relay.CodeEntry) :
  (exists r, In r draws /\ reg !! Relay.draw_code r = None) ->
  exists code rest, Relay.generateCode draws reg = Some (code, rest).
Proof.
  induction draws as [|r draws IH]; intros (r' & Hin & Hfree); [destruct Hin|].
  simpl. destruct (reg !! Relay.draw_code r) eqn:E; [|eauto].
  destruct Hin as [->|Hin]; [congruence|]. apply IH. eauto.
Qed.

Lemma post_code_spec (now : Z) (draws : list Q) (addr : jsvalue)
    (reg reg' : gmap string Relay.CodeEntry) (resp : Relay.response) (rest : list Q) :
  Relay.post_code now draws addr reg = Some (resp, reg', rest) ->
  (ToBoolean addr = false /\ resp = Relay.R400 "Address required" /\
   reg' = reg /\ rest = draws) \/
  (ToBoolean addr = true /\
   exists code,
     Relay.generateCode draws reg = Some (code, rest) /\
     reg' = <[code := {| Relay.address := addr; Relay.createdAt := now |}]> reg /\
     resp = match addr with
            | VString _ => Relay.R200_code code
            | _ => Relay.R400 "Invalid JSON"
            end).
Proof.
  unfold Relay.post_code. destruct (ToBoolean addr); cbn [negb].
  - destruct (Relay.generateCode draws reg) as [[code r]|] eqn:E; [|discriminate].
    intros H. right. split; [reflexivity|]. exists code.
    destruct addr; injection H as <- <- <-; auto.
  - intros [= <- <- <-]. now left.
Qed.

(** A string is truthy unless it is empty. *)
Lemma ToBoolean_string (s : string) : ToBoolean (VString s) = true <-> s <> "".
Proof.
  simpl. destruct (String.eqb_spec s ""); simpl; split; congruence.
Qed.

Lemma expired_spec (now : Z) (entry : Relay.CodeEntry) :
  Relay.expired now entry = true <-> Relay.CODE_EXPIRY_MS < now - Relay.createdAt entry.
Proof. unfold Relay.expired. apply Z.ltb_lt. Qed.

Lemma sweep_lookup (now : Z) (reg : gmap string Relay.CodeEntry) (code : string) :
  Relay.sweep now reg !! code =
  match reg !! code with
  | Some entry => if Relay.expired now entry then None else Some entry
  | None => None
  end.
Proof.
  unfold Relay.sweep. destruct (reg !! code) as [entry|] eqn:E.
  - destruct (Relay.expired now entry) eqn:X.
    + apply map_lookup_filter_None. right. intros e He. simpl. congruence.
    + apply map_lookup_filter_Some. auto.
  - apply map_lookup_filter_None. now left.
Qed.

(** A request served before an entry's expiry leaves the entry as it is. *)
Lemma serve_keeps_entry (rq : Relay.request) (reg reg' : gmap string Relay.CodeEntry)
    (code : string) (entry : Relay.CodeEntry) :
  reg !! code = Some entry ->
  Relay.request_time rq - Relay.createdAt entry <= Relay.CODE_EXPIRY_MS ->
  Relay.serve rq reg = Some reg' ->
  reg' !! code = Some entry.
Proof.
  intros Hin Ht. assert (Hx : Relay.expired (Relay.request_time rq) entry = false).
  { destruct (Relay.expired _ entry) eqn:X; [apply expired_spec in X; lia | reflexivity]. }
  destruct rq as [now draws addr|now c|now]; simpl in *.
  - destruct (Relay.post_code now draws addr reg) as [[[resp r'] rest]|] eqn:E; [|discriminate].
    intros [= <-]. apply post_code_spec in E as [(_ & _ & -> & _)|(_ & c & Hg & -> & _)];
      [exact Hin|].
    apply generateCode_spec in Hg as [Hfree _].
    rewrite lookup_insert_ne; [exact Hin | congruence].
  - intros [= <-]. unfold Relay.get_code.
    destruct c as [c|]; [|exact Hin].
    destruct (String.eqb c ""); [exact Hin|].
    destruct (reg !! c) as [e|] eqn:Ec; [|exact Hin].
    destruct (Relay.expired now e) eqn:Xe; [|exact Hin]. simpl.
    rewrite lookup_delete_ne; [exact Hin | congruence].
  - intros [= <-]. rewrite sweep_lookup, Hin, Hx. reflexivity.
Qed.

Lemma serve_all_keeps_entry (rqs : list Relay.request) :
  forall (reg reg' : gmap string Relay.CodeEntry) (code : string) (entry : Relay.CodeEntry),
  reg !! code = Some entry ->
  Forall (fun rq => Relay.request_time rq - Relay.createdAt entry <= Relay.CODE_EXPIRY_MS) rqs ->
  Relay.serve_all rqs reg = Some reg' ->
  reg' !! code = Some entry.
Proof.
  induction rqs as [|rq rqs IH]; intros reg reg' code entry Hin Hall; simpl.
  - now intros [= <-].
  - inversion Hall as [|? ? Hrq Hrest]; subst.
    destruct (Relay.serve rq reg) as [reg1|] eqn:E; [|discriminate].
    intros Hrun. eapply IH; [|exact Hrest|exact Hrun].
    eapply serve_keeps_entry; eauto.
Qed.

(** C9. An address registered under a code at time [t0] is what a lookup of
    the code returns as long as no more than the five-minute expiry has
    passed, whatever requests were served in between; a lookup or a sweep
    later than that finds the entry expired and deletes it, after which the
    code is reported as not found. *)
Theorem code_entry_expires_after_ttl
    (t0 : Z) (draws : list Q) (addr code : string)
    (reg0 reg1 reg2 : gmap string Relay.CodeEntry) (rest : list Q)
    (rqs : list Relay.request) (now : Z) :
  Relay.post_code t0 draws addr reg0 = Some (Relay.R200_code code, reg1, rest) ->
  Relay.serve_all rqs reg1 = Some reg2 ->
  Forall (fun rq => Relay.request_time rq - t0 <= Relay.CODE_EXPIRY_MS) rqs ->
  (now - t0 <= Relay.CODE_EXPIRY_MS ->
     Relay.get_code now (Some code) reg2 = (Relay.R200_address addr, reg2) /\
     Relay.sweep now reg2 !! code = reg2 !! code) /\
  (Relay.CODE_EXPIRY_MS < now - t0 ->
     Relay.get_code now (Some code) reg2 = (Relay.R404 "Code expired", delete code reg2) /\
     Relay.sweep now reg2 !! code = None /\
     Relay.get_code now (Some code) (delete code reg2)
       = (Relay.R404 "Code not found or expired", delete code reg2) /\
     Relay.get_code now (Some code) (Relay.sweep now reg2)
       = (Relay.R404 "Code not found or expired", Relay.sweep now reg2)).
Proof.
  intros Hpost Hrun Hall.
  apply post_code_spec in Hpost as [(_ & [=] & _)|(_ & c & Hgen & -> & [= <-])].
  set (entry := {| Relay.address := addr; Relay.createdAt := t0 |}) in *.
  assert (Hin : reg2 !! code = Some entry).
  { eapply serve_all_keeps_entry; [apply lookup_insert_eq|exact Hall|exact Hrun]. }
  assert (Hne : String.eqb code "" = false).
  { apply String.eqb_neq. apply generateCode_spec in Hgen as (_ & r & _ & ->).
    apply Number_toString_nonempty. }
  split; intros Ht.
  - assert (Hx : Relay.expired now entry = false).
    { destruct (Relay.expired now entry) eqn:X; [apply expired_spec in X; simpl in X; lia|reflexivity]. }
    unfold Relay.get_code. rewrite Hne, Hin, Hx, sweep_lookup, Hin, Hx. auto.
  - assert (Hx : Relay.expired now entry = true) by (apply expired_spec; simpl; lia).
    unfold Relay.get_code.
    rewrite Hne, Hin, Hx, lookup_delete_eq, !sweep_lookup, Hin, Hx. auto.
Qed.

(** C10. A code returned by [generateCode], for values of [Math.random()]
    that are doubles in [0,1) and with the product and the sum rounded as
    doubles are, is a six-digit decimal between 100000 and 999999 that is
    not a key of the registry, so the entry that [POST /code] then stores
    under it leaves every entry already in the registry, expired or not, in
    place. *)
Theorem generateCode_six_digits_fresh
    (draws : list Q) (reg : gmap string Relay.CodeEntry) (code : string) (rest : list Q) :
  Forall Relay.unit_interval draws ->
  Relay.generateCode draws reg = Some (code, rest) ->
  Relay.six_digit_code code /\
  reg !! code = None /\
  forall (now : Z) (addr : string),
    addr <> "" ->
    let reg' := <[code := {| Relay.address := addr; Relay.createdAt := now |}]> reg in
    Relay.post_code now draws addr reg = Some (Relay.R200_code code, reg', rest) /\
    forall c entry, reg !! c = Some entry -> reg' !! c = Some entry.
Proof.
  intros Hall Hgen. destruct (generateCode_spec _ _ _ _ Hgen) as (Hfree & r & Hin & ->).
  split; [|split; [exact Hfree|]].
  - apply Number_toString_six, draw_in_range.
    rewrite Forall_forall in Hall. apply Hall. now apply list_elem_of_In.
  - intros now addr Ha reg'. split.
    + unfold Relay.post_code. apply ToBoolean_string in Ha. now rewrite Ha, Hgen.
    + intros c entry Hc. subst reg'. rewrite lookup_insert_ne; [exact Hc | congruence].
Qed.

Lemma code_entry_expires_after_ttl_witness :
  let addr := "/dns4/relay.example/tcp/443/wss" in
  let reg1 := <["550000" := {| Relay.address := addr; Relay.createdAt := 1000 |}]>
                (∅ : gmap string Relay.CodeEntry) in
  let rqs := [Relay.SWEEP 61000; Relay.GET 121000 (Some "550000"); Relay.SWEEP 301000] in
  Relay.post_code 1000 [1 # 2] addr ∅ = Some (Relay.R200_code "550000", reg1, []) /\
  Relay.serve_all rqs reg1 = Some reg1 /\
  Forall (fun rq => Relay.request_time rq - 1000 <= Relay.CODE_EXPIRY_MS) rqs /\
  Relay.get_code (1000 + Relay.CODE_EXPIRY_MS - 1000) (Some "550000") reg1
    = (Relay.R200_address addr, reg1) /\
  Relay.get_code (1000 + Relay.CODE_EXPIRY_MS + 1000) (Some "550000") reg1
    = (Relay.R404 "Code expired", delete "550000" reg1) /\
  Relay.sweep (1000 + Relay.CODE_EXPIRY_MS + 1000) reg1 !! "550000" = None.
Proof.
  cbv zeta.
  assert (Hpost : Relay.post_code 1000 [1 # 2] "/dns4/relay.example/tcp/443/wss" ∅
                  = Some (Relay.R200_code "550000",
                          <["550000" := {| Relay.address := "/dns4/relay.example/tcp/443/wss";
                                           Relay.createdAt := 1000 |}]> ∅, []))
    by (vm_compute; reflexivity).
  assert (Hserve : Relay.serve_all
                     [Relay.SWEEP 61000; Relay.GET 121000 (Some "550000"); Relay.SWEEP 301000]
                     (<["550000" := {| Relay.address := "/dns4/relay.example/tcp/443/wss";
                                       Relay.createdAt := 1000 |}]> ∅)
                   = Some (<["550000" := {| Relay.address := "/dns4/relay.example/tcp/443/wss";
                                            Relay.createdAt := 1000 |}]> ∅))
    by (vm_compute; reflexivity).
  assert (Htimes : Forall (fun rq => Relay.request_time rq - 1000 <= Relay.CODE_EXPIRY_MS)
                     [Relay.SWEEP 61000; Relay.GET 121000 (Some "550000"); Relay.SWEEP 301000])
    by (repeat constructor; vm_compute; discriminate).
  split; [exact Hpost|]. split; [exact Hserve|]. split; [exact Htimes|].
  destruct (code_entry_expires_after_ttl _ _ _ _ _ _ _ _ _
              (1000 + Relay.CODE_EXPIRY_MS - 1000) Hpost Hserve Htimes) as [Hbefore _].
  destruct (code_entry_expires_after_ttl _ _ _ _ _ _ _ _ _
              (1000 + Relay.CODE_EXPIRY_MS + 1000) Hpost Hserve Htimes) as [_ Hafter].
  split; [apply Hbefore; vm_compute; discriminate|].
  destruct Hafter as (Hget & Hsweep & _); [vm_compute; reflexivity|].
  split; [exact Hget|exact Hsweep].
Defined.

Lemma generateCode_six_digits_fresh_witness :
  let taken := <["550000" := {| Relay.address := "/ip4/192.0.2.1/tcp/4001";
                                Relay.createdAt := 0 |}]>
                 (∅ : gmap string Relay.CodeEntry) in
  let draws := [1 # 2; 123183457807755 # 4503599627370496; 0 # 1] in
  Forall Relay.unit_interval draws /\
  Relay.generateCode draws taken = Some ("124617", [0 # 1]) /\
  Relay.six_digit_code "124617" /\
  taken !! "124617" = None /\
  forall (now : Z) (addr : string),
    addr <> "" ->
    let reg' := <["124617" := {| Relay.address := addr; Relay.createdAt := now |}]> taken in
    Relay.post_code now draws addr taken
      = Some (Relay.R200_code "124617", reg', [0 # 1]) /\
    forall c entry, taken !! c = Some entry -> reg' !! c = Some entry.
Proof.
  cbv zeta.
  assert (Hdraws : Forall Relay.unit_interval
                     [1 # 2; 123183457807755 # 4503599627370496; 0 # 1])
    by (repeat constructor; vm_compute; try discriminate; reflexivity).
  assert (Hgen : Relay.generateCode [1 # 2; 123183457807755 # 4503599627370496; 0 # 1]
                   (<["550000" := {| Relay.address := "/ip4/192.0.2.1/tcp/4001";
                                     Relay.createdAt := 0 |}]> ∅)
                 = Some ("124617", [0 # 1]))
    by (vm_compute; reflexivity).
  split; [exact Hdraws|]. split; [exact Hgen|].
  exact (generateCode_six_digits_fresh _ _ _ _ Hdraws Hgen).
Defined.


(** ** Bytes and the length prefix *)

Lemma Z_of_byte_of_Z (z : Z) : Z_of_byte (byte_of_Z z) = z mod 256.
Proof.
  unfold Z_of_byte, byte_of_Z.
  assert (Hm : 0 <= z mod 256 < 256) by (apply Z.mod_pos_bound; lia).
  destruct (Byte.of_N (Z.to_N (z mod 256))) as [b|] eqn:E.
  - apply Byte.to_of_N in E. rewrite E. lia.
  - apply Byte.of_N_None_iff in E. lia.
Qed.

Lemma Z_of_byte_range (b : byte) : 0 <= Z_of_byte b < 256.
Proof. unfold Z_of_byte. pose proof (Byte.to_N_bounded b). lia. Qed.

Lemma testbit_mod256 (z i : Z) :
  0 <= i -> Z.testbit (z mod 256) i = (i <? 8) && Z.testbit z i.
Proof.
  intros Hi. change 256 with (2 ^ 8). destruct (Z.ltb_spec i 8).
  - now rewrite Z.mod_pow2_bits_low by lia.
  - now rewrite Z.mod_pow2_bits_high by lia.
Qed.

(** The four bytes written by [setUint32] read back as the value modulo 2^32. *)
Lemma getUint32_setUint32 (n : Z) : getUint32 (setUint32 n) = n mod 2 ^ 32.
Proof.
  unfold getUint32, setUint32. rewrite !Z_of_byte_of_Z.
  apply Z.bits_inj'. intros i Hi.
  rewrite !Z.lor_spec, !Z.shiftl_spec by lia.
  destruct (Z.ltb_spec i 32) as [Hlt|Hge].
  - rewrite Z.mod_pow2_bits_low by lia.
    destruct (Z.ltb_spec i 8); [|destruct (Z.ltb_spec i 16); [|destruct (Z.ltb_spec i 24)]].
    + rewrite (Z.testbit_neg_r _ (i - 24)), (Z.testbit_neg_r _ (i - 16)),
        (Z.testbit_neg_r _ (i - 8)) by lia.
      rewrite testbit_mod256 by lia. simpl.
      destruct (Z.ltb_spec i 8); [reflexivity | lia].
    + rewrite (Z.testbit_neg_r _ (i - 24)), (Z.testbit_neg_r _ (i - 16)) by lia.
      rewrite !testbit_mod256 by lia. rewrite Z.shiftr_spec by lia.
      replace (i - 8 + 8) with i by lia.
      destruct (Z.ltb_spec (i - 8) 8); [|lia]. destruct (Z.ltb_spec i 8); [lia|].
      simpl. now rewrite orb_false_r.
    + rewrite (Z.testbit_neg_r _ (i - 24)) by lia.
      rewrite !testbit_mod256 by lia. rewrite !Z.shiftr_spec by lia.
      replace (i - 16 + 16) with i by lia.
      destruct (Z.ltb_spec (i - 16) 8); [|lia]. destruct (Z.ltb_spec (i - 8) 8); [lia|].
      destruct (Z.ltb_spec i 8); [lia|]. simpl. now rewrite orb_false_r.
    + rewrite !testbit_mod256 by lia. rewrite !Z.shiftr_spec by lia.
      replace (i - 24 + 24) with i by lia.
      destruct (Z.ltb_spec (i - 24) 8); [|lia]. destruct (Z.ltb_spec (i - 16) 8); [lia|].
      destruct (Z.ltb_spec (i - 8) 8); [lia|]. destruct (Z.ltb_spec i 8); [lia|].
      simpl. now rewrite !orb_false_r.
  - rewrite Z.mod_pow2_bits_high by lia.
    rewrite !testbit_mod256 by lia.
    destruct (Z.ltb_spec (i - 24) 8); [lia|]. destruct (Z.ltb_spec (i - 16) 8); [lia|].
    destruct (Z.ltb_spec (i - 8) 8); [lia|]. destruct (Z.ltb_spec i 8); [lia|].
    reflexivity.
Qed.

Lemma getUint32_nonneg (buf : list byte) : 0 <= getUint32 buf.
Proof.
  unfold getUint32. destruct buf as [|b0 [|b1 [|b2 [|b3 [|]]]]]; try lia.
  pose proof (Z_of_byte_range b0). pose proof (Z_of_byte_range b1).
  pose proof (Z_of_byte_range b2). pose proof (Z_of_byte_range b3).
  repeat (apply Z.lor_nonneg; split); try apply Z.shiftl_nonneg; lia.
Qed.

(** ** JSON: what [JSON.stringify] writes, [JSON.parse] reads back *)

Lemma parse_string_body_escape_char (c : ascii) (tail : string) :
  parse_string_body (escape_char c ++ tail)
  = map_parsed (String c) (parse_string_body tail).
Proof. destruct c as [[] [] [] [] [] [] [] []]; reflexivity. Qed.

Lemma parse_string_body_escape (F : string) : forall rest,
  parse_string_body (escape_string F ++ String dquote rest) = Parsed F rest.
Proof.
  induction F as [|c F IH]; intros rest.
  - reflexivity.
  - simpl escape_string. rewrite string_app_assoc, parse_string_body_escape_char, IH.
    reflexivity.
Qed.

Lemma parse_value_digit (fuel : nat) (c : ascii) (r : string) :
  is_digit c = true -> parse_value (S fuel) (String c r) = parse_number (String c r).
Proof.
  intros H.
  destruct c as [[] [] [] [] [] [] [] []];
    try (exfalso; vm_compute in H; discriminate H); reflexivity.
Qed.

Lemma parse_number_unsigned (c : ascii) (r : string) :
  is_digit c = true ->
  parse_number (String c r) =
  let '(n, rest) :=
    if (N_of_ascii c =? 48)%N then (0%N, r) else read_digits (String c r) 0 in
  match rest with
  | String d _ =>
      if is_digit d then SyntaxError
      else if ((N_of_ascii d =? 46) || (N_of_ascii d =? 101) || (N_of_ascii d =? 69))%N
           then Unmodelled
      else if (2 ^ 53 <? n)%N then Unmodelled
      else Parsed (VNumber (Z.of_N n)) rest
  | EmptyString =>
      if (2 ^ 53 <? n)%N then Unmodelled else Parsed (VNumber (Z.of_N n)) rest
  end.
Proof.
  intros H.
  destruct c as [[] [] [] [] [] [] [] []];
    try (exfalso; vm_compute in H; discriminate H); reflexivity.
Qed.

Lemma to_digits_head (fuel : nat) : forall n acc,
  (n < 2 ^ N.of_nat fuel)%N ->
  exists d r, (d < 10)%N /\ (n <> 0%N -> d <> 0%N) /\
              to_digits fuel n acc = String (digit_char d) r.
Proof.
  induction fuel as [|f IH]; intros n acc Hn.
  - exists (n mod 10)%N, acc. split; [apply mod10_lt|]. split; [simpl in Hn; lia|reflexivity].
  - destruct (N.ltb_spec n 10) as [Hlt|Hge].
    + exists n, acc. split; [exact Hlt|]. split; [auto|]. now apply to_digits_small.
    + rewrite to_digits_step by exact Hge.
      destruct (IH (n / 10)%N (String (digit_char (n mod 10)) acc)) as (d & r & Hd & Hnz & E).
      { rewrite Nat2N.inj_succ, N.pow_succ_r' in Hn. zify. div10. }
      exists d, r. split; [exact Hd|]. split; [|exact E].
      intros _. apply Hnz. zify. div10.
Qed.

(** A printed natural number followed by a character that cannot continue
    a number literal parses to the number. *)
Lemma parse_number_to_digits (fuel : nat) (n : N) (d : ascii) (rest : string) :
  (n < 2 ^ N.of_nat fuel)%N -> (n <= 2 ^ 53)%N ->
  is_digit d = false ->
  ((N_of_ascii d =? 46) || (N_of_ascii d =? 101) || (N_of_ascii d =? 69))%N = false ->
  parse_number (to_digits fuel n (String d rest))
  = Parsed (VNumber (Z.of_N n)) (String d rest).
Proof.
  intros Hn H53 Hd Hd'.
  assert (Hbig : (2 ^ 53 <? n)%N = false) by (apply N.ltb_ge; exact H53).
  destruct (to_digits_head fuel n (String d rest) Hn) as (dd & r & Hdd & Hnz & E).
  destruct (read_to_digits fuel n (String d rest) Hn) as [k Hk].
  specialize (Hk 0%N). rewrite E in *.
  rewrite parse_number_unsigned by (now apply digit_char_is_digit).
  rewrite digit_char_code by exact Hdd.
  destruct (N.eq_dec n 0%N) as [->|Hn0].
  - rewrite to_digits_small in E by lia. injection E as E1 E2.
    assert (dd = 0%N).
    { apply (f_equal N_of_ascii) in E1. rewrite !digit_char_code in E1 by lia. lia. }
    subst dd r. simpl. now rewrite Hd, Hd'.
  - specialize (Hnz Hn0). destruct (N.eqb_spec (48 + dd) 48) as [?|_]; [lia|].
    rewrite Hk. simpl read_digits. rewrite Hd. simpl.
    replace (0 * 10 ^ k + n)%N with n by lia. now rewrite Hd, Hd', Hbig.
Qed.

(** The text [JSON.stringify] produces, laid out for the parser. *)
Lemma stringify_metadata_shape (name : string) (size : Z) :
  0 <= size ->
  JSON_stringify_metadata name size
  = String "{" (String dquote (escape_string "filename" ++ String dquote (String ":"
      (String dquote (escape_string name ++ String dquote (String ","
        (String dquote (escape_string "size" ++ String dquote (String ":"
          (to_digits (N.size_nat (Z.to_N size)) (Z.to_N size) "}")))))))))).
Proof.
  intros Hsize. unfold JSON_stringify_metadata, QuoteJSONString, Number_toString, N_toString.
  destruct (Z.ltb_spec size 0) as [?|_]; [lia|].
  rewrite (to_digits_acc _ _ "}").
  change (escape_string "filename") with "filename".
  change (escape_string "size") with "size".
  simpl String.append. rewrite !string_app_assoc. reflexivity.
Qed.

Lemma parse_value_object (f : nat) (r : string) :
  parse_value (S f) (String "{" (String dquote r)) = parse_members f (String dquote r) [].
Proof. reflexivity. Qed.

Lemma parse_value_string (f : nat) (r : string) :
  parse_value (S f) (String dquote r) = map_parsed VString (parse_string_body r).
Proof. reflexivity. Qed.

Lemma parse_members_key (f : nat) (r : string) (acc : list (string * jsvalue)) :
  parse_members (S f) (String dquote r) acc =
  match parse_string_body r with
  | Parsed key r1 =>
      match skip_ws r1 with
      | String ":" r2 =>
          match parse_value f r2 with
          | Parsed v r3 =>
              match skip_ws r3 with
              | String "," r4 => parse_members f r4 (acc ++ [(key, v)])
              | String "}" r4 => Parsed (VObject (acc ++ [(key, v)])) r4
              | _ => SyntaxError
              end
          | SyntaxError => SyntaxError
          | Unmodelled => Unmodelled
          end
      | _ => SyntaxError
      end
  | SyntaxError => SyntaxError
  | Unmodelled => Unmodelled
  end.
Proof. reflexivity. Qed.

(** [JSON.parse(JSON.stringify({ filename, size }))] is the object again. *)
Lemma JSON_parse_stringify_metadata (name : string) (size : Z) :
  0 <= size <= 2 ^ 53 ->
  JSON_parse (JSON_stringify_metadata name size)
  = Parsed (VObject [("filename", VString name); ("size", VNumber size)]) "".
Proof.
  intros Hsize. unfold JSON_parse.
  set (digits := to_digits (N.size_nat (Z.to_N size)) (Z.to_N size) "}").
  assert (Hdigits : forall f, parse_value (S f) digits = Parsed (VNumber size) "}").
  { intros f. subst digits.
    destruct (to_digits_head (N.size_nat (Z.to_N size)) (Z.to_N size) "}"
                (N_size_fuel _)) as (dd & r & Hdd & _ & E).
    rewrite E, parse_value_digit by (now apply digit_char_is_digit). rewrite <- E.
    rewrite parse_number_to_digits; [|apply N_size_fuel| |reflexivity|reflexivity].
    - now rewrite Z2N.id by lia.
    - change (2 ^ 53)%N with (Z.to_N (2 ^ 53)). lia. }
  assert (Hlen : exists f, String.length (JSON_stringify_metadata name size) = S (S (S f))).
  { rewrite stringify_metadata_shape by lia. simpl String.length. eauto. }
  destruct Hlen as [f ->].
  rewrite stringify_metadata_shape by lia. fold digits.
  rewrite parse_value_object, parse_members_key, parse_string_body_escape.
  change (skip_ws (String ":" ?r)) with (String ":" r).
  cbv beta iota. rewrite parse_value_string, parse_string_body_escape.
  cbv beta iota delta [map_parsed].
  change (skip_ws (String "," ?r)) with (String "," r). cbv beta iota.
  rewrite parse_members_key, parse_string_body_escape.
  change (skip_ws (String ":" ?r)) with (String ":" r). cbv beta iota.
  rewrite Hdigits. reflexivity.
Qed.

(** ** UTF-8: the metadata text is well formed and decodes to itself *)

Lemma utf8_wf_start (lo hi lo' hi' : N) (s : string) :
  utf8_wf 0 lo hi s = utf8_wf 0 lo' hi' s.
Proof. destruct s; reflexivity. Qed.

Lemma escape_char_wf (c : ascii) (tail : string) (lo hi : N) :
  (N_of_ascii c <=? 127)%N = true ->
  utf8_wf 0 lo hi (escape_char c ++ tail) = utf8_wf 0 0x80 0xBF tail.
Proof.
  intros H.
  destruct c as [[] [] [] [] [] [] [] []];
    try (exfalso; vm_compute in H; discriminate H); reflexivity.
Qed.

Lemma escape_char_high (c : ascii) :
  (N_of_ascii c <=? 127)%N = false -> escape_char c = String c "".
Proof.
  intros H.
  destruct c as [[] [] [] [] [] [] [] []];
    try (exfalso; vm_compute in H; discriminate H); reflexivity.
Qed.

(** Escaping only touches ASCII characters, so it keeps a text well formed. *)
Lemma escape_string_wf (F : string) : forall (k : nat) (lo hi : N) (rest : string),
  (k <> 0%nat -> (0x80 <= lo)%N) ->
  utf8_wf k lo hi F = true ->
  utf8_wf k lo hi (escape_string F ++ rest) = utf8_wf 0 0x80 0xBF rest.
Proof.
  induction F as [|c F IH]; intros k lo hi rest Hlo Hwf.
  - simpl in *. destruct k; [apply utf8_wf_start | discriminate].
  - simpl escape_string. rewrite string_app_assoc.
    destruct (N_of_ascii c <=? 127)%N eqn:Hc.
    + destruct k as [|k].
      * rewrite escape_char_wf by exact Hc. apply IH; [lia|].
        simpl in Hwf. change 127%N with 0x7F%N in Hc. now rewrite Hc in Hwf.
      * exfalso. simpl in Hwf.
        destruct ((lo <=? N_of_ascii c) && (N_of_ascii c <=? hi))%N eqn:Hr; [|discriminate].
        apply andb_prop in Hr as [Hr _]. apply N.leb_le in Hr, Hc.
        specialize (Hlo ltac:(discriminate)). lia.
    + rewrite escape_char_high by exact Hc. simpl String.append.
      destruct k as [|k]; simpl in Hwf |- *.
      * repeat match type of Hwf with
               | context [if ?b then _ else _] => destruct b
               end; try discriminate; (apply IH; [intros _; lia | exact Hwf]).
      * destruct ((lo <=? N_of_ascii c) && (N_of_ascii c <=? hi))%N; [|discriminate].
        apply IH; [intros _; lia | exact Hwf].
Qed.

Lemma digits_wf (s : string) : forall (lo hi : N) (rest : string),
  all_digits s = true ->
  utf8_wf 0 lo hi (s ++ rest) = utf8_wf 0 0x80 0xBF rest.
Proof.
  induction s as [|c s IH]; intros lo hi rest H; simpl in *.
  - apply utf8_wf_start.
  - apply andb_prop in H as [Hc Hs].
    assert (Hlow : (N_of_ascii c <=? 0x7F)%N = true).
    { unfold is_digit in Hc. apply andb_prop in Hc as [_ Hc].
      apply N.leb_le in Hc. apply N.leb_le. lia. }
    rewrite Hlow. now apply IH.
Qed.

Lemma stringify_metadata_wf (name : string) (size : Z) :
  0 <= size -> well_formed name = true ->
  well_formed (JSON_stringify_metadata name size) = true.
Proof.
  intros Hsize Hname. unfold well_formed, JSON_stringify_metadata, QuoteJSONString.
  unfold Number_toString, N_toString. destruct (Z.ltb_spec size 0) as [?|_]; [lia|].
  simpl escape_string. simpl String.append.
  set (tail := (String dquote _)).
  cbn [utf8_wf N_of_ascii]. simpl.
  rewrite string_app_assoc.
  rewrite escape_string_wf; [|discriminate|exact Hname].
  subst tail. simpl. rewrite digits_wf by apply all_digits_to_digits. reflexivity.
Qed.

(** [fromString] and [TextDecoder] are inverse on the metadata text. *)
Lemma decode_metadata_text (name : string) (size : Z) :
  0 <= size -> well_formed name = true ->
  TextDecoder_decode (fromString (JSON_stringify_metadata name size))
  = Some (JSON_stringify_metadata name size).
Proof.
  intros Hsize Hname. unfold TextDecoder_decode, fromString.
  rewrite string_of_list_byte_of_string.
  pose proof (stringify_metadata_wf name size Hsize Hname) as Hwf.
  unfold JSON_stringify_metadata, QuoteJSONString in *.
  simpl escape_string in *. simpl String.append in *.
  set (tail := (escape_string name ++ _)%string) in *.
  cbn [N_of_ascii]. simpl. now rewrite Hwf.
Qed.

Local Open Scope list_scope.


(** ** The receive loop *)

Lemma with_transferred_twice (a b : Z) (e : FTP.t) :
  FTP.with_transferred a (FTP.with_transferred b e) = FTP.with_transferred a e.
Proof. reflexivity. Qed.

Lemma with_transferred_same (e : FTP.t) : FTP.with_transferred (FTP.transferred e) e = e.
Proof. now destruct e. Qed.

Lemma loop_events_entry (id : nat) (e : FTP.t) (w : bool) (total t : Z) (cs : list (list byte)) :
  forall remaining,
  loop_events id (FTP.with_transferred t e) w total remaining cs
  = loop_events id e w total remaining cs.
Proof. induction cs as [|c cs IH]; intros r; simpl; [reflexivity | now rewrite IH]. Qed.

Lemma total_length_cons (c : list byte) (cs : list (list byte)) :
  total_length (c :: cs) = Z.of_nat (length c) + total_length cs.
Proof. unfold total_length. simpl. rewrite length_app. lia. Qed.

Lemma receive_loop_run (fuel : nat) (env : environment) (id : nat) (total : Z) (w : bool) :
  forall (remaining : Z) (chunks : list (list byte)) (file : list byte) (k : nat)
         (s s' : state) (out : outcome (list (list byte) * list byte)) (e : FTP.t),
  receive_loop fuel env id total w remaining chunks file k s = (out, s') ->
  (length (inbound s) < fuel)%nat ->
  transfers s !! id = Some e ->
  FTP.transferred e = total - remaining ->
  exists (cs : list (list byte)) (tail : list event),
    trace s' = trace s ++ loop_events id e w total remaining cs ++ tail /\
    receivedFiles s' = receivedFiles s /\ uuids s' = uuids s /\ outbound s' = outbound s /\
    Forall (fun c => 0 < Z.of_nat (length c) <= CHUNK_SIZE) cs /\
    total_length cs <= Z.max 0 remaining /\
    transfers s'
      = <[id := FTP.with_transferred (total - (remaining - total_length cs)) e]> (transfers s) /\
    match out with
    | Return (chunks', file') =>
        tail = [] /\ total_length cs = Z.max 0 remaining /\
        inbound s = concat cs ++ inbound s' /\
        chunks' = chunks ++ (if w then [] else cs) /\
        file' = file ++ (if w then concat cs else [])
    | Throw err =>
        (exists n, tail = [EvRead n]) /\
        ((err = UnexpectedEOFError /\ Z.of_nat (length (inbound s)) < remaining) \/
         (err = StorageError /\ w = true /\ exists j, opfs_write_ok env j = false))
    | OutsideModel => False
    end.
Proof.
  induction fuel as [|f IH]; intros remaining chunks file k s s' out e Hrun Hfuel Hin Ht;
    [lia|].
  simpl in Hrun. destruct (Z.ltb_spec 0 remaining) as [Hpos|Hle].
  2:{ injection Hrun as <- <-. exists [], []. simpl. unfold total_length. simpl.
      rewrite !app_nil_r. repeat split; try easy; try lia.
      - rewrite Z.sub_0_r, <- Ht, with_transferred_same. now rewrite insert_id.
      - destruct w; now rewrite app_nil_r.
      - destruct w; now rewrite app_nil_r. }
  unfold bind at 1 in Hrun. unfold read in Hrun.
  set (n := Z.min remaining CHUNK_SIZE) in *.
  assert (Hn : 0 < n <= CHUNK_SIZE) by (unfold CHUNK_SIZE in *; lia).
  destruct (Z.ltb_spec (Z.of_nat (length (inbound s))) n) as [Heof|Henough].
  { injection Hrun as <- <-. exists [], [EvRead n]. simpl. unfold total_length. simpl.
    repeat split; try easy; try lia.
    - rewrite Z.sub_0_r, <- Ht, with_transferred_same. now rewrite insert_id.
    - eauto. - left. split; [reflexivity | lia]. }
  set (chunk := take (Z.to_nat n) (inbound s)) in *.
  assert (Hchunk : Z.of_nat (length chunk) = n).
  { subst chunk. rewrite length_take. lia. }
  set (s1 := set_inbound _ _) in Hrun.
  set (store := if w then _ else _) in Hrun.
  assert (Hstore :
    store s1 = (Return (chunks ++ (if w then [] else [chunk]),
                        file ++ (if w then chunk else [])), log (EvSpool w chunk) s1)
    \/ (w = true /\ opfs_write_ok env k = false /\ store s1 = (Throw StorageError, s1))).
  { subst store. destruct w.
    - unfold writable_write, bind, modify, ret, throw.
      destruct (opfs_write_ok env k); [left|right]; now rewrite ?app_nil_r.
    - left. unfold chunks_push, bind, modify, ret. now rewrite app_nil_r. }
  unfold bind at 1 in Hrun.
  destruct Hstore as [Hs|(-> & Hfail & Hs)]; rewrite Hs in Hrun; clear Hs store.
  2:{ injection Hrun as <- <-. exists [], [EvRead n]. simpl. unfold total_length. simpl.
      repeat split; try easy; try lia.
      - rewrite Z.sub_0_r, <- Ht, with_transferred_same. now rewrite insert_id.
      - eauto. - right. eauto. }
  unfold bind at 1 in Hrun. unfold transfers_update in Hrun. simpl in Hrun.
  rewrite Hin in Hrun.
  set (e' := FTP.with_transferred (total - (remaining - Z.of_nat (length chunk))) e) in *.
  apply IH with (e := e') in Hrun;
    [|simpl; rewrite length_drop; lia|simpl; apply lookup_insert_eq|reflexivity].
  destruct Hrun as (cs & tail & Htr & Hrf & Hu & Ho & Hall & Hsum & Hmap & Hout).
  exists (chunk :: cs), tail. simpl in Htr, Hrf, Hu, Ho, Hmap.
  rewrite total_length_cons.
  split; [|split; [exact Hrf|split; [exact Hu|split; [exact Ho|split; [|split; [|split]]]]]].
  - rewrite Htr. subst e'. rewrite loop_events_entry. simpl. fold n.
    now rewrite <- !app_assoc.
  - constructor; [lia | exact Hall].
  - lia.
  - rewrite Hmap, insert_insert_eq. f_equal. subst e'.
    rewrite with_transferred_twice. f_equal. lia.
  - destruct out as [[chunks' file']| err |]; [| |exact Hout].
    2:{ destruct Hout as [Htail [[-> Hshort]|Hst]]; (split; [exact Htail|]); [left|now right].
        split; [reflexivity|]. simpl in Hshort. rewrite length_drop in Hshort. lia. }
    destruct Hout as (-> & Hlen & Hinb & -> & ->).
    split; [reflexivity|]. split; [lia|]. split; [|split].
    + simpl. rewrite <- app_assoc, <- Hinb. subst chunk s1. simpl.
      now rewrite take_drop.
    + rewrite <- app_assoc. now destruct w.
    + rewrite <- app_assoc. now destruct w.
Qed.

(** ** Steps of the receiver on a stream that starts with given bytes *)

Lemma read_prefix (n : Z) (a b : list byte) (s : state) :
  Z.of_nat (length a) = n -> inbound s = a ++ b ->
  read n s = (Return a, set_inbound b (log (EvRead n) s)).
Proof.
  intros <- Hs. unfold read. rewrite Hs, length_app.
  destruct (Z.ltb_spec (Z.of_nat (length a + length b)) (Z.of_nat (length a))); [lia|].
  rewrite Nat2Z.id, take_app_length, drop_app_length. reflexivity.
Qed.

Lemma read_short (n : Z) (s : state) :
  Z.of_nat (length (inbound s)) < n ->
  read n s = (Throw UnexpectedEOFError, log (EvRead n) s).
Proof.
  intros H. unfold read. now destruct (Z.ltb_spec (Z.of_nat (length (inbound s))) n); [|lia].
Qed.

Lemma handleIncomingTransfer_unfold (env : environment) (stream : list byte) (s : state) :
  handleIncomingTransfer env stream s =
  let id := uuids s in
  match receive_body env id (set_uuids (S id) (set_inbound stream s)) with
  | (Throw err, s1) =>
      (Return tt,
       log (EvRegistry id (error_entry id err))
         (set_transfers (<[id := error_entry id err]> (transfers s1)) s1))
  | r => r
  end.
Proof. reflexivity. Qed.

Lemma bind_return {A B} (m : M A) (k : A -> M B) (s s1 : state) (a : A) :
  m s = (Return a, s1) -> bind m k s = k a s1.
Proof. intros H. unfold bind. now rewrite H. Qed.

Lemma bind_throw {A B} (m : M A) (k : A -> M B) (s s1 : state) (e : exn) :
  m s = (Throw e, s1) -> bind m k s = (Throw e, s1).
Proof. intros H. unfold bind. now rewrite H. Qed.

(** A stream that carries a header the receiver accepts and as many payload
    bytes as the header declares is received in full: the chunks read are
    the payload, the file is published and the stream is closed. *)
Lemma receive_well_formed (env : environment) (s : state)
    (lenBuf metaBytes payload extra : list byte) (text rest : string)
    (v fname sz : jsvalue) (num : number) :
  length lenBuf = 4%nat ->
  getUint32 lenBuf = Z.of_nat (length metaBytes) ->
  Z.of_nat (length metaBytes) <= 10000 ->
  TextDecoder_decode metaBytes = Some text ->
  JSON_parse text = Parsed v rest ->
  get_property v "filename" = ret fname ->
  get_property v "size" = ret sz ->
  ToNumber sz = Some num ->
  Z.of_nat (length payload) = Z.max 0 (declared_total num) ->
  (opfs_available env = true ->
     (forall k, opfs_write_ok env k = true) /\ opfs_close_ok env = true) ->
  let id := uuids s in
  let e0 := start_entry id fname sz in
  let done := FTP.with_status completed
                (FTP.with_transferred (Z.of_nat (length payload)) e0) in
  exists (cs : list (list byte)) (s' : state),
    handleIncomingTransfer env (lenBuf ++ metaBytes ++ payload ++ extra) s = (Return tt, s') /\
    concat cs = payload /\
    Forall (fun c => 0 < Z.of_nat (length c) <= CHUNK_SIZE) cs /\
    trace s' = trace s
      ++ [EvRead 4; EvRead (Z.of_nat (length metaBytes)); EvRegistry id e0;
          EvAcquire (opfs_available env)]
      ++ loop_events id e0 (opfs_available env) (declared_total num) (declared_total num) cs
      ++ [EvRegistry id done; EvClose]
      ++ (if stream_close_ok env then [] else [EvRegistry id (error_entry id StreamError)]) /\
    receivedFiles s' = receivedFiles s
      ++ [{| ReceivedFile.filename := fname; ReceivedFile.blob := payload |}] /\
    transfers s' = <[id := if stream_close_ok env then done else error_entry id StreamError]>
                     (transfers s) /\
    inbound s' = extra /\ uuids s' = S (uuids s) /\ outbound s' = outbound s.
Proof.
  intros Hlen4 HL Hmax Hdec Hparse Hfn Hsz Hnum Hpay Hopfs id e0 done.
  rewrite handleIncomingTransfer_unfold. cbv zeta. fold id.
  set (s0 := set_uuids (S id) (set_inbound _ s)).
  unfold receive_body.
  erewrite bind_return; [|apply read_prefix; [now rewrite Hlen4|reflexivity]].
  rewrite HL. destruct (Z.ltb_spec 10000 (Z.of_nat (length metaBytes))) as [?|_]; [lia|].
  erewrite bind_return; [|apply read_prefix; [reflexivity|reflexivity]].
  erewrite bind_return; [|unfold parse_metadata; rewrite Hdec, Hparse; reflexivity].
  rewrite Hfn, Hsz.
  erewrite bind_return; [|reflexivity]. erewrite bind_return; [|reflexivity].
  erewrite bind_return; [|reflexivity]. erewrite bind_return; [|reflexivity].
  fold e0. rewrite Hnum.
  set (s3 := log (EvAcquire _) _).
  set (a := opfs_available env) in *.
  assert (Hloop : exists cs s4,
    (fun s1 : state =>
       match num with
       | NaN => ret ([], []) s1
       | Num total =>
           receive_loop (S (length (inbound s1))) env id total a total [] [] 0 s1
       end) s3
    = (Return (if a then [] else cs, if a then concat cs else []), s4) /\
    concat cs = payload /\
    Forall (fun c => 0 < Z.of_nat (length c) <= CHUNK_SIZE) cs /\
    trace s4 = trace s3 ++ loop_events id e0 a (declared_total num) (declared_total num) cs /\
    transfers s4 = <[id := FTP.with_transferred (Z.of_nat (length payload)) e0]> (transfers s3) /\
    inbound s4 = extra /\ receivedFiles s4 = receivedFiles s3 /\
    uuids s4 = uuids s3 /\ outbound s4 = outbound s3).
  { destruct num as [|total]; simpl in Hpay.
    - exists [], s3. destruct payload; [|discriminate]. simpl.
      rewrite app_nil_r. repeat split; try easy; [now destruct a|].
      subst s3. simpl. now rewrite insert_insert_eq.
    - destruct (receive_loop (S (length (inbound s3))) env id total a total [] [] 0 s3)
        as [out s4] eqn:E.
      apply receive_loop_run with (e := e0) in E;
        [|lia|subst s3; simpl; apply lookup_insert_eq|simpl; lia].
      destruct E as (cs & tail & Htr & Hrf & Hu & Ho & Hall & _ & Hmap & Hout).
      destruct out as [[chunks' file']|err|]; [| |contradiction].
      2:{ exfalso. destruct Hout as [_ [[_ Hshort]|(_ & Ha & j & Hj)]].
          - subst s3. simpl in Hshort. rewrite length_app in Hshort. lia.
          - destruct (Hopfs Ha) as [Hw _]. rewrite Hw in Hj. discriminate. }
      destruct Hout as (-> & Hsum & Hinb & -> & ->).
      assert (Hcs : concat cs = payload /\ inbound s4 = extra).
      { subst s3. simpl in Hinb. apply app_inj_1 in Hinb as [<- <-]; [easy|].
        unfold total_length in Hsum. lia. }
      destruct Hcs as [Hcs Hex].
      exists cs, s4. simpl. rewrite app_nil_r in Htr.
      repeat split; try easy.
      rewrite Hmap. do 2 f_equal. unfold total_length in *. rewrite <- Hcs. lia. }
  destruct Hloop as (cs & s4 & Hl & Hcs & Hall & Htr & Hmap & Hinb & Hrf & Hu & Ho).
  erewrite bind_return; [|exact Hl]. clear Hl.
  assert (Hfinal :
    (if a then writable_close env;; ret (if a then concat cs else [])
     else ret (concat (if a then [] else cs))) s4 = (Return payload, s4)).
  { destruct a eqn:Ha.
    - destruct (Hopfs eq_refl) as [_ Hc]. unfold writable_close, bind. rewrite Hc.
      now rewrite Hcs.
    - now rewrite Hcs. }
  cbn [fst snd]. erewrite bind_return; [|exact Hfinal]. clear Hfinal.
  unfold transfers_update_required, transfers_update.
  unfold bind at 1. unfold bind at 1. rewrite Hmap, lookup_insert_eq. fold done.
  unfold bind at 1. cbn [modify ret]. unfold stream_close.
  exists cs. destruct (stream_close_ok env); eexists; (split; [reflexivity|]); simpl;
    rewrite ?Htr, ?Hrf, ?Hu, ?Ho, ?Hinb, ?insert_insert_eq; subst s3; simpl;
    rewrite ?insert_insert_eq, <- ?app_assoc; simpl; repeat split; try easy.
Qed.

(** ** The send loop *)

Lemma send_events_entry (id : nat) (e : FTP.t) (t : Z) (cs : list (list byte)) :
  forall offset,
  send_events id (FTP.with_transferred t e) offset cs = send_events id e offset cs.
Proof. induction cs as [|c cs IH]; intros o; simpl; [reflexivity | now rewrite IH]. Qed.

Lemma slice_length (file : File.t) (offset : Z) :
  0 <= offset < File.size file ->
  Z.of_nat (length (File.slice file offset (offset + CHUNK_SIZE)))
  = Z.min CHUNK_SIZE (File.size file - offset).
Proof.
  intros H. unfold File.slice, File.size, CHUNK_SIZE in *.
  rewrite length_take, length_drop. lia.
Qed.

Lemma send_loop_run (fuel : nat) (env : environment) (id : nat) (file : File.t) :
  forall (offset : Z) (s s' : state) (out : outcome unit) (e : FTP.t),
  send_loop fuel env id file offset s = (out, s') ->
  File.size file - offset <= Z.of_nat fuel ->
  0 <= offset <= File.size file ->
  transfers s !! id = Some e ->
  FTP.transferred e = offset ->
  exists cs : list (list byte),
    outbound s' = outbound s ++ cs /\
    trace s' = trace s ++ send_events id e offset cs /\
    transfers s' = <[id := FTP.with_transferred (offset + total_length cs) e]> (transfers s) /\
    receivedFiles s' = receivedFiles s /\ uuids s' = uuids s /\ inbound s' = inbound s /\
    Forall (fun c => 0 < Z.of_nat (length c) <= CHUNK_SIZE) cs /\
    concat cs = take (Z.to_nat (total_length cs)) (drop (Z.to_nat offset) (File.content file)) /\
    offset + total_length cs <= File.size file /\
    match out with
    | Return _ => offset + total_length cs = File.size file
    | Throw err => err = StreamError /\ exists j, stream_write_ok env j = false
    | OutsideModel => False
    end.
Proof.
  induction fuel as [|f IH]; intros offset s s' out e Hrun Hfuel Hoff Hin Ht.
  - simpl in Hrun. destruct (Z.ltb_spec offset (File.size file)); [lia|].
    injection Hrun as <- <-. exists []. unfold total_length. simpl.
    rewrite !app_nil_r, Z.add_0_r, <- Ht, with_transferred_same, insert_id by exact Hin.
    repeat split; try easy; lia.
  - simpl in Hrun. destruct (Z.ltb_spec offset (File.size file)) as [Hlt|Hge].
    2:{ injection Hrun as <- <-. exists []. unfold total_length. simpl.
        rewrite !app_nil_r, Z.add_0_r, <- Ht, with_transferred_same, insert_id by exact Hin.
        repeat split; try easy; lia. }
    set (chunk := File.slice file offset (offset + CHUNK_SIZE)) in *.
    assert (Hchunk := slice_length file offset ltac:(lia)). fold chunk in Hchunk.
    unfold bind at 1 in Hrun. unfold write in Hrun.
    destruct (stream_write_ok env (length (outbound s))) eqn:Hw.
    2:{ injection Hrun as <- <-. exists []. unfold total_length. simpl.
        rewrite !app_nil_r, Z.add_0_r, <- Ht, with_transferred_same, insert_id by exact Hin.
        repeat split; try easy; try lia. eauto. }
    unfold bind at 1 in Hrun. unfold transfers_update in Hrun. simpl in Hrun.
    rewrite Hin in Hrun.
    set (e' := FTP.with_transferred (offset + Z.of_nat (length chunk)) e) in *.
    apply IH with (e := e') in Hrun;
      [|unfold CHUNK_SIZE in *; lia|unfold CHUNK_SIZE in *; lia
       |simpl; apply lookup_insert_eq|reflexivity].
    destruct Hrun as (cs & Hob & Htr & Hmap & Hrf & Hu & Hinb & Hall & Hcat & Hle & Hout).
    exists (chunk :: cs). simpl in Hob, Htr, Hmap, Hrf, Hu, Hinb.
    rewrite total_length_cons.
    split; [now rewrite Hob, <- app_assoc|].
    split; [rewrite Htr; subst e'; rewrite send_events_entry; simpl; now rewrite <- app_assoc|].
    split; [rewrite Hmap, insert_insert_eq; subst e'; rewrite with_transferred_twice;
            do 2 f_equal; lia|].
    split; [exact Hrf|]. split; [exact Hu|]. split; [exact Hinb|].
    split; [constructor; [unfold CHUNK_SIZE in *; lia|exact Hall]|].
    split; [|split; [lia|]].
    + simpl. rewrite Hcat.
      set (l := drop (Z.to_nat offset) (File.content file)).
      assert (Hk : chunk = take (length chunk) l).
      { subst chunk. unfold File.slice. fold l.
        replace (Z.to_nat (offset + CHUNK_SIZE - offset)) with (Z.to_nat CHUNK_SIZE) by lia.
        rewrite length_take.
        destruct (Nat.le_gt_cases (Z.to_nat CHUNK_SIZE) (length l)).
        - now rewrite Nat.min_l.
        - rewrite Nat.min_r, !take_ge by lia. reflexivity. }
      replace (Z.to_nat (offset + Z.of_nat (length chunk)))
        with (Z.to_nat offset + length chunk)%nat by lia.
      rewrite <- drop_drop. fold l.
      replace (Z.to_nat (Z.of_nat (length chunk) + total_length cs))
        with (length chunk + Z.to_nat (total_length cs))%nat
        by (unfold total_length; lia).
      rewrite <- take_take_drop. now rewrite <- Hk.
    + destruct out; [lia|exact Hout|exact Hout].
Qed.

(** ** Every run of the receiver *)

(** What [receive_body] can do from a state [s0]: throw before the entry is
    recorded, throw while spooling or finalising, throw from the final
    [stream.close()], or return. *)
Lemma receive_body_run (env : environment) (id : nat) (s0 s1 : state) (o : outcome unit) :
  receive_body env id s0 = (o, s1) ->
  o <> OutsideModel ->
  uuids s1 = uuids s0 /\ outbound s1 = outbound s0 /\
  ((exists rs err,
      o = Throw err /\ (rs = [4] \/ (exists L, rs = [4; L])) /\
      trace s1 = trace s0 ++ map EvRead rs /\
      transfers s1 = transfers s0 /\ receivedFiles s1 = receivedFiles s0)
   \/
   (exists L fname sz num cs tail err last,
      o = Throw err /\ ToNumber sz = Some num /\
      spooled_chunks (declared_total num) cs /\
      (tail = [] \/ (exists n, tail = [EvRead n])) /\
      trace s1 = trace s0
        ++ [EvRead 4; EvRead L; EvRegistry id (start_entry id fname sz);
            EvAcquire (opfs_available env)]
        ++ loop_events id (start_entry id fname sz) (opfs_available env)
             (declared_total num) (declared_total num) cs
        ++ tail /\
      transfers s1 = <[id := last]> (transfers s0) /\
      receivedFiles s1 = receivedFiles s0)
   \/
   (exists L fname sz num cs,
      let done := FTP.with_status completed
                    (FTP.with_transferred (total_length cs) (start_entry id fname sz)) in
      (o = Return tt /\ stream_close_ok env = true \/
       o = Throw StreamError /\ stream_close_ok env = false) /\
      ToNumber sz = Some num /\
      spooled_chunks (declared_total num) cs /\
      total_length cs = Z.max 0 (declared_total num) /\
      trace s1 = trace s0
        ++ [EvRead 4; EvRead L; EvRegistry id (start_entry id fname sz);
            EvAcquire (opfs_available env)]
        ++ loop_events id (start_entry id fname sz) (opfs_available env)
             (declared_total num) (declared_total num) cs
        ++ [EvRegistry id done; EvClose] /\
      transfers s1 = <[id := done]> (transfers s0) /\
      receivedFiles s1 = receivedFiles s0
        ++ [{| ReceivedFile.filename := fname; ReceivedFile.blob := concat cs |}])).
Proof.
  intros E Hmodel. unfold receive_body in E.
  (* the length prefix *)
  unfold bind at 1 in E. unfold read at 1 in E.
  destruct (Z.ltb_spec (Z.of_nat (length (inbound s0))) 4) as [Hshort|_].
  { injection E as <- <-. simpl. do 2 (split; [reflexivity|]). left.
    exists [4], UnexpectedEOFError. repeat split; auto. }
  set (L := getUint32 _) in E. set (sa := set_inbound _ (log (EvRead 4) s0)) in E.
  destruct (Z.ltb_spec 10000 L) as [Hbig|_].
  { injection E as <- <-. simpl. do 2 (split; [reflexivity|]). left.
    eexists [4], _. repeat split; auto. }
  (* the metadata *)
  unfold bind at 1 in E. unfold read at 1 in E.
  destruct (Z.ltb_spec (Z.of_nat (length (inbound sa))) L) as [Hshort|_].
  { injection E as <- <-. simpl. do 2 (split; [reflexivity|]). left.
    exists [4; L], UnexpectedEOFError. repeat split; eauto. now rewrite <- app_assoc. }
  set (metaBytes := take _ _) in E. set (sb := set_inbound _ (log (EvRead L) sa)) in E.
  assert (Hsb : trace sb = trace s0 ++ map EvRead [4; L] /\ transfers sb = transfers s0 /\
                receivedFiles sb = receivedFiles s0 /\ uuids sb = uuids s0 /\
                outbound sb = outbound s0).
  { subst sb sa. simpl. now rewrite <- app_assoc. }
  destruct Hsb as (Htb & Hmb & Hrb & Hub & Hob). clearbody sb.
  unfold bind at 1 in E. unfold parse_metadata at 1 in E.
  destruct (TextDecoder_decode metaBytes) as [text|];
    [|injection E as <- <-; now contradiction Hmodel].
  destruct (JSON_parse text) as [v rest| |];
    [| |injection E as <- <-; now contradiction Hmodel].
  2:{ injection E as <- <-. do 2 (split; [assumption|]). left.
      exists [4; L], JsSyntaxError. repeat split; eauto. }
  cbn [ret] in E.
  assert (Hprop : forall key,
    get_property v key = throw JsTypeError \/ exists x, get_property v key = ret x).
  { intros key. destruct v; simpl; eauto. }
  unfold bind at 1 in E.
  destruct (Hprop "filename") as [Hf|[fname Hf]]; rewrite Hf in E.
  { injection E as <- <-. do 2 (split; [assumption|]). left.
    exists [4; L], JsTypeError. repeat split; eauto. }
  cbn [ret] in E. unfold bind at 1 in E.
  destruct (Hprop "size") as [Hs|[sz Hs]]; rewrite Hs in E.
  { injection E as <- <-. do 2 (split; [assumption|]). left.
    exists [4; L], JsTypeError. repeat split; eauto. }
  cbn [ret] in E. clear Hprop Hf Hs.
  (* the entry and the spool *)
  unfold bind at 1 in E. cbn [transfers_set modify] in E.
  unfold bind at 1 in E. unfold acquire_writable at 1 in E.
  unfold bind at 1 in E. cbn [modify ret] in E.
  change {| FTP.id := id; FTP.filename := fname; FTP.size := sz; FTP.transferred := 0;
            FTP.status := transferring; FTP.direction := receive; FTP.error := None |}
    with (start_entry id fname sz) in E.
  set (e0 := start_entry id fname sz) in *.
  set (a := opfs_available env) in *.
  set (sc := log (EvAcquire a) _) in E.
  assert (Hsc : trace sc = trace s0 ++ [EvRead 4; EvRead L; EvRegistry id e0; EvAcquire a] /\
                transfers sc = <[id := e0]> (transfers s0) /\
                receivedFiles sc = receivedFiles s0 /\ uuids sc = uuids s0 /\
                outbound sc = outbound s0).
  { subst sc. simpl. rewrite Htb, Hmb, Hrb, Hub, Hob. simpl.
    now rewrite <- !app_assoc. }
  clearbody sc. clear Htb Hmb Hrb Hub Hob sb.
  destruct Hsc as (Htc & Hmc & Hrc & Huc & Hoc).
  unfold bind at 1 in E.
  destruct (ToNumber sz) as [num|] eqn:Hnum;
    [|injection E as <- <-; now contradiction Hmodel].
  assert (Hloop : exists out sd,
    match num with
    | NaN => ret ([], []) sc
    | Num total => receive_loop (S (length (inbound sc))) env id total a total [] [] 0 sc
    end = (out, sd) /\
    uuids sd = uuids s0 /\ outbound sd = outbound s0 /\ receivedFiles sd = receivedFiles s0 /\
    exists cs tail,
      spooled_chunks (declared_total num) cs /\
      trace sd = trace sc
        ++ loop_events id e0 a (declared_total num) (declared_total num) cs ++ tail /\
      transfers sd = <[id := FTP.with_transferred (total_length cs) e0]> (transfers s0) /\
      match out with
      | Return (chunks', file') =>
          tail = [] /\ total_length cs = Z.max 0 (declared_total num) /\
          chunks' = (if a then [] else cs) /\ file' = (if a then concat cs else [])
      | Throw _ => exists n, tail = [EvRead n]
      | OutsideModel => False
      end).
  { destruct num as [|total].
    - exists (Return ([], [])), sc. split; [reflexivity|].
      split; [assumption|]. split; [assumption|]. split; [assumption|].
      exists [], []. simpl. rewrite app_nil_r. unfold spooled_chunks, total_length. simpl.
      repeat split; try easy; try lia; now destruct a.
    - destruct (receive_loop (S (length (inbound sc))) env id total a total [] [] 0 sc)
        as [out sd] eqn:El.
      exists out, sd. split; [reflexivity|].
      apply receive_loop_run with (e := e0) in El;
        [|lia|rewrite Hmc; apply lookup_insert_eq|simpl; lia].
      destruct El as (cs & tail & Htr & Hrf & Hu & Ho & Hall & Hsum & Hmap & Hout).
      split; [congruence|]. split; [congruence|]. split; [congruence|].
      exists cs, tail. simpl. split; [split; assumption|]. split; [exact Htr|].
      split; [rewrite Hmap, Hmc, insert_insert_eq; do 2 f_equal; lia|].
      destruct out as [[chunks' file']|err|]; [| |exact Hout].
      + destruct Hout as (-> & Hs & _ & -> & ->). simpl. auto.
      + now destruct Hout. }
  cbv beta iota in E.
  destruct Hloop as (out & sd & Hl & Hud & Hod & Hrd & cs & tail & Hsp & Htd & Hmd & Hout).
  rewrite Hl in E. clear Hl.
  rewrite Htc, <- app_assoc in Htd.
  destruct out as [[chunks' file']|err|]; [| |contradiction].
  2:{ injection E as <- <-. do 2 (split; [assumption|]). right; left.
      exists L, fname, sz, num, cs, tail, err, (FTP.with_transferred (total_length cs) e0).
      split; [reflexivity|]. split; [exact Hnum|]. split; [exact Hsp|].
      split; [now right|]. split; [exact Htd|]. split; [exact Hmd|exact Hrd]. }
  destruct Hout as (-> & Hsum & -> & ->). rewrite app_nil_r in Htd. cbn [fst snd] in E.
  (* finalisation *)
  unfold bind at 1 in E.
  assert (Hfin :
    (if a then writable_close env;; ret (if a then concat cs else [])
     else ret (concat (if a then [] else cs))) sd = (Return (concat cs), sd)
    \/ (if a then writable_close env;; ret (if a then concat cs else [])
        else ret (concat (if a then [] else cs))) sd = (Throw StorageError, sd)).
  { destruct a; [|now left]. unfold writable_close, bind.
    destruct (opfs_close_ok env); [now left|now right]. }
  destruct Hfin as [Hfin|Hfin]; rewrite Hfin in E; clear Hfin.
  2:{ injection E as <- <-. do 2 (split; [assumption|]). right; left.
      exists L, fname, sz, num, cs, [], StorageError,
        (FTP.with_transferred (total_length cs) e0).
      rewrite app_nil_r.
      split; [reflexivity|]. split; [exact Hnum|]. split; [exact Hsp|].
      split; [now left|]. split; [exact Htd|]. split; [exact Hmd|exact Hrd]. }
  unfold transfers_update_required, transfers_update in E.
  unfold bind at 1 in E. unfold bind at 1 in E.
  rewrite Hmd, lookup_insert_eq in E.
  unfold bind at 1 in E. cbn [modify ret] in E. unfold stream_close in E.
  do 2 (split; [destruct (stream_close_ok env); injection E as <- <-; simpl; assumption|]).
  right; right. exists L, fname, sz, num, cs. cbv zeta. fold e0.
  destruct (stream_close_ok env); injection E as <- <-; simpl;
    rewrite Htd, Hrd, insert_insert_eq, <- !app_assoc; simpl;
    (split; [auto|]); (split; [exact Hnum|]); (split; [exact Hsp|]);
    (split; [exact Hsum|]); auto.
Qed.

Lemma handleIncomingTransfer_run (env : environment) (stream : list byte)
    (s s' : state) (out : outcome unit) :
  handleIncomingTransfer env stream s = (out, s') ->
  out <> OutsideModel ->
  out = Return tt /\ uuids s' = S (uuids s) /\ outbound s' = outbound s /\
  exists new final published,
    trace s' = trace s ++ new /\
    receiver_run (uuids s) (opfs_available env) (stream_close_ok env) new final published /\
    transfers s' = <[uuids s := final]> (transfers s) /\
    receivedFiles s' = receivedFiles s ++ published.
Proof.
  rewrite handleIncomingTransfer_unfold. cbv zeta.
  set (id := uuids s). set (s0 := set_uuids (S id) (set_inbound stream s)).
  destruct (receive_body env id s0) as [o s1] eqn:E. intros Hrun Hmodel.
  assert (Ho : o <> OutsideModel).
  { intros ->. injection Hrun as <- <-. now apply Hmodel. }
  destruct (receive_body_run env id s0 s1 o E Ho) as (Hu & Hob & Hcases).
  change (uuids s0) with (S id) in Hu. change (outbound s0) with (outbound s) in Hob.
  destruct Hcases as
    [(rs & err & -> & Hrs & Htr & Hmap & Hrf)
    |[(L & fname & sz & num & cs & tail & err & last & -> & Hnum & Hsp & Htail & Htr & Hmap & Hrf)
     |(L & fname & sz & num & cs & Hres & Hnum & Hsp & Hsum & Htr & Hmap & Hrf)]];
    change (trace s0) with (trace s) in Htr;
    change (transfers s0) with (transfers s) in Hmap;
    change (receivedFiles s0) with (receivedFiles s) in Hrf.
  - injection Hrun as <- <-. simpl. rewrite Htr, Hmap, Hrf, Hu, Hob.
    do 3 (split; [reflexivity|]).
    exists (map EvRead rs ++ [EvRegistry id (error_entry id err)]), (error_entry id err), [].
    rewrite app_nil_r, <- app_assoc.
    split; [reflexivity|]. split; [now constructor|]. split; reflexivity.
  - injection Hrun as <- <-. simpl. rewrite Htr, Hmap, Hrf, Hu, Hob, insert_insert_eq.
    do 3 (split; [reflexivity|]).
    eexists _, (error_entry id err), [].
    split; [|split; [now apply (recv_spool_failed id _ _ L fname sz num cs tail err)|]].
    + now rewrite <- !app_assoc.
    + now rewrite app_nil_r.
  - cbv zeta in Hres, Htr, Hmap.
    pose proof (recv_completed id (opfs_available env) (stream_close_ok env)
                  L fname sz num cs Hnum Hsp Hsum) as Hrc. cbv zeta in Hrc.
    destruct Hres as [[-> Hc]|[-> Hc]]; rewrite Hc in Hrc |- *; injection Hrun as <- <-.
    + rewrite Hu, Hob. do 3 (split; [reflexivity|]).
      eexists _, _, _. split; [|split; [exact Hrc|split; [exact Hmap|exact Hrf]]].
      rewrite Htr, app_nil_r. reflexivity.
    + simpl. rewrite Hu, Hob, Htr, Hmap, Hrf, insert_insert_eq.
      do 3 (split; [reflexivity|]).
      eexists _, _, _. split; [|split; [exact Hrc|split; reflexivity]].
      now rewrite <- !app_assoc.
Qed.

(** ** Every run of the sender *)

Lemma sendFile_run (env : environment) (file : File.t) (peerId : string)
    (s s' : state) (out : outcome unit) :
  sendFile env file peerId s = (out, s') ->
  (node_ready env = false /\ out = Throw (JsError "Node not initialized") /\ s' = s) \/
  (node_ready env = true /\ uuids s' = S (uuids s) /\
   receivedFiles s' = receivedFiles s /\ inbound s' = inbound s /\
   exists new final,
     trace s' = trace s ++ new /\
     sender_run (uuids s) file new out final /\
     transfers s' = <[uuids s := final]> (transfers s)).
Proof.
  unfold sendFile. destruct (node_ready env); [|intros [= <- <-]; now left].
  intros E. right. split; [reflexivity|].
  set (id := uuids s) in *. set (p := pending_entry id file).
  unfold bind at 1 in E. cbn [randomUUID] in E. fold id in E.
  unfold bind at 1 in E. cbn [transfers_set modify] in E.
  change {| FTP.id := id; FTP.filename := VString (File.name file);
            FTP.size := VNumber (File.size file); FTP.transferred := 0;
            FTP.status := pending; FTP.direction := send; FTP.error := None |}
    with p in E.
  set (s0 := log (EvRegistry id p) _) in E.
  assert (Hs0 : trace s0 = trace s ++ [EvRegistry id p] /\
                transfers s0 = <[id := p]> (transfers s) /\
                receivedFiles s0 = receivedFiles s /\ uuids s0 = S id /\
                inbound s0 = inbound s) by (subst s0; now simpl).
  destruct Hs0 as (Ht0 & Hm0 & Hr0 & Hu0 & Hi0). clearbody s0.
  unfold try_catch in E.
  destruct (send_body env id file peerId s0) as [o s1] eqn:B.
  assert (Hcatch : forall err last,
    o = Throw err -> transfers s1 = <[id := last]> (transfers s) ->
    out = Throw err /\
    trace s' = trace s1 ++ [EvRegistry id (failed err last)] /\
    transfers s' = <[id := failed err last]> (transfers s) /\
    receivedFiles s' = receivedFiles s1 /\ uuids s' = uuids s1 /\ inbound s' = inbound s1).
  { intros err last -> Hm. unfold bind, transfers_update in E.
    rewrite Hm, lookup_insert_eq in E. injection E as <- <-. simpl.
    now rewrite insert_insert_eq. }
  unfold send_body in B.
  destruct (List.filter _ (connections env)) as [|first others] eqn:Hconns.
  { injection B as <- <-.
    destruct (Hcatch _ p eq_refl Hm0) as (-> & Htr & Hmap & Hrf & Hu & Hi).
    rewrite Hu, Hrf, Hi. do 3 (split; [assumption|]).
    eexists _, _. split; [|split; [apply send_not_connected|exact Hmap]].
    rewrite Htr, Ht0, <- app_assoc. reflexivity. }
  set (peerConn := match List.find is_webrtc _ with Some c => c | None => first end) in B.
  unfold bind at 1 in B. unfold dialProtocol in B. unfold bind at 1 in B.
  cbn [modify] in B.
  destruct (dial_ok env).
  2:{ injection B as <- <-.
      destruct (Hcatch _ p eq_refl) as (-> & Htr & Hmap & Hrf & Hu & Hi); [exact Hm0|].
      rewrite Hu, Hrf, Hi. simpl. do 3 (split; [assumption|]).
      eexists _, _.
      split; [|split; [apply (send_dial_failed id file (remoteAddr peerConn))|exact Hmap]].
      rewrite Htr. simpl. rewrite Ht0, <- !app_assoc. reflexivity. }
  cbn [ret] in B.
  unfold transfers_update_required at 1, transfers_update in B.
  unfold bind at 1 in B. unfold bind at 1 in B.
  simpl transfers in B. rewrite Hm0, lookup_insert_eq in B.
  set (t0 := FTP.with_status transferring p) in *.
  set (sa := log (EvRegistry id t0) _) in B.
  assert (Hsa : trace sa = trace s ++ [EvRegistry id p; EvDial (remoteAddr peerConn);
                                        EvRegistry id t0] /\
                transfers sa = <[id := t0]> (transfers s) /\
                receivedFiles sa = receivedFiles s /\ uuids sa = S id /\
                inbound sa = inbound s).
  { subst sa. simpl. rewrite Ht0, ?Hm0, Hr0, Hu0, Hi0, insert_insert_eq, <- !app_assoc.
    now simpl. }
  destruct Hsa as (Hta & Hma & Hra & Hua & Hia). clearbody sa.
  clear Ht0 Hm0 Hr0 Hu0 Hi0 s0.
  assert (Hint : forall sb cs closing,
    o = Throw StreamError -> s1 = sb ->
    sent_chunks file cs ->
    closing = [] \/ (closing = [EvClose] /\ total_length cs = File.size file) ->
    trace sb = trace sa ++ send_events id t0 0 cs ++ closing ->
    transfers sb = <[id := FTP.with_transferred (total_length cs) t0]> (transfers s) ->
    receivedFiles sb = receivedFiles s -> uuids sb = S id -> inbound sb = inbound s ->
    uuids s' = S id /\ receivedFiles s' = receivedFiles s /\ inbound s' = inbound s /\
    exists new final,
      trace s' = trace s ++ new /\ sender_run id file new out final /\
      transfers s' = <[id := final]> (transfers s)).
  { intros sb cs closing -> -> Hsent Hclosing Htb Hmb Hrb Hub Hib.
    destruct (Hcatch _ _ eq_refl Hmb) as (-> & Htr & Hmap & Hrf & Hu & Hi).
    rewrite Hu, Hrf, Hi. do 3 (split; [assumption|]).
    eexists _, _.
    split; [|split; [apply (send_interrupted id file (remoteAddr peerConn) cs closing
                              Hsent Hclosing)|exact Hmap]].
    rewrite Htr, Htb, Hta, <- !app_assoc. reflexivity. }
  assert (Hnil : sent_chunks file []).
  { split; [constructor|]. unfold total_length, File.size. simpl. lia. }
  (* the header *)
  cbv beta iota in B. cbn [ret] in B. cbv beta iota in B.
  unfold bind at 1 in B. unfold write at 1 in B.
  destruct (stream_write_ok env (length (outbound sa))); cbv beta iota in B.
  2:{ injection B as Ho <-. symmetry in Ho.
      apply (Hint sa [] []); auto. now rewrite !app_nil_r. }
  set (sb := set_outbound _ sa) in B.
  unfold bind at 1 in B. unfold write at 1 in B.
  destruct (stream_write_ok env (length (outbound sb))); cbv beta iota in B.
  2:{ injection B as Ho <-. symmetry in Ho.
      apply (Hint sb [] []); auto. subst sb; simpl. now rewrite !app_nil_r. }
  set (sc := set_outbound _ sb) in B.
  (* the payload *)
  unfold bind at 1 in B.
  destruct (send_loop (length (File.content file)) env id file 0 sc) as [ol sd] eqn:El.
  apply send_loop_run with (e := t0) in El;
    [|unfold File.size; lia|unfold File.size; lia|subst sc sb; simpl; rewrite Hma;
      apply lookup_insert_eq|reflexivity].
  destruct El as (cs & _ & Htr & Hmap & Hrf & Hu & Hinb & Hall & _ & Hle & Hout).
  subst sc sb. simpl in Htr, Hmap, Hrf, Hu, Hinb.
  rewrite Hma, insert_insert_eq in Hmap. rewrite Hra in Hrf. rewrite Hua in Hu.
  rewrite Hia in Hinb.
  assert (Hsent : sent_chunks file cs) by (split; [exact Hall|lia]).
  destruct ol as [[]|err|]; [| |contradiction].
  2:{ destruct Hout as [-> _]. injection B as Ho <-. symmetry in Ho.
      apply (Hint sd cs []); auto. now rewrite app_nil_r. }
  (* closing *)
  unfold bind at 1 in B. unfold stream_close in B.
  destruct (stream_close_ok env); cbv beta iota in B.
  2:{ injection B as Ho <-. symmetry in Ho.
      apply (Hint (log EvClose sd) cs [EvClose] Ho eq_refl Hsent); auto.
      simpl. now rewrite Htr, <- app_assoc. }
  unfold transfers_update_required, transfers_update in B.
  unfold bind at 1 in B. simpl transfers in B. rewrite Hmap, lookup_insert_eq in B.
  injection B as <- <-. injection E as <- <-. simpl.
  rewrite Hu, Hrf, Hinb, ?Hmap, insert_insert_eq.
  do 3 (split; [reflexivity|]).
  eexists _, _.
  split; [|split; [apply (send_completed id file (remoteAddr peerConn) cs Hsent); lia
                  |reflexivity]].
  rewrite Htr, Hta, <- !app_assoc. reflexivity.
Qed.


(** ** Reading logs *)


Lemma closes_app (a b : list event) : closes (a ++ b) = (closes a + closes b)%nat.
Proof. induction a as [|ev a IH]; [reflexivity|]. simpl. destruct ev; simpl; now rewrite ?IH. Qed.

Lemma reads_app (a b : list event) : reads (a ++ b) = reads a ++ reads b.
Proof. induction a as [|ev a IH]; [reflexivity|]. simpl. destruct ev; simpl; now rewrite ?IH. Qed.




Lemma closes_reads (rs : list Z) : closes (map EvRead rs) = 0%nat.
Proof. induction rs; simpl; auto. Qed.




Lemma closes_loop (id : nat) (e : FTP.t) (w : bool) (total : Z) (cs : list (list byte)) :
  forall remaining, closes (loop_events id e w total remaining cs) = 0%nat.
Proof. induction cs as [|c cs IH]; intros r; simpl; auto. Qed.




Lemma closes_send (id : nat) (e : FTP.t) (cs : list (list byte)) :
  forall offset, closes (send_events id e offset cs) = 0%nat.
Proof. induction cs as [|c cs IH]; intros o; simpl; auto. Qed.



Lemma nondecreasing_app (a : list Z) (x : Z) (b : list Z) :
  nondecreasing (a ++ [x]) -> nondecreasing (x :: b) -> nondecreasing (a ++ x :: b).
Proof.
  induction a as [|y a IH]; intros Ha Hb; [exact Hb|].
  destruct a as [|z a]; simpl in *; [tauto|].
  split; [tauto|]. apply IH; tauto.
Qed.

Lemma nondecreasing_snoc (a : list Z) (x y : Z) :
  nondecreasing (a ++ [x]) -> x <= y -> nondecreasing (a ++ [x; y]).
Proof. intros Ha Hxy. apply nondecreasing_app; [exact Ha|]. simpl. auto. Qed.

(** ** The receiver on headers it turns down *)

(** C3. When the four-byte prefix of an inbound stream decodes to a length
    above 10000, the receiver fails the session with the error
    [Invalid metadata length] after that one read of four bytes: every byte
    behind the prefix is still on the stream, and nothing was acquired,
    stored or published. *)
Theorem oversized_header_rejected (env : environment) (s : state)
    (lenBuf rest : list byte) :
  length lenBuf = 4%nat ->
  10000 < getUint32 lenBuf ->
  let id := uuids s in
  let err := JsError ("Invalid metadata length: " ++ Number_toString (getUint32 lenBuf)) in
  exists s',
    handleIncomingTransfer env (lenBuf ++ rest) s = (Return tt, s') /\
    trace s' = trace s ++ [EvRead 4; EvRegistry id (error_entry id err)] /\
    inbound s' = rest /\
    transfers s' = <[id := error_entry id err]> (transfers s) /\
    receivedFiles s' = receivedFiles s.
Proof.
  intros Hlen Hbig id err. rewrite handleIncomingTransfer_unfold. cbv zeta. fold id.
  unfold receive_body.
  erewrite bind_return; [|apply read_prefix; [now rewrite Hlen|reflexivity]].
  destruct (Z.ltb_spec 10000 (getUint32 lenBuf)) as [_|?]; [|lia].
  eexists. split; [reflexivity|]. simpl. now rewrite <- app_assoc.
Qed.

Lemma oversized_header_rejected_witness :
  length (setUint32 10001) = 4%nat /\
  10000 < getUint32 (setUint32 10001) /\
  exists s',
    handleIncomingTransfer calm (setUint32 10001 ++ fromString "payload") initial_state
      = (Return tt, s') /\
    trace s' = [EvRead 4;
                EvRegistry 0 (error_entry 0 (JsError "Invalid metadata length: 10001"))] /\
    inbound s' = fromString "payload" /\
    transfers s' = <[0%nat := error_entry 0 (JsError "Invalid metadata length: 10001")]> ∅ /\
    receivedFiles s' = [].
Proof.
  split; [reflexivity|]. split; [vm_compute; reflexivity|].
  apply (oversized_header_rejected calm initial_state (setUint32 10001)
           (fromString "payload")); [reflexivity | vm_compute; reflexivity].
Defined.


(** ** Closing the inbound stream *)

Lemma receiver_run_closes (id : nat) (persistent stream_closes : bool)
    (new : list event) (final : FTP.t) (published : list ReceivedFile.t) :
  receiver_run id persistent stream_closes new final published ->
  (published = [] /\ closes new = 0%nat /\ FTP.status final = error) \/
  (exists f, published = [f] /\ closes new = 1%nat).
Proof.
  intros [rs err Hrs|L fname sz num cs tail err Hnum Hsp Htail|L fname sz num cs Hnum Hsp Hsum].
  - left. rewrite closes_app, closes_reads. auto.
  - left. rewrite !closes_app, closes_loop. simpl.
    destruct Htail as [->|[n ->]]; auto.
  - right. eexists. split; [reflexivity|]. cbv zeta.
    rewrite !closes_app, closes_loop. simpl. now destruct stream_closes.
Qed.

(** C5, amended. A run of the receiver closes the inbound stream exactly
    once when the receive pipeline gets as far as publishing the received
    file, which every completed session has; when the pipeline fails before
    that, the handler leaves the session in status error and does not close
    the stream. It never closes the stream twice. *)
Theorem stream_closed_once_when_received (env : environment) (stream : list byte)
    (s s' : state) (out : outcome unit) :
  handleIncomingTransfer env stream s = (out, s') ->
  out <> OutsideModel ->
  (exists f, receivedFiles s' = receivedFiles s ++ [f] /\
             closes (trace s') = S (closes (trace s))) \/
  (receivedFiles s' = receivedFiles s /\
   closes (trace s') = closes (trace s) /\
   FTP.status <$> transfers s' !! uuids s = Some error).
Proof.
  intros Hrun Hmodel.
  destruct (handleIncomingTransfer_run env stream s s' out Hrun Hmodel)
    as (_ & _ & _ & new & final & published & Htr & Hrr & Hmap & Hrf).
  rewrite Htr, closes_app, Hrf, Hmap, lookup_insert_eq.
  destruct (receiver_run_closes _ _ _ _ _ _ Hrr) as [(-> & -> & Hst)|(f & -> & ->)].
  - right. rewrite app_nil_r, Nat.add_0_r. simpl. now rewrite Hst.
  - left. exists f. split; [reflexivity | lia].
Qed.

Lemma stream_closed_once_when_received_witness :
  handleIncomingTransfer calm (wire hello) initial_state = (Return tt, hello_received) /\
  Return tt <> @OutsideModel unit /\
  ((exists f, receivedFiles hello_received = receivedFiles initial_state ++ [f] /\
              closes (trace hello_received) = S (closes (trace initial_state))) \/
   (receivedFiles hello_received = receivedFiles initial_state /\
    closes (trace hello_received) = closes (trace initial_state) /\
    FTP.status <$> transfers hello_received !! uuids initial_state = Some error)).
Proof.
  split; [vm_compute; reflexivity|]. split; [discriminate|].
  apply (stream_closed_once_when_received calm (wire hello) initial_state
           hello_received (Return tt)); [vm_compute; reflexivity | discriminate].
Defined.

(** C5 as stated fails: a stream that ends inside the length prefix leaves
    the session in status error, and the handler has not closed it. *)
Lemma failed_receive_leaves_stream_open :
  let r := handleIncomingTransfer calm two_bytes initial_state in
  fst r = Return tt /\
  FTP.status <$> transfers (snd r) !! 0%nat = Some error /\
  closes (trace (snd r)) = 0%nat /\
  closes (trace (snd r)) <> 1%nat.
Proof. vm_compute. repeat split; discriminate. Qed.

(** ** Metadata the receiver takes as it comes *)





(** ** What the sender writes *)

Lemma setUint32_length (n : Z) : length (setUint32 n) = 4%nat.
Proof. reflexivity. Qed.

(** With the node up, a connection to the peer, a dial that succeeds and
    writes that go through, [sendFile] puts the length prefix, the metadata
    and the whole content on the stream, in this order. *)
Lemma sendFile_wire (env : environment) (file : File.t) (peerId : string) (s : state) :
  node_ready env = true ->
  List.filter (fun c => String.eqb (remotePeer c) peerId) (connections env) <> [] ->
  dial_ok env = true ->
  (forall k, stream_write_ok env k = true) ->
  exists out s',
    sendFile env file peerId s = (out, s') /\
    concat (outbound s') = concat (outbound s) ++ file_frame file /\
    (out = Return tt <-> stream_close_ok env = true).
Proof.
  intros Hnode Hconn Hdial Hwrite. unfold sendFile. rewrite Hnode.
  unfold bind at 1. cbn [randomUUID]. unfold bind at 1. cbn [transfers_set modify].
  set (id := uuids s). set (p := {| FTP.id := id |}). set (s0 := log _ _).
  unfold try_catch, send_body.
  destruct (List.filter _ (connections env)) as [|first others]; [now contradiction Hconn|].
  set (peerConn := match List.find is_webrtc _ with Some c => c | None => first end).
  unfold bind at 1. unfold dialProtocol. unfold bind at 1. cbn [modify]. rewrite Hdial.
  cbn [ret]. unfold transfers_update_required at 1, transfers_update.
  unfold bind at 1. unfold bind at 1.
  replace (transfers (log (EvDial (remoteAddr peerConn)) s0) !! id) with (Some p)
    by (subst s0; simpl; now rewrite lookup_insert_eq).
  cbv beta iota. cbn [ret]. cbv beta iota.
  set (t0 := FTP.with_status transferring p). set (sa := log (EvRegistry id t0) _).
  unfold bind at 1. unfold write at 1. rewrite Hwrite.
  unfold bind at 1. unfold write at 1. rewrite Hwrite.
  set (sc := set_outbound _ (set_outbound _ sa)).
  unfold bind at 1.
  destruct (send_loop (length (File.content file)) env id file 0 sc) as [ol sd] eqn:El.
  apply send_loop_run with (e := t0) in El;
    [|unfold File.size; lia|unfold File.size; lia
     |subst sc sa; simpl; apply lookup_insert_eq|reflexivity].
  destruct El as (cs & Hob & _ & Hmap & _ & _ & _ & _ & Hcat & _ & Hout).
  destruct ol as [[]|err|]; [| |contradiction].
  2:{ exfalso. destruct Hout as [_ [j Hj]]. rewrite Hwrite in Hj. discriminate. }
  assert (Hwire : concat (outbound sd) = concat (outbound s) ++ file_frame file).
  { rewrite Hob. subst sc sa s0. simpl. rewrite <- !app_assoc, !concat_app. simpl.
    rewrite app_nil_r, Hcat. unfold file_frame, framed. rewrite <- !app_assoc.
    do 3 f_equal. rewrite Z.add_0_l in Hout. rewrite Hout. unfold File.size.
    rewrite Nat2Z.id. simpl. now rewrite take_ge. }
  unfold bind at 1. unfold stream_close.
  destruct (stream_close_ok env).
  - unfold transfers_update_required, transfers_update. unfold bind at 1.
    replace (transfers (log EvClose sd) !! id)
      with (Some (FTP.with_transferred (0 + total_length cs) t0))
      by (simpl; now rewrite Hmap, lookup_insert_eq).
    eexists _, _. split; [reflexivity|]. split; [exact Hwire|]. now split.
  - cbv beta iota. unfold bind, transfers_update.
    replace (transfers (log EvClose sd) !! id)
      with (Some (FTP.with_transferred (0 + total_length cs) t0))
      by (simpl; now rewrite Hmap, lookup_insert_eq).
    eexists _, _. split; [reflexivity|]. split; [exact Hwire|]. split; discriminate.
Qed.

(** ** A frame written by the sender, read by the receiver *)

Lemma receive_file_frame (env : environment) (s : state) (file : File.t)
    (extra : list byte) :
  acceptable file ->
  (opfs_available env = true ->
     (forall k, opfs_write_ok env k = true) /\ opfs_close_ok env = true) ->
  let id := uuids s in
  let L := Z.of_nat (length (fromString
             (JSON_stringify_metadata (File.name file) (File.size file)))) in
  let e0 := start_entry id (VString (File.name file)) (VNumber (File.size file)) in
  let done := FTP.with_status completed (FTP.with_transferred (File.size file) e0) in
  exists (cs : list (list byte)) (s' : state),
    handleIncomingTransfer env (file_frame file ++ extra) s = (Return tt, s') /\
    concat cs = File.content file /\
    trace s' = trace s
      ++ [EvRead 4; EvRead L; EvRegistry id e0; EvAcquire (opfs_available env)]
      ++ loop_events id e0 (opfs_available env) (File.size file) (File.size file) cs
      ++ [EvRegistry id done; EvClose]
      ++ (if stream_close_ok env then [] else [EvRegistry id (error_entry id StreamError)]) /\
    receivedFiles s' = receivedFiles s
      ++ [{| ReceivedFile.filename := VString (File.name file);
             ReceivedFile.blob := File.content file |}] /\
    transfers s' = <[id := if stream_close_ok env then done else error_entry id StreamError]>
                     (transfers s) /\
    inbound s' = extra.
Proof.
  intros (Hname & H53 & Hmeta & _) Hopfs id L e0 done.
  set (text := JSON_stringify_metadata (File.name file) (File.size file)) in *.
  assert (Hsize : 0 <= File.size file) by (unfold File.size; lia).
  destruct (receive_well_formed env s (setUint32 L) (fromString text) (File.content file)
              extra text ""
              (VObject [("filename", VString (File.name file));
                        ("size", VNumber (File.size file))])
              (VString (File.name file)) (VNumber (File.size file))
              (Num (File.size file)))
    as (cs & s' & Hrun & Hcs & _ & Htr & Hrf & Hmap & Hin & _ & _).
  - reflexivity.
  - rewrite getUint32_setUint32. subst L. apply Z.mod_small. lia.
  - exact Hmeta.
  - now apply decode_metadata_text.
  - apply JSON_parse_stringify_metadata. lia.
  - reflexivity.
  - reflexivity.
  - reflexivity.
  - simpl. unfold File.size. lia.
  - exact Hopfs.
  - exists cs, s'. unfold file_frame, framed. fold text. fold L.
    rewrite <- !app_assoc. split; [exact Hrun|]. split; [exact Hcs|].
    unfold File.size in *. fold id e0 in Htr, Hmap. simpl declared_total in Htr.
    auto.
Qed.

(** Any file that is acceptable is received as sent, when the sender gets
    its writes through and the receiver's storage works. *)
Lemma acceptable_file_is_received (envS envR : environment) (file : File.t)
    (peerId : string) (sS sR : state) :
  acceptable file ->
  node_ready envS = true ->
  List.filter (fun c => String.eqb (remotePeer c) peerId) (connections envS) <> [] ->
  dial_ok envS = true ->
  (forall k, stream_write_ok envS k = true) ->
  outbound sS = [] ->
  (opfs_available envR = true ->
     (forall k, opfs_write_ok envR k = true) /\ opfs_close_ok envR = true) ->
  exists outS sS' sR',
    sendFile envS file peerId sS = (outS, sS') /\
    handleIncomingTransfer envR (concat (outbound sS')) sR = (Return tt, sR') /\
    receivedFiles sR' = receivedFiles sR
      ++ [{| ReceivedFile.filename := VString (File.name file);
             ReceivedFile.blob := File.content file |}] /\
    inbound sR' = [].
Proof.
  intros Hfile Hnode Hconn Hdial Hwrite Hout Hopfs.
  destruct (sendFile_wire envS file peerId sS Hnode Hconn Hdial Hwrite)
    as (outS & sS' & Hsend & Hwire & _).
  rewrite Hout in Hwire. simpl in Hwire.
  destruct (receive_file_frame envR sR file [] Hfile Hopfs)
    as (cs & sR' & Hrun & _ & _ & Hrf & _ & Hin).
  rewrite app_nil_r in Hrun.
  exists outS, sS', sR'. rewrite Hwire. auto.
Qed.

(** A header of at most 10004 bytes and a payload of one of the four sizes
    fit the read buffer. *)
Lemma four_sizes_acceptable (file : File.t) :
  In (File.size file) [0; 1; 65536; 196625] ->
  well_formed (File.name file) = true ->
  Z.of_nat (length (fromString (JSON_stringify_metadata (File.name file) (File.size file))))
    <= 10000 ->
  acceptable file.
Proof.
  intros Hsize Hname Hmeta.
  assert (Hs : 0 <= File.size file <= 196625).
  { simpl in Hsize. unfold File.size in *. lia. }
  split; [exact Hname|]. split; [lia|]. split; [exact Hmeta|].
  unfold fits_buffer, file_frame, framed. rewrite !length_app, setUint32_length.
  unfold File.size in Hs. change MAX_BUFFER_SIZE with 4194304. lia.
Qed.

(** C2, amended. For a payload of 0, 1, 65536 or 196625 bytes (empty, less
    than a chunk, exactly a chunk, several chunks and a remainder) and a
    file name that is well-formed text and whose metadata, once encoded,
    takes no more than 10000 bytes: when the sender has its node, a
    connection to the peer, a dial that resolves and writes that go
    through, and the receiver's OPFS, where there is one, takes its writes
    and closes, what [sendFile] writes on the stream is read back by
    [handleIncomingTransfer] into a received file with the same name and
    exactly the same bytes. *)
Theorem sent_file_is_received (envS envR : environment) (file : File.t)
    (peerId : string) (sS sR : state) :
  In (File.size file) [0; 1; 65536; 196625] ->
  well_formed (File.name file) = true ->
  Z.of_nat (length (fromString (JSON_stringify_metadata (File.name file) (File.size file))))
    <= 10000 ->
  node_ready envS = true ->
  List.filter (fun c => String.eqb (remotePeer c) peerId) (connections envS) <> [] ->
  dial_ok envS = true ->
  (forall k, stream_write_ok envS k = true) ->
  outbound sS = [] ->
  (opfs_available envR = true ->
     (forall k, opfs_write_ok envR k = true) /\ opfs_close_ok envR = true) ->
  exists outS sS' sR',
    sendFile envS file peerId sS = (outS, sS') /\
    handleIncomingTransfer envR (concat (outbound sS')) sR = (Return tt, sR') /\
    receivedFiles sR' = receivedFiles sR
      ++ [{| ReceivedFile.filename := VString (File.name file);
             ReceivedFile.blob := File.content file |}] /\
    inbound sR' = [].
Proof.
  intros Hsize Hname Hmeta. apply acceptable_file_is_received.
  now apply four_sizes_acceptable.
Qed.

Lemma sent_file_is_received_witness :
  In (File.size three_chunks_and_more) [0; 1; 65536; 196625] /\
  exists outS sS' sR',
    sendFile calm three_chunks_and_more "peer" initial_state = (outS, sS') /\
    handleIncomingTransfer without_opfs (concat (outbound sS')) initial_state
      = (Return tt, sR') /\
    receivedFiles sR'
      = [{| ReceivedFile.filename := VString "big.bin";
            ReceivedFile.blob := File.content three_chunks_and_more |}] /\
    inbound sR' = [].
Proof.
  assert (H : In (File.size three_chunks_and_more) [0; 1; 65536; 196625]).
  { do 3 right. left. vm_compute. reflexivity. }
  split; [exact H|].
  apply (sent_file_is_received calm without_opfs three_chunks_and_more "peer"
           initial_state initial_state H); try reflexivity.
  - vm_compute. discriminate.
  - vm_compute. discriminate.
  - intros [=].
Defined.

(** C2 as stated fails for a name of ten thousand characters: the sender
    writes a length prefix above 10000, the receiver turns the header down
    and no file is received. *)
Lemma long_name_is_not_received :
  let sent := sendFile calm long_name "peer" initial_state in
  let r := handleIncomingTransfer calm (concat (outbound (snd sent))) initial_state in
  fst sent = Return tt /\
  receivedFiles (snd r) = [] /\
  transfers (snd r) !! 0%nat
    = Some (error_entry 0 (JsError "Invalid metadata length: 10024")).
Proof. vm_compute. repeat split. Qed.

(** ** One storage strategy per session *)


Lemma hello_acceptable : acceptable hello.
Proof. split; [reflexivity|]. repeat split; vm_compute; discriminate. Qed.




(** ** The transferred counter *)










(** ** The lifecycle of a session's status *)








(** With [stream.close()] rejected, the statuses recorded for a received
    file end with [error] after [completed], and the file is published. *)
Lemma rejected_close_overwrites_completed :
  let r := handleIncomingTransfer close_rejected (wire hello) initial_state in
  map FTP.status (registry_log 0 (trace (snd r)))
    = [transferring; transferring; completed; error] /\
  lifecycle (map FTP.status (registry_log 0 (trace (snd r)))) = false /\
  receivedFiles (snd r)
    = [{| ReceivedFile.filename := VString "hello.txt";
          ReceivedFile.blob := fromString "hello" |}].
Proof. vm_compute. repeat split. Qed.


(** ** Registering the protocol handler *)

Lemma filter_unhandled (protocol : string) (hs : list (string * nat)) :
  List.filter (fun h => String.eqb (fst h) protocol)
    (List.filter (fun h => negb (String.eqb (fst h) protocol)) hs) = [].
Proof.
  induction hs as [|h hs IH]; [reflexivity|].
  simpl. destruct (String.eqb (fst h) protocol) eqn:E; simpl; [exact IH|].
  now rewrite E.
Qed.

Lemma filter_unhandled_again (protocol : string) (hs : list (string * nat)) :
  List.filter (fun h => negb (String.eqb (fst h) protocol))
    (List.filter (fun h => negb (String.eqb (fst h) protocol)) hs)
  = List.filter (fun h => negb (String.eqb (fst h) protocol)) hs.
Proof.
  induction hs as [|h hs IH]; [reflexivity|].
  simpl. destruct (String.eqb (fst h) protocol) eqn:E; simpl; [exact IH|].
  now rewrite E, IH.
Qed.

Lemma unhandle_unhandled (node0 : Libp2p) :
  unhandle FILE_TRANSFER_PROTOCOL (unhandled node0) = unhandled node0.
Proof. unfold unhandled, unhandle. cbn [handlers]. now rewrite filter_unhandled_again. Qed.

Lemma unhandle_installed (self : nat) (node0 : Libp2p) :
  unhandle FILE_TRANSFER_PROTOCOL (installed self node0) = unhandled node0.
Proof.
  unfold installed, unhandled, unhandle. cbn [handlers].
  rewrite List.filter_app, filter_unhandled_again. cbn [List.filter fst].
  rewrite String.eqb_refl. cbn [negb]. now rewrite app_nil_r.
Qed.

Lemma handlers_for_unhandled (node0 : Libp2p) :
  handlers_for FILE_TRANSFER_PROTOCOL (unhandled node0) = [].
Proof. apply filter_unhandled. Qed.

Lemma handlers_for_installed (self : nat) (node0 : Libp2p) :
  handlers_for FILE_TRANSFER_PROTOCOL (installed self node0)
  = [(FILE_TRANSFER_PROTOCOL, self)].
Proof.
  unfold handlers_for, installed. cbn [handlers].
  rewrite List.filter_app. unfold unhandled, unhandle. cbn [handlers].
  rewrite filter_unhandled. cbn [List.filter fst]. now rewrite String.eqb_refl.
Qed.

Lemma handlers_for_other_unhandled (protocol : string) (node0 : Libp2p) :
  protocol <> FILE_TRANSFER_PROTOCOL ->
  handlers_for protocol (unhandled node0) = handlers_for protocol node0.
Proof.
  intros Hp. unfold handlers_for, unhandled, unhandle. cbn [handlers].
  induction (handlers node0) as [|h hs IH]; [reflexivity|].
  cbn [List.filter].
  destruct (String.eqb_spec (fst h) FILE_TRANSFER_PROTOCOL) as [E|E]; cbn [negb List.filter].
  - destruct (String.eqb_spec (fst h) protocol) as [E'|_]; [congruence|exact IH].
  - destruct (String.eqb (fst h) protocol); [now rewrite IH|exact IH].
Qed.

Lemma handlers_for_other_installed (self : nat) (protocol : string) (node0 : Libp2p) :
  protocol <> FILE_TRANSFER_PROTOCOL ->
  handlers_for protocol (installed self node0) = handlers_for protocol node0.
Proof.
  intros Hp. rewrite <- (handlers_for_other_unhandled protocol node0 Hp).
  unfold handlers_for at 1, installed. cbn [handlers].
  rewrite List.filter_app. cbn [List.filter fst].
  destruct (String.eqb_spec FILE_TRANSFER_PROTOCOL protocol) as [E|_]; [congruence|].
  now rewrite app_nil_r.
Qed.

Lemma handle_unhandled (self : nat) (node0 : Libp2p) :
  handle FILE_TRANSFER_PROTOCOL self (unhandled node0) = Some (installed self node0).
Proof.
  unfold handle.
  assert (H : existsb (fun h => String.eqb (fst h) FILE_TRANSFER_PROTOCOL)
                (handlers (unhandled node0)) = false).
  { unfold unhandled, unhandle. cbn [handlers].
    induction (handlers node0) as [|h hs IH]; [reflexivity|].
    simpl. destruct (String.eqb (fst h) FILE_TRANSFER_PROTOCOL) eqn:E; simpl; [exact IH|].
    now rewrite E, IH. }
  now rewrite H.
Qed.

Lemma handle_installed (self : nat) (node0 : Libp2p) :
  handle FILE_TRANSFER_PROTOCOL self (installed self node0) = None.
Proof.
  unfold handle, installed. cbn [handlers]. rewrite existsb_app. cbn [existsb fst].
  rewrite String.eqb_refl. now rewrite orb_true_r.
Qed.

(** Replacing the state of one call in the list of calls. *)
Lemma In_insert_inv {A} (l : list A) (k : nat) (x y : A) :
  In x (<[k := y]> l) -> x = y \/ In x l.
Proof.
  revert k. induction l as [|a l IH]; intros [|k]; simpl; auto.
  - intros [->|H]; auto.
  - intros [->|H]; auto. destruct (IH k H); auto.
Qed.

Lemma In_insert_keep {A} (l : list A) (k : nat) (r x y : A) :
  l !! k = Some r -> In x l -> x <> r -> In x (<[k := y]> l).
Proof.
  revert k. induction l as [|a l IH]; intros [|k]; simpl; try easy.
  - intros [= ->] [->|H] N; [congruence|auto].
  - intros Hk [->|H] N; [auto|]. right. eapply IH; eauto.
Qed.

Lemma In_insert_new {A} (l : list A) (k : nat) (r y : A) :
  l !! k = Some r -> In y (<[k := y]> l).
Proof.
  revert k. induction l as [|a l IH]; intros [|k]; simpl; try easy.
  - auto.
  - intros Hk. right. eapply IH; eauto.
Qed.

Lemma In_lookup {A} (l : list A) (k : nat) (r : A) : l !! k = Some r -> In r l.
Proof.
  revert k. induction l as [|a l IH]; intros [|k]; simpl; try easy.
  - intros [= ->]. auto.
  - intros Hk. right. eapply IH; eauto.
Qed.

Lemma registration_eq_dec (a b : registration) : {a = b} + {a <> b}.
Proof. decide equality; apply Nat.eq_dec. Qed.

(** A call that moves on stays with its node. *)
Lemma started_replaced (libp2p : nat) (l : list registration) (k : nat)
    (r r' : registration) :
  l !! k = Some r -> node_of r' = node_of r ->
  (exists x, In x (<[k := r']> l) /\ node_of x = Some libp2p) <->
  (exists x, In x l /\ node_of x = Some libp2p).
Proof.
  intros Hk Hn. split; intros (x & Hin & Hx).
  - apply In_insert_inv in Hin as [->|Hin]; [|eauto].
    exists r. split; [eapply In_lookup; eauto | congruence].
  - destruct (registration_eq_dec x r) as [->|N].
    + exists r'. split; [eapply In_insert_new; eauto | congruence].
    + exists x. split; [eapply In_insert_keep; eauto | exact Hx].
Qed.

Lemma option_eq_dec_nat (a b : option nat) : {a = b} + {a <> b}.
Proof. decide equality. apply Nat.eq_dec. Qed.

Lemma started_dec (libp2p : nat) (c : composable) :
  started libp2p c \/ ~ started libp2p c.
Proof.
  unfold started. induction (calls c) as [|r l IH].
  - right. intros (x & [] & _).
  - destruct IH as [(x & Hin & Hx)|N]; [left; exists x; simpl; auto|].
    destruct (option_eq_dec_nat (node_of r) (Some libp2p)) as [E|E].
    + left. exists r. simpl. auto.
    + right. intros (x & [->|Hin] & Hx); [congruence|]. apply N. eauto.
Qed.

Lemma registering_set_up (self : nat) (nodes0 : gmap nat Libp2p) :
  registering self nodes0 (set_up nodes0).
Proof.
  intros libp2p. simpl. destruct (nodes0 !! libp2p) as [node0|] eqn:E; [|reflexivity].
  split; [intros _; exact E|]. intros (x & [] & _).
Qed.

(** A turn that leaves a node alone leaves what holds of it. *)
Lemma registering_on_frame (self : nat) (node0 : Libp2p) (libp2p : nat)
    (c c' : composable) :
  registering_on self node0 libp2p c ->
  nodes c' !! libp2p = nodes c !! libp2p ->
  (protocolRegistered c = true -> protocolRegistered c' = true) ->
  (started libp2p c' <-> started libp2p c) ->
  (In (AwaitsUnhandle libp2p) (calls c) -> In (AwaitsUnhandle libp2p) (calls c')) ->
  (In (AwaitsHandle libp2p) (calls c) ->
   protocolRegistered c' = true \/ In (AwaitsHandle libp2p) (calls c')) ->
  registering_on self node0 libp2p c'.
Proof.
  intros [Hno Hyes] Hn Hf Hst Hu Hh. split.
  - intros N. rewrite Hn. apply Hno. intros H. apply N, Hst, H.
  - intros H. apply Hst in H. rewrite Hn.
    destruct (Hyes H) as [[Hx Hin]|[Hx [Hflag|Hin]]].
    + left. auto.
    + right. auto.
    + right. auto.
Qed.

Lemma started_app (libp2p : nat) (c : composable) (r : registration) (flag : bool)
    (ns : gmap nat Libp2p) :
  started libp2p {| protocolRegistered := flag; nodes := ns; calls := calls c ++ [r] |}
  <-> started libp2p c \/ node_of r = Some libp2p.
Proof.
  unfold started. cbn [calls]. split.
  - intros (x & Hin & Hx). apply in_app_or in Hin as [Hin|[<-|[]]]; eauto.
  - intros [(x & Hin & Hx)|Hr].
    + exists x. split; [apply in_or_app; now left|exact Hx].
    + exists r. split; [apply in_or_app; right; now left|exact Hr].
Qed.

Lemma started_insert (libp2p : nat) (c : composable) (k : nat) (r r' : registration)
    (flag : bool) (ns : gmap nat Libp2p) :
  calls c !! k = Some r -> node_of r' = node_of r ->
  started libp2p {| protocolRegistered := flag; nodes := ns; calls := <[k := r']> (calls c) |}
  <-> started libp2p c.
Proof. intros Hk Hn. unfold started. cbn [calls]. now apply (started_replaced _ _ _ r). Qed.

Lemma node_cases (self : nat) (node0 : Libp2p) (libp2p : nat) (c : composable) :
  registering_on self node0 libp2p c ->
  nodes c !! libp2p = Some node0 \/
  nodes c !! libp2p = Some (unhandled node0) \/
  nodes c !! libp2p = Some (installed self node0).
Proof.
  intros [Hno Hyes]. destruct (started_dec libp2p c) as [Hs|Hs].
  - destruct (Hyes Hs) as [[Hn _]|[Hn _]]; auto.
  - auto.
Qed.

Lemma registering_turn (self : nat) (nodes0 : gmap nat Libp2p) (t : turn) (c : composable) :
  registering self nodes0 c -> registering self nodes0 (take_turn self t c).
Proof.
  intros Hinv. destruct t as [newNode|k].
  - (* the callback is called *)
    assert (Hskip : registering self nodes0
              {| protocolRegistered := protocolRegistered c; nodes := nodes c;
                 calls := calls c ++ [Skipped] |}).
    { intros libp2p. specialize (Hinv libp2p).
      destruct (nodes0 !! libp2p) as [node0|]; [|exact Hinv].
      apply (registering_on_frame self node0 libp2p c); [exact Hinv|reflexivity|auto| | |].
      - rewrite started_app. split; [intros [H|[=]]; exact H|auto].
      - intros H. apply in_or_app. now left.
      - intros H. right. apply in_or_app. now left. }
    unfold take_turn, on_node.
    destruct newNode as [i|]; [|exact Hskip].
    unfold registerProtocol.
    destruct (protocolRegistered c) eqn:Hflag; cbn [negb];
      [cbv beta iota; rewrite Hflag; exact Hskip|].
    cbv beta iota. cbn [calls nodes protocolRegistered]. clear Hskip.
    intros libp2p. specialize (Hinv libp2p).
    destruct (Nat.eq_dec i libp2p) as [->|Hne].
    + cbn [nodes]. rewrite lookup_alter_eq.
      destruct (nodes0 !! libp2p) as [node0|]; [|now rewrite Hinv].
      split.
      * intros N. exfalso. apply N, started_app. now right.
      * intros _. left. cbn [nodes calls]. rewrite lookup_alter_eq.
        split; [|apply in_or_app; right; now left].
        destruct (node_cases _ _ _ _ Hinv) as [->|[->| ->]]; simpl;
          now rewrite ?unhandle_unhandled, ?unhandle_installed.
    + destruct (nodes0 !! libp2p) as [node0|];
        [|cbn [nodes]; now rewrite lookup_alter_ne].
      apply (registering_on_frame self node0 libp2p c);
        [exact Hinv| |intros ?; congruence| | |].
      * cbn [nodes]. now rewrite lookup_alter_ne.
      * rewrite started_app. split; [intros [H|[=]]; [exact H|congruence]|auto].
      * intros H. apply in_or_app. now left.
      * intros H. right. apply in_or_app. now left.
  - (* a call goes on *)
    unfold take_turn. destruct (calls c !! k) as [r|] eqn:Hk; [|exact Hinv].
    destruct r as [|i|i|i|i]; cbn [resume].
    1,4,5: rewrite list_insert_id by exact Hk; now destruct c.
    + (* after [unhandle] *)
      destruct (nodes c !! i) as [node|] eqn:En.
      * destruct (handle FILE_TRANSFER_PROTOCOL self node) as [node'|] eqn:Eh.
        -- cbv beta iota. cbn [calls nodes protocolRegistered].
           intros libp2p. pose proof (Hinv libp2p) as Hl.
           destruct (Nat.eq_dec i libp2p) as [->|Hne].
           ++ cbn [nodes]. rewrite lookup_insert_eq.
              destruct (nodes0 !! libp2p) as [node0|]; [|congruence].
              assert (Hst : started libp2p c).
              { exists (AwaitsUnhandle libp2p). split; [eapply In_lookup; eauto|reflexivity]. }
              destruct Hl as [_ Hyes].
              destruct (Hyes Hst) as [[Hn _]|[Hn _]]; rewrite En in Hn; injection Hn as ->.
              2:{ rewrite handle_installed in Eh. discriminate. }
              rewrite handle_unhandled in Eh. injection Eh as <-.
              split.
              ** intros N. exfalso. apply N. eapply started_insert; eauto.
              ** intros _. right. cbn [nodes calls protocolRegistered].
                 rewrite lookup_insert_eq. split; [reflexivity|]. right.
                 eapply In_insert_new; eauto.
           ++ destruct (nodes0 !! libp2p) as [node0|];
                [|cbn [nodes]; now rewrite lookup_insert_ne].
              apply (registering_on_frame self node0 libp2p c); [exact Hl| |auto| | |].
              ** cbn [nodes]. now rewrite lookup_insert_ne.
              ** eapply started_insert; eauto.
              ** intros H. eapply In_insert_keep; eauto; congruence.
              ** intros H. right. eapply In_insert_keep; eauto; discriminate.
        -- (* [handle] rejects: the node holds the handler already *)
           cbv beta iota. cbn [calls nodes protocolRegistered].
           intros libp2p. pose proof (Hinv libp2p) as Hl.
           destruct (nodes0 !! libp2p) as [node0|]; [|exact Hl].
           destruct (Nat.eq_dec i libp2p) as [->|Hne].
           ++ assert (Hst : started libp2p c).
              { exists (AwaitsUnhandle libp2p). split; [eapply In_lookup; eauto|reflexivity]. }
              destruct Hl as [_ Hyes].
              destruct (Hyes Hst) as [[Hn _]|[Hn Hdone]]; rewrite En in Hn; injection Hn as ->.
              { rewrite handle_unhandled in Eh. discriminate. }
              split.
              ** intros N. exfalso. apply N. eapply started_insert; eauto.
              ** intros _. right. cbn [nodes calls protocolRegistered].
                 split; [exact En|]. destruct Hdone as [Hf|Hin]; [now left|right].
                 eapply In_insert_keep; eauto; discriminate.
           ++ apply (registering_on_frame self node0 libp2p c);
                [exact Hl|reflexivity|auto| | |].
              ** eapply started_insert; eauto.
              ** intros H. eapply In_insert_keep; eauto; congruence.
              ** intros H. right. eapply In_insert_keep; eauto; discriminate.
      * (* the call names no node *)
        cbv beta iota. cbn [calls nodes protocolRegistered].
           intros libp2p. pose proof (Hinv libp2p) as Hl.
        destruct (nodes0 !! libp2p) as [node0|]; [|exact Hl].
        destruct (Nat.eq_dec i libp2p) as [->|Hne].
        -- exfalso. destruct (node_cases _ _ _ _ Hl) as [H|[H|H]]; congruence.
        -- apply (registering_on_frame self node0 libp2p c);
             [exact Hl|reflexivity|auto| | |].
           ++ eapply started_insert; eauto.
           ++ intros H. eapply In_insert_keep; eauto; congruence.
           ++ intros H. right. eapply In_insert_keep; eauto; discriminate.
    + (* after [handle] *)
      cbv beta iota. cbn [calls nodes protocolRegistered].
           intros libp2p. pose proof (Hinv libp2p) as Hl.
      destruct (nodes0 !! libp2p) as [node0|]; [|exact Hl].
      apply (registering_on_frame self node0 libp2p c);
        [exact Hl|reflexivity|reflexivity| | |].
      * eapply started_insert; eauto.
      * intros H. eapply In_insert_keep; eauto; discriminate.
      * intros _. now left.
Qed.

Lemma registering_turns (self : nat) (nodes0 : gmap nat Libp2p) (ts : list turn) :
  forall c, registering self nodes0 c -> registering self nodes0 (take_turns self ts c).
Proof.
  induction ts as [|t ts IH]; intros c Hc; [exact Hc|].
  apply IH, registering_turn, Hc.
Qed.

(** The receiver never throws: what goes wrong in it ends in its [catch]. *)
Lemma handleIncomingTransfer_returns (env : environment) (stream : list byte) (s : state) :
  fst (handleIncomingTransfer env stream s) = Return tt \/
  fst (handleIncomingTransfer env stream s) = OutsideModel.
Proof.
  rewrite handleIncomingTransfer_unfold. cbv zeta.
  destruct (receive_body env (uuids s) _) as [[[]|err|] s1]; simpl; auto.
Qed.

Lemma deliver_others (hs : list (string * nat)) (protocol : string) (self : nat)
    (env : environment) (stream : list byte) (s : state) :
  List.filter (fun h => String.eqb (fst h) protocol) hs = [] ->
  deliver hs protocol self env stream s = (Return tt, s).
Proof.
  induction hs as [|[p owner] hs IH]; intros H; [reflexivity|].
  simpl in *. destruct (String.eqb p protocol); [discriminate|]. simpl.
  unfold bind. simpl. now apply IH.
Qed.

(** A stream for the protocol, delivered to a node that holds the handler of
    [self] and no other for it, runs the receiver once. *)
Lemma deliver_installed (hs : list (string * nat)) (self : nat) (env : environment)
    (stream : list byte) (s : state) :
  List.filter (fun h => String.eqb (fst h) FILE_TRANSFER_PROTOCOL) hs
    = [(FILE_TRANSFER_PROTOCOL, self)] ->
  deliver hs FILE_TRANSFER_PROTOCOL self env stream s = handleIncomingTransfer env stream s.
Proof.
  revert s. induction hs as [|[p owner] hs IH]; intros s H; [discriminate|].
  cbn [List.filter fst] in H. cbn [deliver].
  destruct (String.eqb p FILE_TRANSFER_PROTOCOL) eqn:Ep.
  - injection H as -> -> Hrest. rewrite Nat.eqb_refl. cbn [andb].
    unfold bind, protocol_handler, try_catch.
    pose proof (handleIncomingTransfer_returns env stream s) as Hr.
    destruct (handleIncomingTransfer env stream s) as [[[]|err|] s1]; simpl in Hr;
      [|destruct Hr; discriminate|reflexivity].
    apply deliver_others, Hrest.
  - cbn [andb]. unfold bind at 1. cbn [ret]. apply IH, H.
Qed.

(** C8. However the calls of [registerProtocol] overlap and whatever nodes
    they are made for, a node that a call has started to register on never
    holds two handlers for the file protocol, and keeps its handlers for
    other protocols. Once every call has returned, the flag is set and the
    node holds exactly one handler for the protocol, this composable's,
    whatever handlers it held before; an inbound stream then runs the
    receiver exactly once, and leaves exactly one more session in the
    registry. *)
Theorem registration_is_idempotent (self : nat) (nodes0 : gmap nat Libp2p)
    (ts : list turn) (libp2p : nat) (node0 : Libp2p) :
  let c := take_turns self ts (set_up nodes0) in
  nodes0 !! libp2p = Some node0 ->
  started libp2p c ->
  exists node,
    nodes c !! libp2p = Some node /\
    (handlers_for FILE_TRANSFER_PROTOCOL node = [] \/
     handlers_for FILE_TRANSFER_PROTOCOL node = [(FILE_TRANSFER_PROTOCOL, self)]) /\
    (forall protocol, protocol <> FILE_TRANSFER_PROTOCOL ->
       handlers_for protocol node = handlers_for protocol node0) /\
    (quiescent c ->
     protocolRegistered c = true /\
     handlers_for FILE_TRANSFER_PROTOCOL node = [(FILE_TRANSFER_PROTOCOL, self)] /\
     forall (env : environment) (stream : list byte) (s : state),
       let delivered := deliver (handlers node) FILE_TRANSFER_PROTOCOL self env stream s in
       delivered = handleIncomingTransfer env stream s /\
       (fst delivered <> OutsideModel ->
        fst delivered = Return tt /\
        uuids (snd delivered) = S (uuids s) /\
        (fresh_uuids s -> size (transfers (snd delivered)) = S (size (transfers s))) /\
        exists entry, transfers (snd delivered) = <[uuids s := entry]> (transfers s))).
Proof.
  intros c Hnode Hst.
  pose proof (registering_turns self nodes0 ts _ (registering_set_up self nodes0) libp2p) as Hinv.
  fold c in Hinv. rewrite Hnode in Hinv. destruct Hinv as [_ Hyes].
  assert (Hrun : forall node,
    handlers_for FILE_TRANSFER_PROTOCOL node = [(FILE_TRANSFER_PROTOCOL, self)] ->
    forall (env : environment) (stream : list byte) (s : state),
      let delivered := deliver (handlers node) FILE_TRANSFER_PROTOCOL self env stream s in
      delivered = handleIncomingTransfer env stream s /\
      (fst delivered <> OutsideModel ->
       fst delivered = Return tt /\
       uuids (snd delivered) = S (uuids s) /\
       (fresh_uuids s -> size (transfers (snd delivered)) = S (size (transfers s))) /\
       exists entry, transfers (snd delivered) = <[uuids s := entry]> (transfers s))).
  { intros node Hh env stream s delivered.
    assert (E : delivered = handleIncomingTransfer env stream s)
      by (apply deliver_installed, Hh).
    split; [exact E|]. rewrite E. intros Hmodel.
    destruct (handleIncomingTransfer env stream s) as [o s1] eqn:Er.
    destruct (handleIncomingTransfer_run env stream s s1 o Er Hmodel)
      as (-> & Hu & _ & new & final & published & _ & _ & Hmap & _).
    simpl. split; [reflexivity|]. split; [exact Hu|]. split; [|eauto].
    intros Hfresh. rewrite Hmap. apply map_size_insert_None. apply Hfresh. lia. }
  destruct (Hyes Hst) as [[Hn Hin]|[Hn Hdone]].
  - exists (unhandled node0). split; [exact Hn|].
    split; [left; apply handlers_for_unhandled|].
    split; [intros p Hp; now apply handlers_for_other_unhandled|].
    intros Hq. exfalso. unfold quiescent in Hq. rewrite Forall_forall in Hq.
    apply list_elem_of_In in Hin. specialize (Hq _ Hin). discriminate.
  - exists (installed self node0). split; [exact Hn|].
    split; [right; apply handlers_for_installed|].
    split; [intros p Hp; now apply handlers_for_other_installed|].
    intros Hq. split; [|split; [apply handlers_for_installed|]].
    + destruct Hdone as [Hf|Hin]; [exact Hf|exfalso].
      unfold quiescent in Hq. rewrite Forall_forall in Hq.
      apply list_elem_of_In in Hin. specialize (Hq _ Hin). discriminate.
    + apply Hrun, handlers_for_installed.
Qed.

Lemma registration_is_idempotent_witness :
  let ts := [NodeChanged (Some 0%nat); NodeChanged (Some 0%nat);
             Resumed 1; Resumed 0; Resumed 0; Resumed 1] in
  let c := take_turns 7 ts (set_up {[0%nat := reused_node]}) in
  let node := installed 7 reused_node in
  let delivered := deliver (handlers node) FILE_TRANSFER_PROTOCOL 7 calm (wire hello)
                     initial_state in
  calls c = [Rejected 0; Registered 0] /\
  started 0 c /\ quiescent c /\
  nodes c !! 0%nat = Some node /\
  handlers node = [("/ipfs/id/1.0.0", 1%nat); (FILE_TRANSFER_PROTOCOL, 7%nat)] /\
  protocolRegistered c = true /\
  delivered = handleIncomingTransfer calm (wire hello) initial_state /\
  size (transfers (snd delivered)) = 1%nat /\
  receivedFiles (snd delivered)
    = [{| ReceivedFile.filename := VString "hello.txt";
          ReceivedFile.blob := fromString "hello" |}].
Proof.
  intros ts c node delivered.
  assert (Hcalls : calls c = [Rejected 0; Registered 0]) by (vm_compute; reflexivity).
  assert (Hst : started 0 c).
  { exists (Registered 0). rewrite Hcalls. split; [right; now left|reflexivity]. }
  assert (Hq : quiescent c).
  { unfold quiescent. rewrite Hcalls. repeat constructor. }
  assert (H0 : ({[0%nat := reused_node]} : gmap nat Libp2p) !! 0%nat = Some reused_node)
    by apply lookup_singleton_eq.
  destruct (registration_is_idempotent 7 {[0%nat := reused_node]} ts 0 reused_node
              H0 Hst) as (node' & Hn & _ & _ & Hdone).
  assert (Hnode : nodes c !! 0%nat = Some node) by (vm_compute; reflexivity).
  assert (E : Some node' = Some node) by (rewrite <- Hn, <- Hnode; reflexivity).
  injection E as ->.
  destruct (Hdone Hq) as (Hflag & _ & Hdeliver).
  destruct (Hdeliver calm (wire hello) initial_state) as [Heq _].
  split; [exact Hcalls|]. split; [exact Hst|]. split; [exact Hq|].
  split; [exact Hnode|]. split; [reflexivity|]. split; [exact Hflag|].
  split; [exact Heq|]. subst delivered. rewrite Heq.
  split; vm_compute; reflexivity.
Defined.


(** * More of the relay *)

(** ** The loop of [generateCode] *)

(** X1. [generateCode] returns the code of the first value of [Math.random()]
    whose code is not a key of the registry, having used the values before
    it and none after it; and it is still looping exactly when the code of
    every value so far is taken. *)
Theorem generateCode_first_free_draw (draws : list Q)
    (reg : gmap string Relay.CodeEntry) :
  (forall code rest,
     Relay.generateCode draws reg = Some (code, rest) <->
     exists taken r,
       draws = taken ++ r :: rest /\
       Forall (fun x => is_Some (reg !! Relay.draw_code x)) taken /\
       reg !! Relay.draw_code r = None /\
       code = Relay.draw_code r) /\
  (Relay.generateCode draws reg = None <->
   Forall (fun x => is_Some (reg !! Relay.draw_code x)) draws).
Proof.
  induction draws as [|x draws [IHs IHn]].
  - split.
    + intros code rest. split; [discriminate|].
      intros (taken & r & E & _). destruct taken; discriminate.
    + split; [constructor | reflexivity].
  - split.
    + intros code rest. simpl. destruct (reg !! Relay.draw_code x) as [e|] eqn:Ex.
      * rewrite IHs. split.
        -- intros (taken & r & -> & Hall & Hfree & ->).
           exists (x :: taken), r. repeat split; auto.
        -- intros (taken & r & E & Hall & Hfree & ->).
           destruct taken as [|y taken]; simpl in E.
           ++ injection E as <- <-. congruence.
           ++ injection E as <- ->. inversion Hall; subst.
              exists taken, r. auto.
      * split.
        -- intros [= <- <-]. exists [], x. repeat split; auto.
        -- intros (taken & r & E & Hall & Hfree & ->).
           destruct taken as [|y taken]; simpl in E.
           ++ now injection E as <- <-.
           ++ injection E as <- ->. inversion Hall as [|? ? [e He] ?]; subst. congruence.
    + simpl. destruct (reg !! Relay.draw_code x) as [e|] eqn:Ex.
      * rewrite IHn. split; [intros H; constructor; eauto | now inversion 1].
      * split; [discriminate|]. inversion 1 as [|? ? [e He] ?]; subst. congruence.
Qed.

(** ** The sweep *)

Lemma not_expired_earlier (now1 now2 : Z) (entry : Relay.CodeEntry) :
  now1 <= now2 -> Relay.expired now2 entry = false -> Relay.expired now1 entry = false.
Proof.
  unfold Relay.expired. intros Hle H2.
  apply Z.ltb_ge in H2. apply Z.ltb_ge. lia.
Qed.

(** X2. A turn of the sweep only removes entries, and leaves none that has
    expired; a sweep makes every earlier sweep redundant: sweeping at
    [now1] and then at [now2], no earlier than [now1], leaves what the
    sweep at [now2] alone leaves. *)
Theorem sweep_after_sweep (now1 now2 : Z) (reg : gmap string Relay.CodeEntry) :
  now1 <= now2 ->
  Relay.sweep now2 (Relay.sweep now1 reg) = Relay.sweep now2 reg /\
  Relay.sweep now2 reg ⊆ reg /\
  forall code entry,
    Relay.sweep now2 reg !! code = Some entry ->
    now2 - Relay.createdAt entry <= Relay.CODE_EXPIRY_MS.
Proof.
  intros Hle. split; [|split].
  - apply map_eq. intros code. rewrite !sweep_lookup.
    destruct (reg !! code) as [entry|]; [|reflexivity].
    destruct (Relay.expired now1 entry) eqn:X1.
    + destruct (Relay.expired now2 entry) eqn:X2; [reflexivity|].
      now rewrite (not_expired_earlier now1 now2 entry Hle X2) in X1.
    + reflexivity.
  - apply map_subseteq_spec. intros code entry. rewrite sweep_lookup.
    destruct (reg !! code) as [e|]; [|discriminate].
    destruct (Relay.expired now2 e); [discriminate|auto].
  - intros code entry. rewrite sweep_lookup.
    destruct (reg !! code) as [e|]; [|discriminate].
    destruct (Relay.expired now2 e) eqn:X; [discriminate|].
    intros [= <-]. unfold Relay.expired in X. apply Z.ltb_ge in X. exact X.
Qed.

Lemma sweep_after_sweep_witness :
  let reg := <["550000" := {| Relay.address := "/ip4/192.0.2.1/tcp/4001";
                              Relay.createdAt := 0 |}]>
               (<["100000" := {| Relay.address := "/ip4/192.0.2.2/tcp/4001";
                                 Relay.createdAt := 200000 |}]>
                  (∅ : gmap string Relay.CodeEntry)) in
  60000 <= 360000 /\
  Relay.sweep 360000 (Relay.sweep 60000 reg) = Relay.sweep 360000 reg /\
  Relay.sweep 360000 reg ⊆ reg /\
  forall code entry,
    Relay.sweep 360000 reg !! code = Some entry ->
    360000 - Relay.createdAt entry <= Relay.CODE_EXPIRY_MS.
Proof.
  cbv zeta. split; [lia|]. apply (sweep_after_sweep 60000 360000). lia.
Defined.

(** X3. Looking a code up answers with the same status and the same address
    whether or not the sweep has just run, and the lookup leaves of the
    entry looked up what the sweep would leave of it: the lazy check and
    the sweep apply one rule. *)
Theorem lookup_agrees_with_sweep (now : Z) (code : option string)
    (reg : gmap string Relay.CodeEntry) :
  let direct := Relay.get_code now code reg in
  let swept := Relay.get_code now code (Relay.sweep now reg) in
  Http.statusCode (Http.Json (fst direct)) = Http.statusCode (Http.Json (fst swept)) /\
  (forall addr, fst direct = Relay.R200_address addr <-> fst swept = Relay.R200_address addr) /\
  snd swept = Relay.sweep now reg /\
  forall c, code = Some c -> c <> "" -> snd direct !! c = Relay.sweep now reg !! c.
Proof.
  cbv zeta. unfold Relay.get_code. destruct code as [c|]; [|simpl; intuition congruence].
  destruct (String.eqb_spec c "") as [->|Hc]; [simpl; intuition congruence|].
  rewrite sweep_lookup. destruct (reg !! c) as [entry|] eqn:E.
  - destruct (Relay.expired now entry) eqn:X; simpl.
    + repeat split; try discriminate.
      intros c' [= <-] _. now rewrite lookup_delete_eq, sweep_lookup, E, X.
    + rewrite X. simpl. repeat split; auto.
      intros c' [= <-] _. now rewrite sweep_lookup, E, X.
  - simpl. repeat split; auto.
    intros c' [= <-] _. now rewrite sweep_lookup, E.
Qed.

(** ** The request listener *)

Lemma post_cases (now : Z) (draws : list Q) (body : string)
    (reg reg' : gmap string Relay.CodeEntry) (res : Http.ServerResponse) (rest : list Q) :
  Http.post now draws body reg = Http.Done res reg' rest ->
  (exists err, res = Http.Json (Relay.R400 err) /\ reg' = reg /\ rest = draws) \/
  (exists c address v r,
     JSON_parse body = Parsed v r /\
     Http.destructure_address v = Some address /\
     ToBoolean address = true /\
     Relay.generateCode draws reg = Some (c, rest) /\
     reg' = <[c := {| Relay.address := address; Relay.createdAt := now |}]> reg /\
     res = Http.Json match address with
                     | VString _ => Relay.R200_code c
                     | _ => Relay.R400 "Invalid JSON"
                     end).
Proof.
  unfold Http.post. destruct (JSON_parse body) as [v r| |] eqn:Hp; [| |discriminate].
  2:{ intros [= <- <- <-]. left. eauto. }
  destruct (Http.destructure_address v) as [address|] eqn:Hd.
  2:{ intros [= <- <- <-]. left. eauto. }
  destruct (Relay.post_code now draws address reg) as [[[r0 reg1] rest1]|] eqn:E;
    [|discriminate].
  intros [= <- <- <-].
  apply post_code_spec in E as [(_ & -> & -> & ->)|(Hb & c & Hg & -> & ->)].
  - left. eauto.
  - right. exists c, address, v, r. auto 7.
Qed.

Lemma get_cases (now : Z) (code : option string) (reg : gmap string Relay.CodeEntry) :
  (exists c entry,
     code = Some c /\ c <> "" /\ reg !! c = Some entry /\
     Relay.expired now entry = true /\
     Relay.get_code now code reg = (Relay.R404 "Code expired", delete c reg)) \/
  (exists c entry,
     code = Some c /\ c <> "" /\ reg !! c = Some entry /\
     Relay.expired now entry = false /\
     Relay.get_code now code reg = (Relay.R200_address (Relay.address entry), reg)) \/
  (exists r, Relay.get_code now code reg = (r, reg) /\
             (r = Relay.R400 "Code required" \/ r = Relay.R404 "Code not found or expired")).
Proof.
  unfold Relay.get_code. destruct code as [c|]; [|right; right; eauto].
  destruct (String.eqb_spec c "") as [->|Hc]; [right; right; eauto|].
  destruct (reg !! c) as [entry|] eqn:E; [|right; right; eauto].
  destruct (Relay.expired now entry) eqn:X; [left|right; left]; exists c, entry; auto.
Qed.

Lemma requestListener_listened (now : Z) (draws : list Q) (req : Http.IncomingMessage)
    (reg reg' : gmap string Relay.CodeEntry) (res : Http.ServerResponse) (rest : list Q) :
  Http.requestListener now draws req reg = Http.Done res reg' rest ->
  Http.listened now draws req reg res reg' rest.
Proof.
  unfold Http.requestListener.
  destruct (String.eqb_spec (Http.method req) "OPTIONS") as [_|_].
  { intros [= <- <- <-]. now apply Http.listened_other. }
  destruct (String.eqb_spec (Http.pathname req) "/code") as [Hpath|_].
  2:{ intros [= <- <- <-]. now apply Http.listened_other. }
  destruct (String.eqb_spec (Http.method req) "POST") as [Hpost|_].
  { intros H. apply post_cases in H
      as [(err & -> & -> & ->)|(c & address & v & r & _ & _ & Hb & Hg & -> & ->)].
    - now apply Http.listened_other.
    - destruct address as [| |b|z|addr|items|fields];
        try (apply Http.listened_stored; [assumption..|intros s; discriminate|assumption]).
      apply Http.listened_registered; auto. now apply ToBoolean_string. }
  destruct (String.eqb_spec (Http.method req) "GET") as [Hget|_].
  2:{ intros [= <- <- <-]. now apply Http.listened_other. }
  destruct (get_cases now (Http.code req) reg)
    as [(c & e & Hc & Hne & He & Hx & ->)|[(c & e & Hc & Hne & He & Hx & ->)
       |(r & -> & Hr)]]; intros [= <- <- <-].
  - now apply (Http.listened_expired now draws req reg c e).
  - now apply (Http.listened_found now draws req reg c e).
  - apply Http.listened_other; destruct Hr as [->| ->]; simpl; congruence.
Qed.

(** What [generateCode] returns, it has drawn for. *)
Lemma generateCode_used (draws : list Q) (reg : gmap string Relay.CodeEntry) :
  forall (c : string) (rest : list Q),
  Relay.generateCode draws reg = Some (c, rest) ->
  exists used, draws = used ++ rest /\ used <> [].
Proof.
  induction draws as [|x draws IH]; intros c rest; simpl; [discriminate|].
  destruct (reg !! Relay.draw_code x).
  - intros Hg. destruct (IH _ _ Hg) as (used & -> & _). now exists (x :: used).
  - intros [= _ <-]. now exists [x].
Qed.

(** X4. An answer of the listener changes the registry in three cases only.
    To a POST of [/code] answered with a code, the registry gains one entry,
    under that code, which was free, holding the address of the body, a
    non-empty string, and the time of the request. To a POST of [/code]
    whose body gives [address] a truthy value that is not a string, the
    answer is 400 [Invalid JSON], and yet the registry has gained an entry
    that holds this value, under a code that was free and that the answer
    does not tell. To a GET of [/code] answered [Code expired], the registry
    loses the entry of the code asked for, which had expired. Every other
    answer, whatever the method, the path or the body, leaves the registry
    and the unused random values as they were. *)
Theorem listener_changes_registry_by_post_and_expiry_only
    (now : Z) (draws : list Q) (req : Http.IncomingMessage)
    (reg reg' : gmap string Relay.CodeEntry) (res : Http.ServerResponse) (rest : list Q) :
  Http.requestListener now draws req reg = Http.Done res reg' rest ->
  match res with
  | Http.Json (Relay.R200_code c) =>
      Http.method req = "POST" /\ Http.pathname req = "/code" /\
      reg !! c = None /\
      (exists addr : string, addr <> "" /\
         reg' = <[c := {| Relay.address := addr; Relay.createdAt := now |}]> reg) /\
      size reg' = S (size reg) /\
      exists used, draws = used ++ rest /\ used <> []
  | Http.Json (Relay.R400 "Invalid JSON") =>
      (reg' = reg /\ rest = draws) \/
      (Http.method req = "POST" /\ Http.pathname req = "/code" /\
       exists (c : string) (addr : jsvalue),
         ToBoolean addr = true /\ Http.not_a_string addr /\
         reg !! c = None /\
         reg' = <[c := {| Relay.address := addr; Relay.createdAt := now |}]> reg /\
         size reg' = S (size reg) /\
         exists used, draws = used ++ rest /\ used <> [])
  | Http.Json (Relay.R404 "Code expired") =>
      Http.method req = "GET" /\ Http.pathname req = "/code" /\
      rest = draws /\
      exists c entry,
        Http.code req = Some c /\ reg !! c = Some entry /\
        Relay.CODE_EXPIRY_MS < now - Relay.createdAt entry /\
        reg' = delete c reg
  | _ => reg' = reg /\ rest = draws
  end.
Proof.
  intros H. apply requestListener_listened in H.
  destruct H as [c addr rest Hm Hp Ha Hg|c addr rest Hm Hp Hb Hs Hg
                |c entry Hm Hp Hc He Hx|c entry Hm Hp Hc Hne He Hx|res Hs Hr].
  - pose proof (generateCode_spec _ _ _ _ Hg) as [Hfree _].
    split; [exact Hm|]. split; [exact Hp|]. split; [exact Hfree|].
    split; [eauto|]. split; [now apply map_size_insert_None|].
    eapply generateCode_used, Hg.
  - pose proof (generateCode_spec _ _ _ _ Hg) as [Hfree _].
    right. split; [exact Hm|]. split; [exact Hp|]. exists c, addr.
    split; [exact Hb|]. split; [exact Hs|]. split; [exact Hfree|].
    split; [reflexivity|]. split; [now apply map_size_insert_None|].
    eapply generateCode_used, Hg.
  - split; [exact Hm|]. split; [exact Hp|]. split; [reflexivity|].
    exists c, entry. apply expired_spec in Hx. auto.
  - auto.
  - destruct res as [|err|[c|addr|err|err]]; auto.
    + now simpl in Hs.
    + clear.
      repeat (match goal with
              | |- match ?s with _ => _ end => destruct s as [|[[] [] [] [] [] [] [] []] ?]
              end; auto).
    + destruct (String.eqb_spec err "Code expired") as [->|Hne]; [congruence|].
      clear Hs Hr. revert Hne. clear.
      intros Hne.
      repeat (match goal with
              | |- match ?s with _ => _ end => destruct s as [|[[] [] [] [] [] [] [] []] ?]
              end; auto).
      now contradiction Hne.
Qed.

Lemma listener_changes_registry_by_post_and_expiry_only_witness :
  let body := Http.numeric_body in
  let reg' := <["550000" := {| Relay.address := VNumber 5; Relay.createdAt := 1000 |}]>
                (∅ : gmap string Relay.CodeEntry) in
  Http.requestListener 1000 [1 # 2; 1 # 4] (Http.POST body) ∅
    = Http.Done (Http.Json (Relay.R400 "Invalid JSON")) reg' [1 # 4] /\
  ((reg' = ∅ /\ [1 # 4] = [1 # 2; 1 # 4]) \/
   (Http.method (Http.POST body) = "POST" /\ Http.pathname (Http.POST body) = "/code" /\
    exists (c : string) (addr : jsvalue),
      ToBoolean addr = true /\ Http.not_a_string addr /\
      (∅ : gmap string Relay.CodeEntry) !! c = None /\
      reg' = <[c := {| Relay.address := addr; Relay.createdAt := 1000 |}]> ∅ /\
      size reg' = S (size (∅ : gmap string Relay.CodeEntry)) /\
      exists used, [1 # 2; 1 # 4] = used ++ [1 # 4] /\ used <> [])) /\
  Http.requestListener 2000 [] (Http.GET "550000") reg'
    = Http.Done (Http.Json (Relay.R200_address (VNumber 5))) reg' [].
Proof.
  intros body reg'.
  assert (H : Http.requestListener 1000 [1 # 2; 1 # 4] (Http.POST body) ∅
              = Http.Done (Http.Json (Relay.R400 "Invalid JSON")) reg' [1 # 4])
    by (vm_compute; reflexivity).
  split; [exact H|]. split; [|vm_compute; reflexivity].
  exact (listener_changes_registry_by_post_and_expiry_only 1000 [1 # 2; 1 # 4]
           (Http.POST body) ∅ reg' (Http.Json (Relay.R400 "Invalid JSON")) [1 # 4] H).
Defined.

Lemma step_well_kept (t : Http.tick) (reg reg' : gmap string Relay.CodeEntry) :
  Http.well_kept reg -> Http.fair t -> Http.step t reg = Some reg' -> Http.well_kept reg'.
Proof.
  intros Hk Hf. destruct t as [now draws req|now]; simpl.
  - destruct (Http.requestListener now draws req reg) as [res reg1 rest| |] eqn:E;
      [|discriminate|discriminate].
    intros [= <-]. apply requestListener_listened in E.
    assert (Hstored : forall (c : string) (addr : jsvalue) (rest : list Q),
              ToBoolean addr = true ->
              Relay.generateCode draws reg = Some (c, rest) ->
              Http.well_kept
                (<[c := {| Relay.address := addr; Relay.createdAt := now |}]> reg)).
    { intros c addr rest0 Hb Hg c' e'. destruct (decide (c' = c)) as [->|Hne].
      - rewrite lookup_insert_eq. intros [= <-]. split; [|exact Hb].
        apply generateCode_spec in Hg as (_ & r & Hin & ->).
        apply Number_toString_six, draw_in_range.
        simpl in Hf. rewrite Forall_forall in Hf. apply Hf. now apply list_elem_of_In.
      - rewrite lookup_insert_ne by congruence. apply Hk. }
    destruct E as [c addr rest Hm Hp Ha Hg|c addr rest Hm Hp Hb Hs Hg
                  |c entry Hm Hp Hc He Hx|c entry Hm Hp Hc Hne He Hx|res Hs Hr];
      try exact Hk.
    + eapply Hstored; [|exact Hg]. now apply ToBoolean_string.
    + eapply Hstored; eauto.
    + intros c' e'. destruct (decide (c' = c)) as [->|Hne].
      * now rewrite lookup_delete_eq.
      * rewrite lookup_delete_ne by congruence. apply Hk.
  - intros [= <-] c e. rewrite sweep_lookup.
    destruct (reg !! c) as [e0|] eqn:E; [|discriminate].
    destruct (Relay.expired now e0); [discriminate|]. intros [= <-]. now apply Hk.
Qed.

(** X5. Whatever requests the relay has answered and whatever sweeps it has
    run since it started, with values of [Math.random()] that are doubles
    in [0,1), the keys of the registry are six-digit codes and every entry
    holds a truthy value as its address (a string that is not empty, or
    whatever other truthy value a body gave); so a lookup answered with
    status 200 is a lookup of a six-digit code and returns an address that
    is truthy. *)
Theorem registry_stays_well_kept (ts : list Http.tick)
    (reg reg' : gmap string Relay.CodeEntry) :
  Http.well_kept reg ->
  Forall Http.fair ts ->
  Http.run ts reg = Some reg' ->
  Http.well_kept reg' /\
  forall now draws req res reg'' rest,
    Http.method req = "GET" ->
    Http.requestListener now draws req reg' = Http.Done res reg'' rest ->
    Http.statusCode res = 200 ->
    exists c addr,
      Http.code req = Some c /\ Relay.six_digit_code c /\
      res = Http.Json (Relay.R200_address addr) /\ ToBoolean addr = true.
Proof.
  intros Hk Hf Hrun.
  assert (Hk' : Http.well_kept reg').
  { revert reg Hk Hrun. induction Hf as [|t ts Ht _ IH]; intros reg Hk; simpl.
    - now intros [= <-].
    - destruct (Http.step t reg) as [reg1|] eqn:E; [|discriminate].
      apply IH. eapply step_well_kept; eauto. }
  split; [exact Hk'|].
  intros now draws req res reg'' rest Hget Hl Hs.
  apply requestListener_listened in Hl.
  destruct Hl as [c addr rest Hm Hp Ha Hg|c addr rest Hm Hp Hb Hns Hg
                 |c entry Hm Hp Hc He Hx|c entry Hm Hp Hc Hne He Hx|res Hs' Hr].
  - rewrite Hget in Hm. discriminate.
  - discriminate.
  - discriminate.
  - destruct (Hk' c entry He) as [Hsix Haddr]. eauto 6.
  - contradiction.
Qed.

Lemma registry_stays_well_kept_witness :
  let draw := 123183457807755 # 4503599627370496 in
  let ts := [Http.Request 1000 [1 # 2]
               (Http.POST (Http.JSON_stringify_address "/dns4/relay.example/tcp/443/wss"));
             Http.Sweep 61000;
             Http.Request 62000 [1 # 2; draw] (Http.POST Http.numeric_body);
             Http.Request 400000 [] (Http.GET "550000")] in
  let reg' := <["124617" := {| Relay.address := VNumber 5; Relay.createdAt := 62000 |}]>
                (∅ : gmap string Relay.CodeEntry) in
  Http.well_kept ∅ /\ Forall Http.fair ts /\ Http.run ts ∅ = Some reg' /\
  Http.well_kept reg' /\
  forall now draws req res reg'' rest,
    Http.method req = "GET" ->
    Http.requestListener now draws req reg' = Http.Done res reg'' rest ->
    Http.statusCode res = 200 ->
    exists c addr,
      Http.code req = Some c /\ Relay.six_digit_code c /\
      res = Http.Json (Relay.R200_address addr) /\ ToBoolean addr = true.
Proof.
  intros draw ts reg'.
  assert (Hk : Http.well_kept ∅) by (intros c e H; rewrite lookup_empty in H; discriminate).
  assert (Hf : Forall Http.fair ts).
  { repeat constructor; vm_compute; try discriminate; reflexivity. }
  assert (Hrun : Http.run ts ∅ = Some reg') by (vm_compute; reflexivity).
  split; [exact Hk|]. split; [exact Hf|]. split; [exact Hrun|].
  exact (registry_stays_well_kept ts ∅ reg' Hk Hf Hrun).
Defined.

Lemma step_keeps_entry (t : Http.tick) (reg reg' : gmap string Relay.CodeEntry)
    (code : string) (entry : Relay.CodeEntry) :
  reg !! code = Some entry ->
  Http.tick_time t - Relay.createdAt entry <= Relay.CODE_EXPIRY_MS ->
  Http.step t reg = Some reg' ->
  reg' !! code = Some entry.
Proof.
  intros Hin Ht.
  assert (Hx : Relay.expired (Http.tick_time t) entry = false).
  { destruct (Relay.expired _ entry) eqn:X; [apply expired_spec in X; lia | reflexivity]. }
  destruct t as [now draws req|now]; simpl in *.
  - destruct (Http.requestListener now draws req reg) as [res reg1 rest| |] eqn:E;
      [|discriminate|discriminate].
    intros [= <-]. apply requestListener_listened in E.
    destruct E as [c addr rest Hm Hp Ha Hg|c addr rest Hm Hp Hb Hs Hg
                  |c e Hm Hp Hc He Hxe|c e Hm Hp Hc Hne He Hxe|res Hs Hr]; try exact Hin.
    + apply generateCode_spec in Hg as [Hfree _].
      rewrite lookup_insert_ne; [exact Hin | congruence].
    + apply generateCode_spec in Hg as [Hfree _].
      rewrite lookup_insert_ne; [exact Hin | congruence].
    + rewrite lookup_delete_ne; [exact Hin | congruence].
  - intros [= <-]. now rewrite sweep_lookup, Hin, Hx.
Qed.

(** X6. The address posted in a JSON body to [/code] is what a GET of the code
    returns, unchanged, for as long as the entry has not expired, whatever
    requests and sweeps the relay serves in between; GET leaves the entry
    in place, so the code can be looked up again. *)
Theorem posted_address_is_served_until_expiry
    (t0 : Z) (draws : list Q) (body : string) (fields : list (string * jsvalue))
    (addr c : string) (reg0 reg1 reg2 : gmap string Relay.CodeEntry) (rest : list Q)
    (ts : list Http.tick) (now : Z) (draws' : list Q) :
  JSON_parse body = Parsed (VObject fields) "" ->
  last_field "address" fields = VString addr ->
  Http.requestListener t0 draws (Http.POST body) reg0
    = Http.Done (Http.Json (Relay.R200_code c)) reg1 rest ->
  Http.run ts reg1 = Some reg2 ->
  Forall (fun t => Http.tick_time t - t0 <= Relay.CODE_EXPIRY_MS) ts ->
  now - t0 <= Relay.CODE_EXPIRY_MS ->
  Http.requestListener now draws' (Http.GET c) reg2
    = Http.Done (Http.Json (Relay.R200_address addr)) reg2 draws'.
Proof.
  intros Hparse Haddr Hpost Hrun Hts Hnow.
  assert (H1 : reg1 !! c = Some {| Relay.address := addr; Relay.createdAt := t0 |} /\ c <> "").
  { unfold Http.requestListener in Hpost. cbn [Http.POST Http.method Http.pathname Http.body] in Hpost.
    change (String.eqb "POST" "OPTIONS") with false in Hpost.
    change (String.eqb "/code" "/code") with true in Hpost.
    change (String.eqb "POST" "POST") with true in Hpost.
    cbv iota in Hpost.
    apply post_cases in Hpost
      as [(err & [=] & _)|(c' & a & v & r & Hp & Ha & Hne & Hg & -> & E)].
    rewrite Hparse in Hp. injection Hp as <- <-. cbn [Http.destructure_address] in Ha.
    rewrite Haddr in Ha. injection Ha as <-. injection E as <-.
    split; [apply lookup_insert_eq|].
    apply generateCode_spec in Hg as (_ & x & _ & ->). apply Number_toString_nonempty. }
  destruct H1 as [H1 Hc].
  assert (H2 : reg2 !! c = Some {| Relay.address := addr; Relay.createdAt := t0 |}).
  { clear Hpost. revert reg1 H1 Hrun.
    induction Hts as [|t ts Ht _ IH]; intros reg1 H1; simpl.
    - now intros [= <-].
    - destruct (Http.step t reg1) as [reg1'|] eqn:E; [|discriminate].
      apply IH. eapply step_keeps_entry; eauto. }
  unfold Http.requestListener. cbn [Http.GET Http.method Http.pathname Http.code].
  change (String.eqb "GET" "OPTIONS") with false.
  change (String.eqb "/code" "/code") with true.
  change (String.eqb "GET" "POST") with false.
  change (String.eqb "GET" "GET") with true.
  cbv iota. unfold Relay.get_code.
  destruct (String.eqb_spec c "") as [?|_]; [contradiction|].
  rewrite H2.
  destruct (Relay.expired now _) eqn:X; [|reflexivity].
  apply expired_spec in X. simpl in X. lia.
Qed.

Lemma posted_address_is_served_until_expiry_witness :
  let addr := Http.odd_address in
  let body := Http.spaced_body in
  let reg1 := <["550000" := {| Relay.address := addr; Relay.createdAt := 1000 |}]>
                (∅ : gmap string Relay.CodeEntry) in
  let ts := [Http.Sweep 61000; Http.Request 100000 [] (Http.GET "550000");
             Http.Request 300000 [1 # 2; 1 # 3] (Http.POST body)] in
  let reg2 := <["400000" := {| Relay.address := addr; Relay.createdAt := 300000 |}]> reg1 in
  JSON_parse body = Parsed (VObject [("port", VNumber 443); ("address", VString addr)]) "" /\
  Http.requestListener 1000 [1 # 2] (Http.POST body) ∅
    = Http.Done (Http.Json (Relay.R200_code "550000")) reg1 [] /\
  Http.run ts reg1 = Some reg2 /\
  Http.requestListener 301000 [] (Http.GET "550000") reg2
    = Http.Done (Http.Json (Relay.R200_address addr)) reg2 [].
Proof.
  intros addr body reg1 ts reg2.
  assert (Hp : JSON_parse body
               = Parsed (VObject [("port", VNumber 443); ("address", VString addr)]) "")
    by (vm_compute; reflexivity).
  assert (Hpost : Http.requestListener 1000 [1 # 2] (Http.POST body) ∅
                  = Http.Done (Http.Json (Relay.R200_code "550000")) reg1 [])
    by (vm_compute; reflexivity).
  assert (Hrun : Http.run ts reg1 = Some reg2) by (vm_compute; reflexivity).
  split; [exact Hp|]. split; [exact Hpost|]. split; [exact Hrun|].
  refine (posted_address_is_served_until_expiry 1000 [1 # 2] body _ addr "550000" ∅ reg1 reg2
            [] ts 301000 [] Hp eq_refl Hpost Hrun _ _).
  - repeat constructor; vm_compute; discriminate.
  - vm_compute. discriminate.
Defined.

(** X7. Posting the same address twice registers it twice: the two codes
    differ, each is a key of the registry with the address and the time of
    its own request, and the first entry is not touched by the second
    request. *)
Theorem posting_twice_gives_two_codes
    (t1 t2 : Z) (draws1 draws2 rest1 rest2 : list Q) (body : string)
    (fields : list (string * jsvalue)) (addr c1 c2 : string)
    (reg0 reg1 reg2 : gmap string Relay.CodeEntry) :
  JSON_parse body = Parsed (VObject fields) "" ->
  last_field "address" fields = VString addr ->
  Http.requestListener t1 draws1 (Http.POST body) reg0
    = Http.Done (Http.Json (Relay.R200_code c1)) reg1 rest1 ->
  Http.requestListener t2 draws2 (Http.POST body) reg1
    = Http.Done (Http.Json (Relay.R200_code c2)) reg2 rest2 ->
  c1 <> c2 /\
  reg2 !! c1 = Some {| Relay.address := addr; Relay.createdAt := t1 |} /\
  reg2 !! c2 = Some {| Relay.address := addr; Relay.createdAt := t2 |} /\
  size reg2 = S (S (size reg0)) /\
  forall c entry, reg0 !! c = Some entry -> reg2 !! c = Some entry.
Proof.
  intros Hparse Haddr H1 H2.
  assert (Hpost : forall t draws reg reg' c rest,
            Http.requestListener t draws (Http.POST body) reg
              = Http.Done (Http.Json (Relay.R200_code c)) reg' rest ->
            reg !! c = None /\
            reg' = <[c := {| Relay.address := addr; Relay.createdAt := t |}]> reg).
  { intros t draws reg reg' c rest H. unfold Http.requestListener in H.
    cbn [Http.POST Http.method Http.pathname Http.body] in H.
    change (String.eqb "POST" "OPTIONS") with false in H.
    change (String.eqb "/code" "/code") with true in H.
    change (String.eqb "POST" "POST") with true in H.
    cbv iota in H.
    apply post_cases in H
      as [(err & [=] & _)|(c' & a & v & r & Hp & Ha & _ & Hg & -> & E)].
    rewrite Hparse in Hp. injection Hp as <- <-. cbn [Http.destructure_address] in Ha.
    rewrite Haddr in Ha. injection Ha as <-. injection E as <-.
    apply generateCode_spec in Hg as [Hfree _]. auto. }
  destruct (Hpost _ _ _ _ _ _ H1) as [Hf1 ->].
  destruct (Hpost _ _ _ _ _ _ H2) as [Hf2 ->].
  assert (Hne : c1 <> c2).
  { intros <-. rewrite lookup_insert_eq in Hf2. discriminate. }
  split; [exact Hne|]. split; [|split; [|split]].
  - rewrite lookup_insert_ne by congruence. apply lookup_insert_eq.
  - apply lookup_insert_eq.
  - rewrite map_size_insert_None by exact Hf2. now rewrite map_size_insert_None.
  - intros c entry Hc.
    assert (N1 : c1 <> c) by (intros ->; congruence).
    assert (N2 : c2 <> c).
    { intros ->. rewrite lookup_insert_ne in Hf2 by exact N1. congruence. }
    now rewrite !lookup_insert_ne.
Qed.

Lemma posting_twice_gives_two_codes_witness :
  let body := Http.JSON_stringify_address "/dns4/relay.example/tcp/443/wss" in
  let e1 := {| Relay.address := "/dns4/relay.example/tcp/443/wss"; Relay.createdAt := 1000 |} in
  let e2 := {| Relay.address := "/dns4/relay.example/tcp/443/wss"; Relay.createdAt := 2000 |} in
  let reg1 := <["550000" := e1]> (∅ : gmap string Relay.CodeEntry) in
  let reg2 := <["100000" := e2]> reg1 in
  Http.requestListener 1000 [1 # 2] (Http.POST body) ∅
    = Http.Done (Http.Json (Relay.R200_code "550000")) reg1 [] /\
  Http.requestListener 2000 [1 # 2; 0 # 1] (Http.POST body) reg1
    = Http.Done (Http.Json (Relay.R200_code "100000")) reg2 [] /\
  "550000" <> "100000" /\
  reg2 !! "550000" = Some e1 /\ reg2 !! "100000" = Some e2 /\
  size reg2 = S (S (size (∅ : gmap string Relay.CodeEntry))) /\
  forall c entry, (∅ : gmap string Relay.CodeEntry) !! c = Some entry ->
                  reg2 !! c = Some entry.
Proof.
  intros body e1 e2 reg1 reg2.
  assert (Hp : JSON_parse body
               = Parsed (VObject [("address", VString "/dns4/relay.example/tcp/443/wss")]) "")
    by (vm_compute; reflexivity).
  assert (H1 : Http.requestListener 1000 [1 # 2] (Http.POST body) ∅
               = Http.Done (Http.Json (Relay.R200_code "550000")) reg1 [])
    by (vm_compute; reflexivity).
  assert (H2 : Http.requestListener 2000 [1 # 2; 0 # 1] (Http.POST body) reg1
               = Http.Done (Http.Json (Relay.R200_code "100000")) reg2 [])
    by (vm_compute; reflexivity).
  split; [exact H1|]. split; [exact H2|].
  exact (posting_twice_gives_two_codes 1000 2000 _ _ _ _ body _ _ _ _ ∅ reg1 reg2
           Hp eq_refl H1 H2).
Defined.


(** * More of the composable *)

(** ** How a session ends *)

Lemma receiver_run_final (id : nat) (persistent stream_closes : bool)
    (new : list event) (final : FTP.t) (published : list ReceivedFile.t) :
  receiver_run id persistent stream_closes new final published ->
  FTP.id final = id /\ FTP.direction final = receive /\ settled final /\
  (published = [] \/ exists f, published = [f]).
Proof.
  intros [rs err Hrs|L fname sz num cs tail err Hnum Hsp Htail|L fname sz num cs Hnum Hsp Hsum].
  - repeat split; auto. right. split; [reflexivity | discriminate].
  - repeat split; auto. right. split; [reflexivity | discriminate].
  - cbv zeta. destruct stream_closes; simpl; repeat split; eauto.
    + left. split; reflexivity.
    + right. split; [reflexivity | discriminate].
Qed.

Lemma sender_run_final (id : nat) (file : File.t) (new : list event)
    (out : outcome unit) (final : FTP.t) :
  sender_run id file new out final ->
  FTP.id final = id /\ FTP.direction final = send /\
  FTP.filename final = VString (File.name file) /\
  FTP.size final = VNumber (File.size file) /\
  0 <= FTP.transferred final <= File.size file /\
  match out with
  | Return _ =>
      FTP.status final = completed /\ FTP.error final = None /\
      FTP.transferred final = File.size file
  | Throw err => FTP.status final = error /\ FTP.error final = Some err
  | OutsideModel => False
  end.
Proof.
  assert (Hsize : 0 <= File.size file) by (unfold File.size; lia).
  intros [| addr | addr cs closing [_ Hle] _ | addr cs [_ Hle] Hsum]; simpl;
    repeat split; auto; try lia;
    unfold total_length in *; lia.
Qed.

(** X8. A run of the receiver never throws, whatever the stream carries and
    whichever collaborator fails; it leaves the session it started settled
    (completed, or in error with the exception that ended it), as a receive
    session under its own identifier; it leaves every other session of the
    registry and every file received before as they were, publishes at most
    one file and writes nothing to a stream. The handler installed by
    [registerProtocol] therefore has nothing to catch. *)
Theorem receiver_stays_in_its_session (env : environment) (stream : list byte)
    (s s' : state) (out : outcome unit) :
  handleIncomingTransfer env stream s = (out, s') ->
  out <> OutsideModel ->
  out = Return tt /\
  protocol_handler env stream s = (Return tt, s') /\
  (forall j, j <> uuids s -> transfers s' !! j = transfers s !! j) /\
  (exists entry,
     transfers s' !! uuids s = Some entry /\
     FTP.id entry = uuids s /\ FTP.direction entry = receive /\ settled entry) /\
  (receivedFiles s' = receivedFiles s \/
   exists f, receivedFiles s' = receivedFiles s ++ [f]) /\
  outbound s' = outbound s.
Proof.
  intros Hrun Hmodel.
  destruct (handleIncomingTransfer_run env stream s s' out Hrun Hmodel)
    as (-> & _ & Hout & new & final & published & _ & Hrr & Hmap & Hrf).
  destruct (receiver_run_final _ _ _ _ _ _ Hrr) as (Hid & Hdir & Hset & Hpub).
  split; [reflexivity|]. split.
  { unfold protocol_handler, try_catch. now rewrite Hrun. }
  split; [|split; [|split]].
  - intros j Hj. rewrite Hmap. now apply lookup_insert_ne.
  - exists final. rewrite Hmap, lookup_insert_eq. auto.
  - rewrite Hrf. destruct Hpub as [->|[f ->]]; [left; apply app_nil_r | right; eauto].
  - exact Hout.
Qed.

Lemma receiver_stays_in_its_session_witness :
  handleIncomingTransfer without_opfs cut_short hello_received
    = (Return tt, snd (handleIncomingTransfer without_opfs cut_short hello_received)) /\
  Return tt <> @OutsideModel unit /\
  (forall j, j <> 1%nat ->
     transfers (snd (handleIncomingTransfer without_opfs cut_short hello_received)) !! j
     = transfers hello_received !! j) /\
  receivedFiles (snd (handleIncomingTransfer without_opfs cut_short hello_received))
    = receivedFiles hello_received.
Proof.
  assert (Hrun : handleIncomingTransfer without_opfs cut_short hello_received
                 = (Return tt, snd (handleIncomingTransfer without_opfs cut_short
                                      hello_received))).
  { assert (E : fst (handleIncomingTransfer without_opfs cut_short hello_received)
                = Return tt) by (vm_compute; reflexivity).
    destruct (handleIncomingTransfer without_opfs cut_short hello_received) as [o s1].
    simpl in *. now rewrite E. }
  assert (Hmodel : Return tt <> @OutsideModel unit) by discriminate.
  split; [exact Hrun|]. split; [exact Hmodel|].
  destruct (receiver_stays_in_its_session without_opfs cut_short hello_received _ _
              Hrun Hmodel) as (_ & _ & Hothers & _ & Hfiles & _).
  split; [exact Hothers|].
  destruct Hfiles as [E|[f E]]; [exact E|].
  exfalso. apply (f_equal (@length _)) in E. rewrite length_app in E.
  assert (L1 : length (receivedFiles (snd (handleIncomingTransfer without_opfs cut_short
                                             hello_received))) = 1%nat)
    by (vm_compute; reflexivity).
  assert (L2 : length (receivedFiles hello_received) = 1%nat) by (vm_compute; reflexivity).
  rewrite L1, L2 in E. simpl in E. lia.
Defined.

(** X9. [sendFile], once the node is there, resolves exactly when it leaves its
    session completed, with every byte of the file counted as transferred;
    when it rejects, the session is in error and records the very exception
    the caller gets, with the progress made until then. Either way the
    entry keeps the file's name and size, no other session is touched and
    no file is published. *)
Theorem sendFile_settles_its_session (env : environment) (file : File.t) (peerId : string)
    (s s' : state) (out : outcome unit) :
  node_ready env = true ->
  sendFile env file peerId s = (out, s') ->
  (exists entry,
     transfers s' !! uuids s = Some entry /\
     FTP.id entry = uuids s /\ FTP.direction entry = send /\
     FTP.filename entry = VString (File.name file) /\
     FTP.size entry = VNumber (File.size file) /\
     0 <= FTP.transferred entry <= File.size file /\
     settled entry /\
     match out with
     | Return _ =>
         FTP.status entry = completed /\ FTP.transferred entry = File.size file
     | Throw err => FTP.status entry = error /\ FTP.error entry = Some err
     | OutsideModel => False
     end) /\
  (forall j, j <> uuids s -> transfers s' !! j = transfers s !! j) /\
  receivedFiles s' = receivedFiles s /\
  uuids s' = S (uuids s).
Proof.
  intros Hnode Hrun.
  destruct (sendFile_run env file peerId s s' out Hrun)
    as [(Hno & _)|(_ & Hu & Hrf & _ & new & final & _ & Hsr & Hmap)]; [congruence|].
  destruct (sender_run_final _ _ _ _ _ Hsr) as (Hid & Hdir & Hname & Hsize & Hb & Hout).
  split; [|split; [|split; [exact Hrf|exact Hu]]].
  - exists final. rewrite Hmap, lookup_insert_eq.
    do 6 (split; [assumption || reflexivity|]).
    destruct out as [[]|err|]; [| |contradiction].
    + destruct Hout as (Hst & He & Ht). split; [left; auto | auto].
    + destruct Hout as (Hst & He). split; [right|auto].
      split; [exact Hst|]. rewrite He. discriminate.
  - intros j Hj. rewrite Hmap. now apply lookup_insert_ne.
Qed.

Lemma sendFile_settles_its_session_witness :
  node_ready calm = true /\
  sendFile calm hello "peer" initial_state = (Return tt, hello_sent) /\
  exists entry,
    transfers hello_sent !! 0%nat = Some entry /\
    FTP.status entry = completed /\ FTP.transferred entry = 5.
Proof.
  assert (Hrun : sendFile calm hello "peer" initial_state = (Return tt, hello_sent))
    by (vm_compute; reflexivity).
  split; [reflexivity|]. split; [exact Hrun|].
  destruct (sendFile_settles_its_session calm hello "peer" initial_state hello_sent
              (Return tt) eq_refl Hrun)
    as ((entry & He & _ & _ & _ & _ & _ & _ & Hst & Ht) & _).
  exists entry. split; [exact He|]. split; [exact Hst|exact Ht].
Defined.

(** ** What [sendFile] dials and writes *)

Lemma dials_app (a b : list event) : dials (a ++ b) = dials a ++ dials b.
Proof. induction a as [|[] a IH]; simpl; auto. now rewrite IH. Qed.

Lemma slice_past_end (file : File.t) (offset : Z) :
  File.size file <= offset -> 0 <= offset ->
  File.slice file offset (offset + CHUNK_SIZE) = [].
Proof.
  unfold File.slice, File.size. intros H H0.
  rewrite drop_ge by lia. apply take_nil.
Qed.

(** The chunks the send loop writes are the successive slices of the file,
    each of the chunk size but possibly the last. *)
Lemma send_loop_slices (fuel : nat) (env : environment) (id : nat) (file : File.t) :
  forall (offset : Z) (s s' : state) (out : outcome unit),
  send_loop fuel env id file offset s = (out, s') ->
  0 <= offset -> File.size file - offset <= Z.of_nat fuel ->
  exists (cs : list (list byte)) (t : list event),
    outbound s' = outbound s ++ cs /\
    trace s' = trace s ++ t /\ dials t = [] /\
    (forall (i : nat) c, cs !! i = Some c ->
       c = File.slice file (offset + Z.of_nat i * CHUNK_SIZE)
                           (offset + Z.of_nat i * CHUNK_SIZE + CHUNK_SIZE) /\
       0 < Z.of_nat (length c) <= CHUNK_SIZE) /\
    match out with
    | Return _ =>
        Z.of_nat (length cs)
        = (Z.max 0 (File.size file - offset) + CHUNK_SIZE - 1) / CHUNK_SIZE
    | Throw e => e = StreamError
    | OutsideModel => False
    end.
Proof.
  induction fuel as [|fuel IH]; intros offset s s' out E H0 Hfuel.
  - simpl in E. destruct (Z.ltb_spec offset (File.size file)) as [?|Hge]; [lia|].
    injection E as <- <-. exists [], []. rewrite !app_nil_r.
    do 3 (split; [reflexivity|]). split; [intros i c Hc; discriminate|].
    simpl. unfold CHUNK_SIZE. rewrite Z.max_l by lia. reflexivity.
  - simpl in E. destruct (Z.ltb_spec offset (File.size file)) as [Hlt|Hge].
    2:{ injection E as <- <-. exists [], []. rewrite !app_nil_r.
        do 3 (split; [reflexivity|]). split; [intros i c Hc; discriminate|].
        simpl. unfold CHUNK_SIZE. rewrite Z.max_l by lia. reflexivity. }
    set (chunk := File.slice file offset (offset + CHUNK_SIZE)) in *.
    assert (Hlen : Z.of_nat (length chunk) = Z.min CHUNK_SIZE (File.size file - offset))
      by (apply slice_length; lia).
    unfold bind at 1 in E. unfold write at 1 in E.
    destruct (stream_write_ok env (length (outbound s))).
    2:{ injection E as <- <-. exists [], []. rewrite !app_nil_r.
        do 3 (split; [reflexivity|]). split; [intros i c Hc; discriminate|reflexivity]. }
    unfold bind at 1 in E.
    destruct (transfers_update id
                (FTP.with_transferred (offset + Z.of_nat (length chunk)))
                (set_outbound (outbound s ++ [chunk]) s)) as [o1 s1] eqn:E1.
    assert (H1 : exists t1, o1 <> OutsideModel /\ (forall e, o1 <> Throw e) /\
                            outbound s1 = outbound s ++ [chunk] /\
                            trace s1 = trace s ++ t1 /\ dials t1 = []).
    { unfold transfers_update in E1. simpl in E1.
      destruct (transfers s !! id); injection E1 as <- <-.
      - eexists [_]. simpl. repeat split; auto; discriminate.
      - exists []. simpl. rewrite app_nil_r. repeat split; auto; discriminate. }
    destruct H1 as (t1 & Hm1 & Ht1 & Hob1 & Htr1 & Hd1).
    destruct o1 as [b|e|]; [|now contradiction (Ht1 e)|contradiction].
    apply IH in E; [|lia|unfold CHUNK_SIZE in *; lia].
    destruct E as (cs & t & Hob & Htr & Hd & Hsl & Hout).
    exists (chunk :: cs), (t1 ++ t).
    rewrite Hob, Hob1, Htr, Htr1, dials_app, Hd1, Hd, <- !app_assoc.
    split; [reflexivity|]. split; [reflexivity|]. split; [reflexivity|].
    assert (Hshort : Z.of_nat (length chunk) < CHUNK_SIZE -> cs = []).
    { intros Hs. destruct cs as [|c cs]; [reflexivity|]. exfalso.
      destruct (Hsl 0%nat c eq_refl) as [Hc Hpos].
      rewrite slice_past_end in Hc by (unfold CHUNK_SIZE in *; lia).
      subst c. simpl in Hpos. lia. }
    split.
    + intros [|i] c Hc; simpl in Hc.
      * injection Hc as <-. fold chunk.
        replace (offset + Z.of_nat 0 * CHUNK_SIZE) with offset by lia. fold chunk.
        unfold CHUNK_SIZE in *. split; [reflexivity | lia].
      * destruct (Z.ltb_spec (Z.of_nat (length chunk)) CHUNK_SIZE) as [Hs|Hfull].
        { rewrite (Hshort Hs) in Hc. discriminate. }
        destruct (Hsl i c Hc) as [-> Hb]. split; [|exact Hb].
        f_equal; unfold CHUNK_SIZE in *; lia.
    + destruct out as [[]|e|]; [|exact Hout|exact Hout].
      rewrite length_cons, Nat2Z.inj_succ, Hout. unfold CHUNK_SIZE in *.
      change (1024 * 64) with 65536 in *. clear - Hlen Hlt H0.
      Z.to_euclidean_division_equations. lia.
Qed.

Lemma transfers_update_walk (id : nat) (f : FTP.t -> FTP.t) (s s' : state)
    (o : outcome bool) :
  transfers_update id f s = (o, s') ->
  outbound s' = outbound s /\ receivedFiles s' = receivedFiles s /\
  (exists b, o = Return b) /\
  exists t, trace s' = trace s ++ t /\ dials t = [] /\ closes t = 0%nat.
Proof.
  unfold transfers_update. destruct (transfers s !! id); intros [= <- <-]; simpl.
  - split; [reflexivity|]. split; [reflexivity|]. split; [eauto|]. now eexists [_].
  - split; [reflexivity|]. split; [reflexivity|]. split; [eauto|].
    exists []. now rewrite app_nil_r.
Qed.

Lemma transfers_update_required_walk (id : nat) (f : FTP.t -> FTP.t) (s s' : state)
    (o : outcome unit) :
  transfers_update_required id f s = (o, s') ->
  outbound s' = outbound s /\
  (o = Return tt \/ o = Throw JsTypeError) /\
  exists t, trace s' = trace s ++ t /\ dials t = [] /\ closes t = 0%nat.
Proof.
  unfold transfers_update_required, bind.
  destruct (transfers_update id f s) as [o1 s1] eqn:E.
  apply transfers_update_walk in E as (Hob & _ & [b ->] & Ht).
  destruct b; intros [= <- <-]; auto.
Qed.

Lemma write_walk (env : environment) (buf : list byte) (s s' : state) (o : outcome unit) :
  write env buf s = (o, s') ->
  trace s' = trace s /\
  ((o = Return tt /\ outbound s' = outbound s ++ [buf]) \/
   (o = Throw StreamError /\ outbound s' = outbound s)).
Proof.
  unfold write. destruct (stream_write_ok env _); intros [= <- <-]; simpl; auto.
Qed.

(** What [sendFile] does once it has found connections to the peer. *)
Lemma send_body_walk (env : environment) (id : nat) (file : File.t) (peerId : string)
    (s0 s1 : state) (o : outcome unit) (first : Connection) (others : list Connection) :
  send_body env id file peerId s0 = (o, s1) ->
  List.filter (fun c => String.eqb (remotePeer c) peerId) (connections env) = first :: others ->
  let chosen := match List.find is_webrtc (first :: others) with
                | Some c => c
                | None => first
                end in
  let metaBytes := fromString (JSON_stringify_metadata (File.name file) (File.size file)) in
  let lenBuf := setUint32 (Z.of_nat (length metaBytes)) in
  exists (t : list event) (ws cs : list (list byte)),
    trace s1 = trace s0 ++ EvDial (remoteAddr chosen) :: t /\ dials t = [] /\
    outbound s1 = outbound s0 ++ ws /\
    (ws = [] \/ ws = [lenBuf] \/ ws = lenBuf :: metaBytes :: cs) /\
    (forall (i : nat) c, cs !! i = Some c ->
       c = File.slice file (Z.of_nat i * CHUNK_SIZE) (Z.of_nat i * CHUNK_SIZE + CHUNK_SIZE) /\
       0 < Z.of_nat (length c) <= CHUNK_SIZE) /\
    (o = Return tt ->
       ws = lenBuf :: metaBytes :: cs /\
       Z.of_nat (length cs) = (File.size file + CHUNK_SIZE - 1) / CHUNK_SIZE) /\
    o <> OutsideModel.
Proof.
  intros B Hconns chosen metaBytes lenBuf.
  unfold send_body in B. rewrite Hconns in B. fold chosen metaBytes lenBuf in B.
  assert (Hstop : forall t ws cs e,
    o = Throw e ->
    trace s1 = trace s0 ++ EvDial (remoteAddr chosen) :: t -> dials t = [] ->
    outbound s1 = outbound s0 ++ ws ->
    (ws = [] \/ ws = [lenBuf] \/ ws = lenBuf :: metaBytes :: cs) ->
    (forall (i : nat) c, cs !! i = Some c ->
       c = File.slice file (Z.of_nat i * CHUNK_SIZE) (Z.of_nat i * CHUNK_SIZE + CHUNK_SIZE) /\
       0 < Z.of_nat (length c) <= CHUNK_SIZE) ->
    exists (t : list event) (ws cs : list (list byte)),
      trace s1 = trace s0 ++ EvDial (remoteAddr chosen) :: t /\ dials t = [] /\
      outbound s1 = outbound s0 ++ ws /\
      (ws = [] \/ ws = [lenBuf] \/ ws = lenBuf :: metaBytes :: cs) /\
      (forall (i : nat) c, cs !! i = Some c ->
         c = File.slice file (Z.of_nat i * CHUNK_SIZE) (Z.of_nat i * CHUNK_SIZE + CHUNK_SIZE) /\
         0 < Z.of_nat (length c) <= CHUNK_SIZE) /\
      (o = Return tt ->
         ws = lenBuf :: metaBytes :: cs /\
         Z.of_nat (length cs) = (File.size file + CHUNK_SIZE - 1) / CHUNK_SIZE) /\
      o <> OutsideModel).
  { intros t ws cs e -> Ht Hd Hob Hws Hsl. exists t, ws, cs.
    repeat (split; [assumption|]). split; discriminate. }
  assert (Hnone : forall (i : nat) (c : list byte), @nil (list byte) !! i = Some c ->
            c = File.slice file (Z.of_nat i * CHUNK_SIZE) (Z.of_nat i * CHUNK_SIZE + CHUNK_SIZE) /\
            0 < Z.of_nat (length c) <= CHUNK_SIZE) by (intros i c Hc; discriminate).
  (* the dial *)
  unfold bind at 1 in B. unfold dialProtocol in B. unfold bind at 1 in B.
  cbn [modify] in B. set (sd := log (EvDial (remoteAddr chosen)) s0) in B.
  destruct (dial_ok env); cbn [ret throw] in B.
  2:{ injection B as Ho <-. symmetry in Ho.
      apply (Hstop [] [] [] _ Ho); auto. simpl. now rewrite app_nil_r. }
  (* transferring *)
  unfold bind at 1 in B.
  destruct (transfers_update_required id (FTP.with_status transferring) sd)
    as [o1 sa] eqn:E1.
  apply transfers_update_required_walk in E1 as (Hob1 & Ho1 & t1 & Htr1 & Hd1 & _).
  simpl in Hob1, Htr1.
  destruct Ho1 as [->| ->].
  2:{ injection B as Ho <-. symmetry in Ho.
      apply (Hstop t1 [] [] _ Ho); auto.
      - now rewrite Htr1, <- app_assoc.
      - now rewrite Hob1, app_nil_r. }
  (* the header *)
  unfold bind at 1 in B. destruct (write env lenBuf sa) as [o2 sb] eqn:E2.
  apply write_walk in E2 as (Htr2 & [[-> Hob2]|[-> Hob2]]).
  2:{ injection B as Ho <-. symmetry in Ho.
      apply (Hstop t1 [] [] _ Ho); auto.
      - now rewrite Htr2, Htr1, <- app_assoc.
      - now rewrite Hob2, Hob1, app_nil_r. }
  unfold bind at 1 in B. destruct (write env metaBytes sb) as [o3 sc] eqn:E3.
  apply write_walk in E3 as (Htr3 & [[-> Hob3]|[-> Hob3]]).
  2:{ injection B as Ho <-. symmetry in Ho.
      apply (Hstop t1 [lenBuf] [] _ Ho); auto.
      - now rewrite Htr3, Htr2, Htr1, <- app_assoc.
      - now rewrite Hob3, Hob2, Hob1. }
  (* the payload *)
  unfold bind at 1 in B.
  destruct (send_loop (length (File.content file)) env id file 0 sc) as [o4 se] eqn:E4.
  apply send_loop_slices in E4; [|lia|unfold File.size; lia].
  destruct E4 as (cs & t4 & Hob4 & Htr4 & Hd4 & Hsl & Hout4).
  assert (Hsl' : forall (i : nat) c, cs !! i = Some c ->
            c = File.slice file (Z.of_nat i * CHUNK_SIZE) (Z.of_nat i * CHUNK_SIZE + CHUNK_SIZE) /\
            0 < Z.of_nat (length c) <= CHUNK_SIZE).
  { intros i c Hc. destruct (Hsl i c Hc) as [-> Hb]. split; [|exact Hb].
    f_equal; lia. }
  assert (Htr : trace se = trace s0 ++ EvDial (remoteAddr chosen) :: (t1 ++ t4)).
  { rewrite Htr4, Htr3, Htr2, Htr1, <- !app_assoc. reflexivity. }
  assert (Hob : outbound se = outbound s0 ++ lenBuf :: metaBytes :: cs).
  { rewrite Hob4, Hob3, Hob2, Hob1, <- !app_assoc. reflexivity. }
  assert (Hd : dials (t1 ++ t4) = []) by now rewrite dials_app, Hd1, Hd4.
  destruct o4 as [[]|e4|]; [| |contradiction].
  2:{ injection B as Ho <-. symmetry in Ho. apply (Hstop _ _ cs _ Ho Htr Hd Hob); auto. }
  (* closing *)
  unfold bind at 1 in B. unfold stream_close in B.
  destruct (stream_close_ok env).
  2:{ injection B as Ho <-. symmetry in Ho.
      apply (Hstop (t1 ++ t4 ++ [EvClose]) (lenBuf :: metaBytes :: cs) cs _ Ho);
        [|now rewrite !dials_app, Hd1, Hd4|exact Hob|auto|exact Hsl'].
      simpl. rewrite Htr, <- !app_assoc. simpl. now rewrite <- !app_assoc. }
  destruct (transfers_update_required id (FTP.with_status completed) (log EvClose se))
    as [o5 sf] eqn:E5.
  injection B as <- <-.
  apply transfers_update_required_walk in E5 as (Hob5 & Ho5 & t5 & Htr5 & Hd5 & _).
  simpl in Hob5, Htr5.
  assert (Htr' : trace sf = trace s0 ++ EvDial (remoteAddr chosen)
                                    :: (t1 ++ t4 ++ [EvClose] ++ t5)).
  { rewrite Htr5. simpl. rewrite Htr, <- !app_assoc. simpl. now rewrite <- !app_assoc. }
  assert (Hd' : dials (t1 ++ t4 ++ [EvClose] ++ t5) = [])
    by now rewrite !dials_app, Hd1, Hd4, Hd5.
  rewrite <- Hob5 in Hob.
  destruct Ho5 as [->| ->]; [|apply (Hstop _ _ cs _ eq_refl Htr' Hd' Hob); auto].
  exists (t1 ++ t4 ++ [EvClose] ++ t5), (lenBuf :: metaBytes :: cs), cs.
  split; [exact Htr'|]. split; [exact Hd'|]. split; [exact Hob|]. split; [auto|].
  split; [exact Hsl'|]. split; [|discriminate].
  intros _. split; [reflexivity|]. rewrite Hout4.
  f_equal. unfold File.size. lia.
Qed.

Lemma sendFile_walk (env : environment) (file : File.t) (peerId : string)
    (s s' : state) (out : outcome unit) (first : Connection) (others : list Connection) :
  sendFile env file peerId s = (out, s') ->
  node_ready env = true ->
  List.filter (fun c => String.eqb (remotePeer c) peerId) (connections env) = first :: others ->
  let chosen := match List.find is_webrtc (first :: others) with
                | Some c => c
                | None => first
                end in
  let metaBytes := fromString (JSON_stringify_metadata (File.name file) (File.size file)) in
  let lenBuf := setUint32 (Z.of_nat (length metaBytes)) in
  exists (t : list event) (ws cs : list (list byte)),
    trace s' = trace s ++ EvRegistry (uuids s) (pending_entry (uuids s) file)
                       :: EvDial (remoteAddr chosen) :: t /\
    dials t = [] /\
    outbound s' = outbound s ++ ws /\
    (ws = [] \/ ws = [lenBuf] \/ ws = lenBuf :: metaBytes :: cs) /\
    (forall (i : nat) c, cs !! i = Some c ->
       c = File.slice file (Z.of_nat i * CHUNK_SIZE) (Z.of_nat i * CHUNK_SIZE + CHUNK_SIZE) /\
       0 < Z.of_nat (length c) <= CHUNK_SIZE) /\
    (out = Return tt ->
       ws = lenBuf :: metaBytes :: cs /\
       Z.of_nat (length cs) = (File.size file + CHUNK_SIZE - 1) / CHUNK_SIZE).
Proof.
  intros E Hnode Hconns chosen metaBytes lenBuf.
  unfold sendFile in E. rewrite Hnode in E.
  unfold bind at 1 in E. cbn [randomUUID] in E.
  unfold bind at 1 in E. cbn [transfers_set modify] in E.
  fold (pending_entry (uuids s) file) in E.
  set (s0 := log (EvRegistry (uuids s) (pending_entry (uuids s) file)) _) in E.
  unfold try_catch in E.
  destruct (send_body env (uuids s) file peerId s0) as [o s1] eqn:B.
  destruct (send_body_walk env (uuids s) file peerId s0 s1 o first others B Hconns)
    as (t & ws & cs & Htr & Hd & Hob & Hws & Hsl & Hret & Hmodel).
  fold chosen metaBytes lenBuf in Htr, Hws, Hret.
  subst s0. simpl in Htr, Hob.
  destruct o as [[]|e|]; [| |contradiction].
  - injection E as <- <-. exists t, ws, cs.
    rewrite Htr, <- app_assoc. auto 7.
  - unfold bind in E.
    destruct (transfers_update (uuids s) _ s1) as [o2 s2] eqn:E2.
    apply transfers_update_walk in E2 as (Hob2 & _ & [b ->] & t2 & Htr2 & Hd2 & _).
    injection E as <- <-. exists (t ++ t2), ws, cs.
    rewrite Htr2, Htr, Hob2, Hob, dials_app, Hd, Hd2, <- !app_assoc.
    do 5 (split; [auto|]). discriminate.
Qed.

Lemma find_in_filter {A} (p q : A -> bool) (before after : list A) (c : A) :
  Forall (fun x => p x && q x = false) before -> p c = true -> q c = true ->
  List.find q (List.filter p (before ++ c :: after)) = Some c.
Proof.
  intros Hb Hp Hq. induction Hb as [|x before Hx _ IH]; simpl.
  - now rewrite Hp; simpl; rewrite Hq.
  - destruct (p x); simpl in *; [rewrite Hx|]; exact IH.
Qed.

Lemma filter_head {A} (p : A -> bool) (before after : list A) (c : A) :
  Forall (fun x => p x = false) before -> p c = true ->
  List.filter p (before ++ c :: after) = c :: List.filter p after.
Proof.
  intros Hb Hp. induction Hb as [|x before Hx _ IH]; simpl.
  - now rewrite Hp.
  - now rewrite Hx.
Qed.

Lemma find_none_in_filter {A} (p q : A -> bool) (l : list A) :
  (forall x, In x l -> p x = true -> q x = false) ->
  List.find q (List.filter p l) = None.
Proof.
  induction l as [|x l IH]; intros H; simpl; [reflexivity|].
  destruct (p x) eqn:Hp; simpl.
  - rewrite (H x (or_introl eq_refl) Hp). apply IH. intros y Hy. apply H. now right.
  - apply IH. intros y Hy. apply H. now right.
Qed.

(** X10. [sendFile] dials at most once. Without a connection to the peer it
    rejects with [Not connected to peer] and neither dials nor writes. With
    connections to the peer it dials the address of the first of them that
    is WebRTC, in the order [getConnections()] gives, and, when none is, the
    address of the first connection to the peer. *)
Theorem sendFile_dials_preferred_connection (env : environment) (file : File.t)
    (peerId : string) (s s' : state) (out : outcome unit) :
  node_ready env = true ->
  sendFile env file peerId s = (out, s') ->
  exists new,
    trace s' = trace s ++ new /\
    ((forall c, In c (connections env) -> remotePeer c <> peerId) ->
       out = Throw (JsError "Not connected to peer") /\
       dials new = [] /\ outbound s' = outbound s) /\
    (forall before c after,
       connections env = before ++ c :: after ->
       remotePeer c = peerId -> is_webrtc c = true ->
       Forall (fun x => remotePeer x = peerId -> is_webrtc x = false) before ->
       dials new = [remoteAddr c]) /\
    (forall before c after,
       connections env = before ++ c :: after ->
       remotePeer c = peerId ->
       Forall (fun x => remotePeer x <> peerId) before ->
       (forall x, In x after -> remotePeer x = peerId -> is_webrtc x = false) ->
       dials new = [remoteAddr c]).
Proof.
  intros Hnode E.
  set (p := fun c => String.eqb (remotePeer c) peerId).
  destruct (List.filter p (connections env)) as [|first others] eqn:Hconns.
  - (* no connection to the peer *)
    assert (Hnone : forall c, In c (connections env) -> remotePeer c <> peerId).
    { intros c Hc Hp.
      assert (Hin : In c (List.filter p (connections env))).
      { apply filter_In. split; [exact Hc|]. unfold p. now apply String.eqb_eq. }
      rewrite Hconns in Hin. destruct Hin. }
    unfold sendFile in E. rewrite Hnode in E.
    unfold bind at 1 in E. cbn [randomUUID] in E.
    unfold bind at 1 in E. cbn [transfers_set modify] in E.
    unfold try_catch, send_body in E. fold p in E. rewrite Hconns in E.
    cbn [throw] in E. unfold bind, transfers_update in E. simpl in E.
    rewrite lookup_insert_eq in E. injection E as <- <-. simpl.
    eexists. split; [rewrite <- app_assoc; reflexivity|].
    split; [intros _; auto|]. split.
    + intros before c after Hc Hp _ _. exfalso. apply (Hnone c); [|exact Hp].
      rewrite Hc. apply in_or_app. right. now left.
    + intros before c after Hc Hp _ _. exfalso. apply (Hnone c); [|exact Hp].
      rewrite Hc. apply in_or_app. right. now left.
  - destruct (sendFile_walk env file peerId s s' out first others E Hnode Hconns)
      as (t & ws & cs & Htr & Hd & _).
    eexists. split; [exact Htr|]. cbn [dials]. rewrite Hd.
    split; [|split].
    + intros Hnone. exfalso.
      assert (Hin : In first (List.filter p (connections env)))
        by (rewrite Hconns; now left).
      apply filter_In in Hin as [Hin Hp]. apply (Hnone first Hin).
      unfold p in Hp. now apply String.eqb_eq in Hp.
    + intros before c after Hc Hp Hw Hb.
      assert (Hfind : List.find is_webrtc (first :: others) = Some c).
      { rewrite <- Hconns, Hc. apply find_in_filter; [|unfold p; now apply String.eqb_eq|exact Hw].
        eapply Forall_impl; [exact Hb|]. intros x Hx. unfold p.
        destruct (String.eqb_spec (remotePeer x) peerId) as [Hpx|_]; [|reflexivity].
        simpl. auto. }
      now rewrite Hfind.
    + intros before c after Hc Hp Hb Hafter.
      assert (Hhead : first = c /\ others = List.filter p after).
      { rewrite Hc, filter_head in Hconns.
        - now injection Hconns as -> ->.
        - eapply Forall_impl; [exact Hb|]. intros x Hx. unfold p.
          now apply String.eqb_neq.
        - unfold p. now apply String.eqb_eq. }
      destruct Hhead as [-> ->].
      destruct (is_webrtc c) eqn:Hw; [simpl; now rewrite Hw|].
      assert (Hfind : List.find is_webrtc (c :: List.filter p after) = None).
      { simpl. rewrite Hw. apply find_none_in_filter. intros x Hx Hpx.
        apply Hafter; [exact Hx|]. unfold p in Hpx. now apply String.eqb_eq in Hpx. }
      now rewrite Hfind.
Qed.

Lemma sendFile_dials_preferred_connection_witness :
  node_ready calm = true /\
  sendFile calm hello "peer" initial_state = (Return tt, hello_sent) /\
  dials (trace hello_sent) = ["/webrtc"].
Proof.
  assert (Hrun : sendFile calm hello "peer" initial_state = (Return tt, hello_sent))
    by (vm_compute; reflexivity).
  split; [reflexivity|]. split; [exact Hrun|].
  destruct (sendFile_dials_preferred_connection calm hello "peer" initial_state hello_sent
              (Return tt) eq_refl Hrun) as (new & Htr & _ & Hweb & _).
  rewrite Htr. simpl.
  apply (Hweb [{| remotePeer := "peer"; remoteAddr := "/p2p-circuit"; is_webrtc := false |}]
              {| remotePeer := "peer"; remoteAddr := "/webrtc"; is_webrtc := true |} []);
    try reflexivity.
  repeat constructor.
Defined.

(** X11. What [sendFile] writes to the stream is, in this order, the four-byte
    length of the metadata, the metadata, and the slices of the file at
    multiples of the chunk size, each written on its own and none longer
    than 65536 bytes; a run that fails has written a beginning of that
    sequence. When [sendFile] resolves, the whole sequence is on the
    stream: the two header writes and one write for each started chunk of
    the file's size. *)
Theorem sendFile_writes_header_then_slices (env : environment) (file : File.t)
    (peerId : string) (s s' : state) (out : outcome unit) :
  node_ready env = true ->
  sendFile env file peerId s = (out, s') ->
  let metaBytes := fromString (JSON_stringify_metadata (File.name file) (File.size file)) in
  let lenBuf := setUint32 (Z.of_nat (length metaBytes)) in
  exists (ws cs : list (list byte)),
    outbound s' = outbound s ++ ws /\
    (ws = [] \/ ws = [lenBuf] \/ ws = lenBuf :: metaBytes :: cs) /\
    (forall (i : nat) c, cs !! i = Some c ->
       c = File.slice file (Z.of_nat i * CHUNK_SIZE) (Z.of_nat i * CHUNK_SIZE + CHUNK_SIZE) /\
       0 < Z.of_nat (length c) <= CHUNK_SIZE) /\
    (out = Return tt ->
       ws = lenBuf :: metaBytes :: cs /\
       Z.of_nat (length cs) = (File.size file + CHUNK_SIZE - 1) / CHUNK_SIZE /\
       Z.of_nat (length ws) = 2 + (File.size file + CHUNK_SIZE - 1) / CHUNK_SIZE).
Proof.
  intros Hnode E metaBytes lenBuf.
  destruct (List.filter (fun c => String.eqb (remotePeer c) peerId) (connections env))
    as [|first others] eqn:Hconns.
  - unfold sendFile in E. rewrite Hnode in E.
    unfold bind at 1 in E. cbn [randomUUID] in E.
    unfold bind at 1 in E. cbn [transfers_set modify] in E.
    unfold try_catch, send_body in E. rewrite Hconns in E.
    cbn [throw] in E. unfold bind, transfers_update in E. simpl in E.
    rewrite lookup_insert_eq in E. injection E as <- <-. simpl.
    exists [], []. rewrite app_nil_r. split; [reflexivity|]. split; [auto|].
    split; [intros i c Hc; discriminate | discriminate].
  - destruct (sendFile_walk env file peerId s s' out first others E Hnode Hconns)
      as (t & ws & cs & _ & _ & Hob & Hws & Hsl & Hret).
    exists ws, cs. split; [exact Hob|]. split; [exact Hws|]. split; [exact Hsl|].
    intros Hout. destruct (Hret Hout) as [-> Hn].
    split; [reflexivity|]. split; [exact Hn|].
    rewrite !length_cons, !Nat2Z.inj_succ, Hn. lia.
Qed.

Lemma sendFile_writes_header_then_slices_witness :
  node_ready calm = true /\
  sendFile calm hello "peer" initial_state = (Return tt, hello_sent) /\
  exists ws cs : list (list byte),
    outbound hello_sent = outbound initial_state ++ ws /\
    Z.of_nat (length cs) = (File.size hello + CHUNK_SIZE - 1) / CHUNK_SIZE /\
    Z.of_nat (length ws) = 2 + (File.size hello + CHUNK_SIZE - 1) / CHUNK_SIZE.
Proof.
  assert (Hrun : sendFile calm hello "peer" initial_state = (Return tt, hello_sent))
    by (vm_compute; reflexivity).
  split; [reflexivity|]. split; [exact Hrun|].
  destruct (sendFile_writes_header_then_slices calm hello "peer" initial_state hello_sent
              (Return tt) eq_refl Hrun) as (ws & cs & Hob & _ & _ & Hret).
  destruct (Hret eq_refl) as (_ & Hn & Hw).
  exists ws, cs. auto.
Defined.

Lemma sender_run_closes (id : nat) (file : File.t) (new : list event)
    (out : outcome unit) (final : FTP.t) :
  sender_run id file new out final ->
  (closes new = 0%nat /\ out <> Return tt) \/
  (closes new = 1%nat /\ FTP.transferred final = File.size file).
Proof.
  intros [| addr | addr cs closing Hsent Hclosing | addr cs Hsent Hsum]; cbv zeta.
  - left. split; [reflexivity | discriminate].
  - left. split; [reflexivity | discriminate].
  - simpl. rewrite !closes_app, closes_send.
    destruct Hclosing as [->|[-> Hsum]]; simpl.
    + left. split; [reflexivity | discriminate].
    + right. split; [reflexivity | exact Hsum].
  - simpl. rewrite !closes_app, closes_send. simpl. right. split; [reflexivity|exact Hsum].
Qed.

(** X12. [sendFile] closes the stream at most once, and only after the last
    byte of the file has been written and counted: whenever it has closed
    the stream, its session shows the whole size as transferred, so that a
    run which ends with less than the whole file counted has not closed the
    stream it opened; a run that resolves has closed it. *)
Theorem sender_closes_stream_after_last_chunk (env : environment) (file : File.t)
    (peerId : string) (s s' : state) (out : outcome unit) :
  sendFile env file peerId s = (out, s') ->
  exists new,
    trace s' = trace s ++ new /\
    (closes new <= 1)%nat /\
    (out = Return tt -> closes new = 1%nat) /\
    (closes new = 1%nat ->
       exists entry,
         transfers s' !! uuids s = Some entry /\
         FTP.transferred entry = File.size file).
Proof.
  intros E.
  destruct (sendFile_run env file peerId s s' out E)
    as [(Hno & -> & ->)|(Hnode & _ & _ & _ & new & final & Htr & Hsr & Hmap)].
  { exists []. rewrite app_nil_r. simpl. repeat split; auto; discriminate. }
  exists new. split; [exact Htr|].
  destruct (sender_run_closes _ _ _ _ _ Hsr) as [[Hc Hout]|[Hc Ht]]; rewrite Hc.
  - split; [lia|]. split; [intros ->; now contradiction Hout|discriminate].
  - split; [lia|]. split; [reflexivity|]. intros _.
    exists final. rewrite Hmap, lookup_insert_eq. split; [reflexivity|exact Ht].
Qed.

Lemma sender_closes_stream_after_last_chunk_witness :
  sendFile calm hello "peer" initial_state = (Return tt, hello_sent) /\
  closes (trace hello_sent) = 1%nat /\
  exists entry,
    transfers hello_sent !! 0%nat = Some entry /\ FTP.transferred entry = File.size hello.
Proof.
  assert (Hrun : sendFile calm hello "peer" initial_state = (Return tt, hello_sent))
    by (vm_compute; reflexivity).
  split; [exact Hrun|].
  destruct (sender_closes_stream_after_last_chunk calm hello "peer" initial_state
              hello_sent (Return tt) Hrun) as (new & Htr & _ & Hret & Hall).
  split; [rewrite Htr; exact (Hret eq_refl) | exact (Hall (Hret eq_refl))].
Defined.

(** ** What the receiver takes from the stream *)

(** A receive loop that stores to the OPFS file and comes to its end had
    every one of its writes accepted. *)
Lemma receive_loop_stored (fuel : nat) (env : environment) (id : nat) (total : Z) :
  forall (remaining : Z) (chunks : list (list byte)) (file : list byte) (k : nat)
         (s s' : state) (r : list (list byte) * list byte),
  receive_loop fuel env id total true remaining chunks file k s = (Return r, s') ->
  forall j : nat, (k <= j)%nat -> Z.of_nat (j - k) * CHUNK_SIZE < remaining ->
  opfs_write_ok env j = true.
Proof.
  induction fuel as [|f IH]; intros remaining chunks file k s s' r Hrun j Hkj Hj;
    simpl in Hrun; destruct (Z.ltb_spec 0 remaining) as [Hpos|Hle];
    try discriminate; try (unfold CHUNK_SIZE in Hj; lia).
  unfold bind at 1 in Hrun. unfold read in Hrun.
  set (n := Z.min remaining CHUNK_SIZE) in *.
  destruct (Z.ltb_spec (Z.of_nat (length (inbound s))) n) as [Heof|Henough];
    [discriminate|].
  set (chunk := take (Z.to_nat n) (inbound s)) in *.
  assert (Hchunk : Z.of_nat (length chunk) = n).
  { subst chunk n. rewrite length_take. unfold CHUNK_SIZE in *. lia. }
  unfold bind at 1 in Hrun. unfold bind at 1 in Hrun. unfold writable_write in Hrun.
  destruct (opfs_write_ok env k) eqn:Hk; [|discriminate].
  cbn [modify ret] in Hrun. unfold bind at 1 in Hrun.
  destruct (transfers_update id _ _) as [o1 s1] eqn:E1 in Hrun.
  apply transfers_update_walk in E1 as (_ & _ & [b ->] & _).
  cbn [fst snd] in Hrun.
  destruct (decide (j = k)) as [->|Hne]; [exact Hk|].
  eapply (IH _ _ _ _ _ _ _ Hrun j); [lia|].
  rewrite Hchunk. subst n. unfold CHUNK_SIZE in *.
  replace (Z.of_nat (j - k)) with (Z.of_nat (j - S k) + 1) in Hj by lia. lia.
Qed.

Lemma reads_loop_bound (id : nat) (e : FTP.t) (w : bool) (total : Z)
    (cs : list (list byte)) :
  forall remaining,
  Forall (fun n => n <= CHUNK_SIZE) (reads (loop_events id e w total remaining cs)).
Proof.
  induction cs as [|c cs IH]; intros remaining; simpl; constructor; [lia | apply IH].
Qed.

(** A stream whose header decodes, whatever follows it: the receiver either
    stores the declared number of bytes, publishes them and closes the
    stream, or fails without publishing. *)
Lemma receive_decoded (env : environment) (s : state)
    (lenBuf metaBytes body : list byte) (text rest : string)
    (v fname sz : jsvalue) (num : number) :
  length lenBuf = 4%nat ->
  getUint32 lenBuf = Z.of_nat (length metaBytes) ->
  Z.of_nat (length metaBytes) <= 10000 ->
  TextDecoder_decode metaBytes = Some text ->
  JSON_parse text = Parsed v rest ->
  get_property v "filename" = ret fname ->
  get_property v "size" = ret sz ->
  ToNumber sz = Some num ->
  let id := uuids s in
  let total := Z.max 0 (declared_total num) in
  exists (s' : state) (new : list event),
    handleIncomingTransfer env (lenBuf ++ metaBytes ++ body) s = (Return tt, s') /\
    trace s' = trace s ++ new /\
    ((total <= Z.of_nat (length body) /\
      receivedFiles s' = receivedFiles s
        ++ [{| ReceivedFile.filename := fname;
               ReceivedFile.blob := take (Z.to_nat total) body |}] /\
      inbound s' = drop (Z.to_nat total) body /\
      closes new = 1%nat /\
      Forall (fun n => n <= CHUNK_SIZE) (reads new) /\
      (opfs_available env = true ->
         opfs_close_ok env = true /\
         forall j : nat, Z.of_nat j * CHUNK_SIZE < total -> opfs_write_ok env j = true))
     \/
     (exists err,
        receivedFiles s' = receivedFiles s /\
        transfers s' = <[id := error_entry id err]> (transfers s) /\
        closes new = 0%nat /\
        ((err = UnexpectedEOFError /\ Z.of_nat (length body) < total) \/
         (err = StorageError /\ opfs_available env = true /\
          ((exists j, opfs_write_ok env j = false) \/
           (opfs_close_ok env = false /\ total <= Z.of_nat (length body))))))).
Proof.
  intros Hlen4 HL Hmax Hdec Hparse Hfn Hsz Hnum id total.
  rewrite handleIncomingTransfer_unfold. cbv zeta. fold id.
  unfold receive_body.
  erewrite bind_return; [|apply read_prefix; [now rewrite Hlen4|reflexivity]].
  rewrite HL. destruct (Z.ltb_spec 10000 (Z.of_nat (length metaBytes))) as [?|_]; [lia|].
  erewrite bind_return; [|apply read_prefix; [reflexivity|reflexivity]].
  erewrite bind_return; [|unfold parse_metadata; rewrite Hdec, Hparse; reflexivity].
  rewrite Hfn, Hsz.
  erewrite bind_return; [|reflexivity]. erewrite bind_return; [|reflexivity].
  erewrite bind_return; [|reflexivity]. erewrite bind_return; [|reflexivity].
  set (e0 := {| FTP.id := id |}). rewrite Hnum.
  set (s3 := log (EvAcquire _) _).
  set (a := opfs_available env) in *.
  assert (Hs3 : inbound s3 = body /\ receivedFiles s3 = receivedFiles s /\
                transfers s3 = <[id := e0]> (transfers s) /\
                exists h, trace s3 = trace s ++ h /\ closes h = 0%nat /\
                          Forall (fun n => n <= CHUNK_SIZE) (reads h)).
  { subst s3. simpl. repeat split; auto. eexists. rewrite <- !app_assoc. simpl.
    split; [reflexivity|]. split; [reflexivity|].
    unfold CHUNK_SIZE. repeat constructor; lia. }
  destruct Hs3 as (Hin3 & Hrf3 & Hmap3 & h & Htr3 & Hch & Hrh). clearbody s3.
  (* the payload *)
  unfold bind at 1.
  destruct ((fun s1 : state =>
               match num with
               | NaN => ret ([], []) s1
               | Num total0 =>
                   receive_loop (S (length (inbound s1))) env id total0 a total0 [] [] 0 s1
               end) s3) as [ol s4] eqn:El.
  assert (Hloop : exists cs tail,
    trace s4 = trace s3 ++ loop_events id e0 a (declared_total num) (declared_total num) cs
                        ++ tail /\
    receivedFiles s4 = receivedFiles s3 /\
    (exists last, transfers s4 = <[id := last]> (transfers s)) /\
    match ol with
    | Return (chunks', file') =>
        tail = [] /\ total_length cs = total /\ body = concat cs ++ inbound s4 /\
        chunks' = (if a then [] else cs) /\ file' = (if a then concat cs else []) /\
        (a = true ->
           forall j : nat, Z.of_nat j * CHUNK_SIZE < total -> opfs_write_ok env j = true)
    | Throw err =>
        (exists n, tail = [EvRead n]) /\
        ((err = UnexpectedEOFError /\ Z.of_nat (length body) < total) \/
         (err = StorageError /\ a = true /\ exists j, opfs_write_ok env j = false))
    | OutsideModel => False
    end).
  { cbv beta in El. destruct num as [|total0].
    - injection El as <- <-. exists [], []. simpl. rewrite app_nil_r.
      split; [reflexivity|]. split; [reflexivity|]. split; [eauto|].
      split; [reflexivity|]. split; [reflexivity|]. split; [now symmetry|].
      split; [now destruct a|]. split; [now destruct a|].
      intros _ j Hj. unfold total, CHUNK_SIZE in Hj. simpl in Hj. lia.
    - assert (Hw : forall cf, ol = Return cf -> a = true ->
                forall j : nat, Z.of_nat j * CHUNK_SIZE < total -> opfs_write_ok env j = true).
      { intros cf -> Ha j Hj. rewrite Ha in El.
        apply (receive_loop_stored _ _ _ _ _ _ _ _ _ _ _ El j); [lia|].
        rewrite Nat.sub_0_r. unfold total, CHUNK_SIZE in *. simpl in Hj. lia. }
      apply receive_loop_run with (e := e0) in El;
        [|lia|rewrite Hmap3; apply lookup_insert_eq|simpl; lia].
      destruct El as (cs & tail & Htr & Hrf & _ & _ & _ & _ & Hmap & Hout).
      exists cs, tail. split; [exact Htr|]. split; [exact Hrf|].
      split; [rewrite Hmap, Hmap3, insert_insert_eq; eauto|].
      destruct ol as [[chunks' file']|err|]; [| |exact Hout].
      + destruct Hout as (-> & Hsum & Hinb & -> & ->). rewrite Hin3 in Hinb.
        simpl. do 5 (split; [auto|]). exact (Hw _ eq_refl).
      + destruct Hout as [Htail [[-> Hshort]|Hst]]; (split; [exact Htail|]).
        * left. rewrite Hin3 in Hshort. subst total. simpl. split; [reflexivity | lia].
        * now right. }
  destruct Hloop as (cs & tail & Htr4 & Hrf4 & [last Hmap4] & Hout).
  assert (Hrl := reads_loop_bound id e0 a (declared_total num) cs (declared_total num)).
  assert (Hcl : closes (loop_events id e0 a (declared_total num) (declared_total num) cs) = 0%nat)
    by apply closes_loop.
  assert (Hfail : forall err s1 t,
    trace s1 = trace s ++ t -> closes t = 0%nat ->
    receivedFiles s1 = receivedFiles s ->
    (exists last, transfers s1 = <[id := last]> (transfers s)) ->
    ((err = UnexpectedEOFError /\ Z.of_nat (length body) < total) \/
     (err = StorageError /\ a = true /\
      ((exists j, opfs_write_ok env j = false) \/
       (opfs_close_ok env = false /\ total <= Z.of_nat (length body))))) ->
    exists s' new,
      (Return tt,
       log (EvRegistry id (error_entry id err))
         (set_transfers (<[id := error_entry id err]> (transfers s1)) s1)) = (Return tt, s') /\
      trace s' = trace s ++ new /\
      ((total <= Z.of_nat (length body) /\
        receivedFiles s' = receivedFiles s
          ++ [{| ReceivedFile.filename := fname;
                 ReceivedFile.blob := take (Z.to_nat total) body |}] /\
        inbound s' = drop (Z.to_nat total) body /\
        closes new = 1%nat /\
        Forall (fun n => n <= CHUNK_SIZE) (reads new) /\
        (a = true ->
           opfs_close_ok env = true /\
           forall j : nat, Z.of_nat j * CHUNK_SIZE < total -> opfs_write_ok env j = true))
       \/
       (exists err0,
          receivedFiles s' = receivedFiles s /\
          transfers s' = <[id := error_entry id err0]> (transfers s) /\
          closes new = 0%nat /\
          ((err0 = UnexpectedEOFError /\ Z.of_nat (length body) < total) \/
           (err0 = StorageError /\ a = true /\
            ((exists j, opfs_write_ok env j = false) \/
             (opfs_close_ok env = false /\ total <= Z.of_nat (length body)))))))).
  { intros err s1 t Ht Hc Hrf [l Hm] Herr. eexists _, (t ++ [_]).
    split; [reflexivity|]. simpl. rewrite Ht, <- app_assoc.
    split; [reflexivity|]. right. exists err.
    rewrite Hrf, Hm, insert_insert_eq, closes_app, Hc. auto. }
  destruct ol as [[chunks' file']|err|]; [| |contradiction].
  2:{ destruct Hout as [[n ->] Herr].
      apply (Hfail err s4 (h ++ loop_events id e0 a (declared_total num)
                                  (declared_total num) cs ++ [EvRead n])).
      - rewrite Htr4, Htr3, <- !app_assoc. reflexivity.
      - rewrite !closes_app, Hch, Hcl. reflexivity.
      - congruence.
      - eauto.
      - destruct Herr as [?|(? & ? & ?)]; auto. }
  destruct Hout as (-> & Hsum & Hbody & -> & -> & Hw). rewrite app_nil_r in Htr4.
  assert (Hblob : concat cs = take (Z.to_nat total) body /\
                  inbound s4 = drop (Z.to_nat total) body /\
                  total <= Z.of_nat (length body)).
  { rewrite Hbody. unfold total_length in Hsum. rewrite <- Hsum, Nat2Z.id.
    rewrite take_app_length, drop_app_length, length_app. repeat split; auto. lia. }
  destruct Hblob as (Hblob & Hrest & Hge).
  (* finalize *)
  cbn [fst snd]. unfold bind at 1.
  destruct a eqn:Ha.
  - unfold writable_close at 1. unfold bind at 1.
    destruct (opfs_close_ok env) eqn:Hc.
    2:{ apply (Hfail StorageError s4 (h ++ loop_events id e0 true (declared_total num)
                                          (declared_total num) cs)).
        - rewrite Htr4, Htr3, <- !app_assoc. reflexivity.
        - rewrite !closes_app, Hch, Hcl. reflexivity.
        - congruence.
        - eauto.
        - right. auto. }
    cbn [ret]. unfold transfers_update_required, transfers_update.
    unfold bind at 1. unfold bind at 1. rewrite Hmap4, lookup_insert_eq.
    unfold bind at 1. cbn [modify ret]. unfold stream_close.
    destruct (stream_close_ok env); eexists _, _; (split; [reflexivity|]); simpl;
      rewrite Htr4, Htr3, Hrf4, Hrf3, Hblob, Hrest, <- ?app_assoc;
      (split; [reflexivity|]); left;
      (split; [exact Hge|]); (split; [reflexivity|]); (split; [reflexivity|]);
      (split; [rewrite ?closes_app, Hch, Hcl; reflexivity|]);
      (split; [rewrite ?reads_app; repeat (apply Forall_app; split); simpl; auto|]);
      auto.
  - cbn [ret]. unfold transfers_update_required, transfers_update.
    unfold bind at 1. unfold bind at 1. rewrite Hmap4, lookup_insert_eq.
    unfold bind at 1. cbn [modify ret]. unfold stream_close.
    destruct (stream_close_ok env); eexists _, _; (split; [reflexivity|]); simpl;
      rewrite Htr4, Htr3, Hrf4, Hrf3, Hblob, Hrest, <- ?app_assoc;
      (split; [reflexivity|]); left;
      (split; [exact Hge|]); (split; [reflexivity|]); (split; [reflexivity|]);
      (split; [rewrite ?closes_app, Hch, Hcl; reflexivity|]);
      (split; [rewrite ?reads_app; repeat (apply Forall_app; split); simpl; auto|]);
      discriminate.
Qed.

(** The same for the header [sendFile] composes for a name and a size. *)
Lemma receive_declared (env : environment) (s : state) (name : string) (size : Z)
    (body : list byte) :
  well_formed name = true ->
  0 <= size <= 2 ^ 53 ->
  Z.of_nat (length (fromString (JSON_stringify_metadata name size))) <= 10000 ->
  let id := uuids s in
  exists (s' : state) (new : list event),
    handleIncomingTransfer env (framed (JSON_stringify_metadata name size) ++ body) s
      = (Return tt, s') /\
    trace s' = trace s ++ new /\
    ((size <= Z.of_nat (length body) /\
      receivedFiles s' = receivedFiles s
        ++ [{| ReceivedFile.filename := VString name;
               ReceivedFile.blob := take (Z.to_nat size) body |}] /\
      inbound s' = drop (Z.to_nat size) body /\
      closes new = 1%nat /\
      Forall (fun n => n <= CHUNK_SIZE) (reads new) /\
      (opfs_available env = true ->
         opfs_close_ok env = true /\
         forall j : nat, Z.of_nat j * CHUNK_SIZE < size -> opfs_write_ok env j = true))
     \/
     (exists err,
        receivedFiles s' = receivedFiles s /\
        transfers s' = <[id := error_entry id err]> (transfers s) /\
        closes new = 0%nat /\
        ((err = UnexpectedEOFError /\ Z.of_nat (length body) < size) \/
         (err = StorageError /\ opfs_available env = true /\
          ((exists j, opfs_write_ok env j = false) \/
           (opfs_close_ok env = false /\ size <= Z.of_nat (length body))))))).
Proof.
  intros Hname Hsize Hmeta id.
  set (text := JSON_stringify_metadata name size) in *.
  destruct (receive_decoded env s (setUint32 (Z.of_nat (length (fromString text))))
              (fromString text) body text ""
              (VObject [("filename", VString name); ("size", VNumber size)])
              (VString name) (VNumber size) (Num size))
    as (s' & new & Hrun & Htr & Hcases).
  - reflexivity.
  - rewrite getUint32_setUint32. apply Z.mod_small. lia.
  - exact Hmeta.
  - apply decode_metadata_text; [lia | exact Hname].
  - now apply JSON_parse_stringify_metadata.
  - reflexivity.
  - reflexivity.
  - reflexivity.
  - exists s', new. unfold framed. fold text. rewrite <- app_assoc.
    split; [exact Hrun|]. split; [exact Htr|].
    simpl declared_total in Hcases. rewrite Z.max_r in Hcases by lia. exact Hcases.
Qed.

(** X13. The receiver takes from the stream the header and the number of bytes
    the header declares, and no more: when the stream, which the read
    buffer can hold whole, carries at least that many bytes behind the
    header and storage works, the file published is exactly the first
    [size] of them, the stream is closed once, and every byte after them is
    still unread. *)
Theorem surplus_bytes_stay_on_the_stream (env : environment) (s : state)
    (name : string) (size : Z) (body : list byte) :
  well_formed name = true ->
  0 <= size <= 2 ^ 53 ->
  Z.of_nat (length (fromString (JSON_stringify_metadata name size))) <= 10000 ->
  size <= Z.of_nat (length body) ->
  fits_buffer (framed (JSON_stringify_metadata name size) ++ body) ->
  (opfs_available env = true ->
     (forall k, opfs_write_ok env k = true) /\ opfs_close_ok env = true) ->
  exists (s' : state) (new : list event),
    handleIncomingTransfer env (framed (JSON_stringify_metadata name size) ++ body) s
      = (Return tt, s') /\
    trace s' = trace s ++ new /\
    receivedFiles s' = receivedFiles s
      ++ [{| ReceivedFile.filename := VString name;
             ReceivedFile.blob := take (Z.to_nat size) body |}] /\
    inbound s' = drop (Z.to_nat size) body /\
    Z.of_nat (length (inbound s')) = Z.of_nat (length body) - size /\
    closes new = 1%nat /\
    Forall (fun n => n <= CHUNK_SIZE) (reads new).
Proof.
  intros Hname Hsize Hmeta Hbody _ Hopfs.
  destruct (receive_declared env s name size body Hname Hsize Hmeta)
    as (s' & new & Hrun & Htr & [(_ & Hrf & Hin & Hc & Hr & _)|(err & _ & _ & _ & Herr)]).
  - exists s', new. do 4 (split; [assumption|]). split; [|split; [exact Hc|exact Hr]].
    rewrite Hin, length_drop. lia.
  - exfalso. destruct Herr as [[_ Hshort]|(_ & Ha & Hst)]; [lia|].
    destruct (Hopfs Ha) as [Hw Hc].
    destruct Hst as [[j Hj]|[Hcl _]]; [rewrite Hw in Hj|rewrite Hc in Hcl]; discriminate.
Qed.

Lemma surplus_bytes_stay_on_the_stream_witness :
  exists (s' : state) (new : list event),
    handleIncomingTransfer calm hello_and_more initial_state = (Return tt, s') /\
    trace s' = trace initial_state ++ new /\
    receivedFiles s' = receivedFiles initial_state
      ++ [{| ReceivedFile.filename := VString "hello.txt";
             ReceivedFile.blob := take (Z.to_nat 5) (fromString "hellomore") |}] /\
    inbound s' = drop (Z.to_nat 5) (fromString "hellomore") /\
    Z.of_nat (length (inbound s')) = Z.of_nat (length (fromString "hellomore")) - 5 /\
    closes new = 1%nat /\
    Forall (fun n => n <= CHUNK_SIZE) (reads new).
Proof.
  apply (surplus_bytes_stay_on_the_stream calm initial_state "hello.txt" 5
           (fromString "hellomore")).
  - reflexivity.
  - vm_compute. split; discriminate.
  - vm_compute. discriminate.
  - vm_compute. discriminate.
  - vm_compute. discriminate.
  - intros _. split; reflexivity.
Defined.





(** ** Sessions one after the other *)

Lemma run_pipeline_fresh (env : environment) (p : pipeline) (s s' : state)
    (out : outcome unit) :
  run_pipeline env p s = (out, s') -> out <> OutsideModel ->
  fresh_uuids s ->
  fresh_uuids s' /\
  (forall j, (j < uuids s)%nat -> transfers s' !! j = transfers s !! j) /\
  (exists published, receivedFiles s' = receivedFiles s ++ published) /\
  if records_session env p
  then uuids s' = S (uuids s) /\
       size (transfers s') = S (size (transfers s)) /\
       exists entry, transfers s' !! uuids s = Some entry /\ FTP.id entry = uuids s /\
                     settled entry
  else s' = s.
Proof.
  intros Hrun Hmodel Hfresh. destruct p as [stream|file peerId]; simpl in *.
  - destruct (handleIncomingTransfer_run env stream s s' out Hrun Hmodel)
      as (_ & Hu & _ & new & final & published & _ & Hrr & Hmap & Hrf).
    destruct (receiver_run_final _ _ _ _ _ _ Hrr) as (Hid & _ & Hset & _).
    split; [|split; [|split; [eauto|split; [exact Hu|split]]]].
    + intros j Hj. rewrite Hmap, lookup_insert_ne by lia. apply Hfresh. lia.
    + intros j Hj. rewrite Hmap. apply lookup_insert_ne. lia.
    + rewrite Hmap. apply map_size_insert_None. apply Hfresh. lia.
    + exists final. rewrite Hmap, lookup_insert_eq. auto.
  - destruct (sendFile_run env file peerId s s' out Hrun)
      as [(Hno & _ & ->)|(Hnode & Hu & Hrf & _ & new & final & _ & Hsr & Hmap)].
    + rewrite Hno. repeat split; auto. exists []. now rewrite app_nil_r.
    + rewrite Hnode.
      destruct (sender_run_final _ _ _ _ _ Hsr) as (Hid & _ & _ & _ & _ & Hout).
      split; [|split; [|split; [|split; [exact Hu|split]]]].
      * intros j Hj. rewrite Hmap, lookup_insert_ne by lia. apply Hfresh. lia.
      * intros j Hj. rewrite Hmap. apply lookup_insert_ne. lia.
      * exists []. now rewrite app_nil_r.
      * rewrite Hmap. apply map_size_insert_None. apply Hfresh. lia.
      * exists final. rewrite Hmap, lookup_insert_eq. split; [reflexivity|].
        split; [exact Hid|].
        destruct out as [[]|err|]; [| |contradiction].
        -- left. tauto.
        -- right. destruct Hout as [Hst He]. split; [exact Hst|]. rewrite He. discriminate.
Qed.

(** X16. Any number of transfers, sends and receives in any order, run one
    after the other on a composable leave one entry each in the registry
    (a send without a node leaves none): each under an identifier of its
    own, each settled, none overwritten or removed by a later transfer;
    and the list of received files only grows. *)
Theorem sessions_do_not_interfere (env : environment) (ps : list pipeline) :
  forall (s s' : state),
  fresh_uuids s ->
  run_pipelines env ps s = Some s' ->
  let n := length (List.filter (records_session env) ps) in
  fresh_uuids s' /\
  uuids s' = (uuids s + n)%nat /\
  size (transfers s') = (size (transfers s) + n)%nat /\
  (forall j, (j < uuids s)%nat -> transfers s' !! j = transfers s !! j) /\
  (forall j, (uuids s <= j < uuids s')%nat ->
     exists entry, transfers s' !! j = Some entry /\ FTP.id entry = j /\ settled entry) /\
  exists published, receivedFiles s' = receivedFiles s ++ published.
Proof.
  induction ps as [|p ps IH]; intros s s' Hfresh Hrun; simpl in Hrun.
  - injection Hrun as <-. simpl. rewrite !Nat.add_0_r.
    repeat split; auto; [intros j Hj; lia|exists []; now rewrite app_nil_r].
  - destruct (run_pipeline env p s) as [out s1] eqn:E.
    assert (Hmodel : out <> OutsideModel) by (intros ->; discriminate).
    assert (Hrest : run_pipelines env ps s1 = Some s') by (now destruct out).
    clear Hrun.
    destruct (run_pipeline_fresh env p s s1 out E Hmodel Hfresh)
      as (Hf1 & Hold1 & [pub1 Hrf1] & Hrec).
    destruct (IH s1 s' Hf1 Hrest) as (Hf & Hu & Hsz & Hold & Hnew & [pub Hrf]).
    cbv zeta. simpl List.filter.
    destruct (records_session env p).
    + destruct Hrec as (Hu1 & Hsz1 & entry & He & Hid & Hset).
      simpl length. split; [exact Hf|]. split; [lia|]. split; [lia|].
      split; [|split].
      * intros j Hj. rewrite Hold by lia. apply Hold1. exact Hj.
      * intros j Hj. destruct (decide (j = uuids s)) as [->|Hne].
        -- exists entry. rewrite Hold by lia. auto.
        -- apply Hnew. lia.
      * exists (pub1 ++ pub). now rewrite Hrf, Hrf1, app_assoc.
    + subst s1. split; [exact Hf|]. split; [exact Hu|]. split; [exact Hsz|].
      split; [exact Hold|]. split; [exact Hnew|]. eauto.
Qed.

Lemma sessions_do_not_interfere_witness :
  let ps := [Send hello "peer"; Receive hello_cut; Receive (wire hello);
             Send hello "nobody"] in
  fresh_uuids initial_state /\
  exists s',
    run_pipelines calm ps initial_state = Some s' /\
    uuids s' = 4%nat /\ size (transfers s') = 4%nat /\
    (FTP.status <$> transfers s' !! 0%nat) = Some completed /\
    (FTP.status <$> transfers s' !! 1%nat) = Some error /\
    (FTP.status <$> transfers s' !! 2%nat) = Some completed /\
    (FTP.status <$> transfers s' !! 3%nat) = Some error.
Proof.
  cbv zeta.
  assert (Hfresh : fresh_uuids initial_state) by (intros j _; apply lookup_empty).
  split; [exact Hfresh|].
  destruct (run_pipelines calm
              [Send hello "peer"; Receive hello_cut; Receive (wire hello);
               Send hello "nobody"] initial_state) as [s'|] eqn:E;
    [|vm_compute in E; discriminate].
  exists s'. split; [reflexivity|].
  destruct (sessions_do_not_interfere calm _ initial_state s' Hfresh E)
    as (_ & Hu & Hsz & _).
  split; [exact Hu|]. split; [exact Hsz|].
  assert (E' : Some s' = run_pipelines calm
                 [Send hello "peer"; Receive hello_cut; Receive (wire hello);
                  Send hello "nobody"] initial_state) by (now rewrite E).
  clear E Hu Hsz.
  assert (Hst : forall j st,
            (FTP.status <$> (transfers <$> run_pipelines calm
                 [Send hello "peer"; Receive hello_cut; Receive (wire hello);
                  Send hello "nobody"] initial_state) ≫= (.!! j)) = st ->
            (FTP.status <$> transfers s' !! j) = st).
  { intros j st <-. now rewrite <- E'. }
  repeat split; apply Hst; vm_compute; reflexivity.
Defined.

(** ** [clearTransfer] and [downloadFile] *)

(** X17. Clearing the session a transfer has just left removes what the
    transfer added to the registry and nothing else: the registry is again
    what it was before the transfer, the files received stay, and the
    identifier is not handed out again, so that a later session cannot take
    the place of a cleared one. Clearing an identifier the registry does
    not hold changes nothing. *)
Theorem clearTransfer_forgets_one_session (env : environment) (p : pipeline)
    (s s1 : state) (out : outcome unit) :
  fresh_uuids s ->
  run_pipeline env p s = (out, s1) ->
  out <> OutsideModel ->
  let s2 := snd (clearTransfer (uuids s) s1) in
  fst (clearTransfer (uuids s) s1) = Return tt /\
  transfers s2 = transfers s /\
  receivedFiles s2 = receivedFiles s1 /\
  uuids s2 = uuids s1 /\
  fresh_uuids s2 /\
  trace s2 = trace s1 /\
  forall id, transfers s1 !! id = None -> snd (clearTransfer id s1) = s1.
Proof.
  intros Hfresh Hrun Hmodel. cbv zeta. unfold clearTransfer, modify. cbn [fst snd].
  destruct (run_pipeline_fresh env p s s1 out Hrun Hmodel Hfresh)
    as (Hf1 & Hold & _ & Hrec).
  assert (Hmap : delete (uuids s) (transfers s1) = transfers s).
  { apply map_eq. intros j. destruct (decide (j = uuids s)) as [->|Hne].
    - rewrite lookup_delete_eq. symmetry. apply Hfresh. lia.
    - rewrite lookup_delete_ne by congruence.
      destruct (records_session env p).
      + destruct Hrec as (Hu & _). destruct (Nat.lt_ge_cases j (uuids s)) as [Hlt|Hge].
        * now apply Hold.
        * rewrite (Hfresh j) by lia. apply Hf1. lia.
      + now subst s1. }
  simpl. rewrite Hmap. repeat split; auto.
  - intros j Hj. simpl in *. apply Hfresh.
    destruct (records_session env p); [destruct Hrec as [Hu _]; lia | subst s1; lia].
  - intros id Hid. unfold set_transfers. rewrite (delete_id _ _ Hid). now destruct s1.
Qed.

Lemma clearTransfer_forgets_one_session_witness :
  fresh_uuids hello_received /\
  run_pipeline calm (Receive hello_cut) hello_received
    = (Return tt, snd (handleIncomingTransfer calm hello_cut hello_received)) /\
  transfers (snd (clearTransfer 1
               (snd (handleIncomingTransfer calm hello_cut hello_received))))
    = transfers hello_received /\
  receivedFiles (snd (clearTransfer 1
                   (snd (handleIncomingTransfer calm hello_cut hello_received))))
    = receivedFiles (snd (handleIncomingTransfer calm hello_cut hello_received)).
Proof.
  assert (Hu : uuids hello_received = 1%nat) by (vm_compute; reflexivity).
  assert (Hfresh : fresh_uuids hello_received).
  { assert (E : transfers hello_received
                = <[0%nat := FTP.with_status completed
                              (FTP.with_transferred 5
                                 (start_entry 0 (VString "hello.txt") (VNumber 5)))]>
                    (∅ : gmap nat FTP.t)) by (vm_compute; reflexivity).
    intros j Hj. rewrite Hu in Hj. rewrite E.
    rewrite lookup_insert_ne by lia. apply lookup_empty. }
  assert (Hrun : run_pipeline calm (Receive hello_cut) hello_received
                 = (Return tt, snd (handleIncomingTransfer calm hello_cut hello_received))).
  { change (run_pipeline calm (Receive hello_cut) hello_received)
      with (handleIncomingTransfer calm hello_cut hello_received).
    assert (E : fst (handleIncomingTransfer calm hello_cut hello_received) = Return tt)
      by (vm_compute; reflexivity).
    rewrite <- E. apply surjective_pairing. }
  split; [exact Hfresh|]. split; [exact Hrun|].
  destruct (clearTransfer_forgets_one_session calm (Receive hello_cut) hello_received
              _ (Return tt) Hfresh Hrun) as (_ & Hmap & Hrf & _); [discriminate|].
  rewrite Hu in Hmap, Hrf. split; [exact Hmap | exact Hrf].
Defined.

Lemma find_named (filename : string) (files : list ReceivedFile.t) :
  match List.find (named filename) files with
  | Some f =>
      exists before after,
        files = before ++ f :: after /\
        ReceivedFile.filename f = VString filename /\
        Forall (fun g => ReceivedFile.filename g <> VString filename) before
  | None => Forall (fun g => ReceivedFile.filename g <> VString filename) files
  end.
Proof.
  induction files as [|g files IH]; simpl; [constructor|].
  assert (Hg : named filename g = true <-> ReceivedFile.filename g = VString filename).
  { unfold named. destruct (ReceivedFile.filename g); try (split; [discriminate|congruence]).
    rewrite String.eqb_eq. split; [congruence | now intros [= ->]]. }
  destruct (named filename g) eqn:E.
  - exists [], files. split; [reflexivity|]. split; [now apply Hg | constructor].
  - assert (Hne : ReceivedFile.filename g <> VString filename).
    { intros H. apply Hg in H. discriminate. }
    destruct (List.find (named filename) files) as [f|].
    + destruct IH as (before & after & -> & Hf & Hb).
      exists (g :: before), after. split; [reflexivity|]. split; [exact Hf|].
      now constructor.
    + now constructor.
Qed.

Lemma downloadFile_first (filename : string) (files : list ReceivedFile.t) (url : nat)
    (before after : list ReceivedFile.t) (f : ReceivedFile.t) :
  files = before ++ f :: after ->
  ReceivedFile.filename f = VString filename ->
  Forall (fun g => ReceivedFile.filename g <> VString filename) before ->
  downloadFile filename files url
  = [CreateObjectURL (ReceivedFile.blob f) url; AnchorClick url filename;
     RevokeObjectURL url].
Proof.
  intros E Hf Hb. unfold downloadFile. pose proof (find_named filename files) as H.
  destruct (List.find (named filename) files) as [f0|].
  - destruct H as (before0 & after0 & E0 & Hf0 & Hb0). rewrite E0 in E.
    assert (Hsame : f = f0).
    { clear - E Hf Hb Hf0 Hb0. revert before0 E Hb0.
      induction before as [|x before IH]; intros [|y before0] E Hb0; simpl in E.
      - now injection E as ->.
      - injection E as <- _. inversion Hb0; subst. contradiction.
      - injection E as -> _. inversion Hb; subst. contradiction.
      - injection E as _ E. inversion Hb; inversion Hb0; subst. eapply IH; eauto. }
    now subst f0.
  - exfalso. rewrite E in H. apply Forall_app in H as [_ H]. inversion H; subst.
    contradiction.
Qed.

(** X18. [downloadFile] offers the first file received under the name asked
    for, with that name, through an object URL it revokes again; a file
    received later under a name already in the list can therefore not be
    downloaded. For a name under which nothing was received it does
    nothing. *)
Theorem downloadFile_takes_first_of_name (filename : string)
    (files : list ReceivedFile.t) (url : nat) :
  (forall before f after,
     files = before ++ f :: after ->
     ReceivedFile.filename f = VString filename ->
     Forall (fun g => ReceivedFile.filename g <> VString filename) before ->
     downloadFile filename files url
     = [CreateObjectURL (ReceivedFile.blob f) url; AnchorClick url filename;
        RevokeObjectURL url] /\
     forall later, In later after -> ReceivedFile.blob later <> ReceivedFile.blob f ->
       ~ In (CreateObjectURL (ReceivedFile.blob later) url)
            (downloadFile filename files url)) /\
  (downloadFile filename files url = [] <->
   Forall (fun g => ReceivedFile.filename g <> VString filename) files) /\
  (forall blob, In (CreateObjectURL blob url) (downloadFile filename files url) ->
     In (RevokeObjectURL url) (downloadFile filename files url) /\
     exists f, In f files /\ ReceivedFile.filename f = VString filename /\
               ReceivedFile.blob f = blob).
Proof.
  split; [|split].
  - intros before f after E Hf Hb.
    rewrite (downloadFile_first filename files url before after f E Hf Hb).
    split; [reflexivity|].
    intros later _ Hne [[= Heq]|[[=]|[[=]|[]]]]. now apply Hne.
  - unfold downloadFile. pose proof (find_named filename files) as H.
    destruct (List.find (named filename) files) as [f0|]; [|tauto].
    destruct H as (before0 & after0 & -> & Hf0 & Hb0).
    split; [discriminate|]. intros Hall. exfalso.
    apply Forall_app in Hall as [_ Hall]. inversion Hall; subst. contradiction.
  - unfold downloadFile. pose proof (find_named filename files) as H.
    destruct (List.find (named filename) files) as [f0|]; [|intros blob []].
    destruct H as (before0 & after0 & -> & Hf0 & Hb0).
    intros blob [[= <-]|[[=]|[[=]|[]]]]. split; [simpl; auto|].
    exists f0. split; [apply in_or_app; right; now left | auto].
Qed.

(** X19. A file that is sent, received and then downloaded by its name comes
    out of the browser with the bytes it had at the sender, under the name
    it had there, provided the header check lets it through, the read
    buffer can hold its frame, the sender gets its writes through, the
    receiver's storage works and no file was received under that name
    before. *)
Theorem sent_file_is_downloaded_as_sent (envS envR : environment) (file : File.t)
    (peerId : string) (sS sR : state) (url : nat) :
  acceptable file ->
  node_ready envS = true ->
  List.filter (fun c => String.eqb (remotePeer c) peerId) (connections envS) <> [] ->
  dial_ok envS = true ->
  (forall k, stream_write_ok envS k = true) ->
  outbound sS = [] ->
  (opfs_available envR = true ->
     (forall k, opfs_write_ok envR k = true) /\ opfs_close_ok envR = true) ->
  Forall (fun g => ReceivedFile.filename g <> VString (File.name file)) (receivedFiles sR) ->
  exists outS sS' sR',
    sendFile envS file peerId sS = (outS, sS') /\
    handleIncomingTransfer envR (concat (outbound sS')) sR = (Return tt, sR') /\
    downloadFile (File.name file) (receivedFiles sR') url
    = [CreateObjectURL (File.content file) url; AnchorClick url (File.name file);
       RevokeObjectURL url].
Proof.
  intros Hfile Hnode Hconn Hdial Hwrite Hout Hopfs Hnew.
  destruct (sendFile_wire envS file peerId sS Hnode Hconn Hdial Hwrite)
    as (outS & sS' & Hsend & Hwire & _).
  rewrite Hout in Hwire. simpl in Hwire.
  destruct (receive_file_frame envR sR file [] Hfile Hopfs)
    as (cs & sR' & Hrun & _ & _ & Hrf & _ & _).
  rewrite app_nil_r in Hrun.
  exists outS, sS', sR'. rewrite Hwire. split; [exact Hsend|]. split; [exact Hrun|].
  apply (downloadFile_first _ _ url (receivedFiles sR) []
           {| ReceivedFile.filename := VString (File.name file);
              ReceivedFile.blob := File.content file |});
    [exact Hrf | reflexivity | exact Hnew].
Qed.

Lemma sent_file_is_downloaded_as_sent_witness :
  acceptable hello /\
  exists outS sS' sR',
    sendFile calm hello "peer" initial_state = (outS, sS') /\
    handleIncomingTransfer without_opfs (concat (outbound sS')) initial_state
      = (Return tt, sR') /\
    downloadFile "hello.txt" (receivedFiles sR') 7
    = [CreateObjectURL (fromString "hello") 7; AnchorClick 7 "hello.txt";
       RevokeObjectURL 7].
Proof.
  split; [exact hello_acceptable|].
  apply (sent_file_is_downloaded_as_sent calm without_opfs hello "peer" initial_state
           initial_state 7 hello_acceptable); try reflexivity.
  - vm_compute. discriminate.
  - intros [=].
  - constructor.
Defined.

(** ** The watcher of [node] *)

Lemma take_turns_app (self : nat) (a b : list turn) (c : composable) :
  take_turns self (a ++ b) c = take_turns self b (take_turns self a c).
Proof. apply fold_left_app. Qed.

Lemma take_turns_nulls (self : nat) (n : nat) :
  forall c,
  take_turns self (repeat (NodeChanged None) n) c
  = {| protocolRegistered := protocolRegistered c; nodes := nodes c;
       calls := calls c ++ repeat Skipped n |}.
Proof.
  induction n as [|n IH]; intros c.
  - simpl. rewrite app_nil_r. now destruct c.
  - change (take_turns self (repeat (NodeChanged None) (S n)) c)
      with (take_turns self (repeat (NodeChanged None) n) (take_turn self (NodeChanged None) c)).
    rewrite IH. simpl. now rewrite <- app_assoc.
Qed.

Lemma lookup_snoc {A} (l : list A) (x : A) : (l ++ [x]) !! length l = Some x.
Proof. induction l as [|a l IH]; [reflexivity|exact IH]. Qed.

Lemma insert_snoc {A} (l : list A) (x y : A) : <[length l := y]> (l ++ [x]) = l ++ [y].
Proof. induction l as [|a l IH]; [reflexivity|]. simpl. now rewrite IH. Qed.

Lemma insert_unhandled (self : nat) (nodes0 : gmap nat Libp2p) (libp2p : nat)
    (node0 : Libp2p) :
  nodes0 !! libp2p = Some node0 ->
  <[libp2p := installed self node0]> (alter (unhandle FILE_TRANSFER_PROTOCOL) libp2p nodes0)
  = <[libp2p := installed self node0]> nodes0.
Proof.
  intros H. apply map_eq. intros i. destruct (decide (i = libp2p)) as [->|N].
  - now rewrite !lookup_insert_eq.
  - rewrite !lookup_insert_ne by congruence. now rewrite lookup_alter_ne by congruence.
Qed.

(** Once the flag is set and no call is waiting, nothing changes any more. *)
Lemma registered_stays (self : nat) (ts : list turn) :
  forall c,
  protocolRegistered c = true -> quiescent c ->
  let c' := take_turns self ts c in
  protocolRegistered c' = true /\ nodes c' = nodes c /\ quiescent c'.
Proof.
  induction ts as [|t ts IH]; intros c Hf Hq; [now cbv zeta|].
  assert (H1 : protocolRegistered (take_turn self t c) = true /\
               nodes (take_turn self t c) = nodes c /\ quiescent (take_turn self t c)).
  { destruct t as [newNode|k]; unfold take_turn.
    - assert (E : on_node newNode c = (Skipped, c)).
      { unfold on_node. destruct newNode; [now rewrite Hf|reflexivity]. }
      rewrite E. cbn [protocolRegistered nodes calls]. split; [exact Hf|]. split; [reflexivity|].
      unfold quiescent in *. cbn [calls]. apply Forall_app. split; [exact Hq|].
      now repeat constructor.
    - destruct (calls c !! k) as [r|] eqn:Hk; [|auto].
      assert (Hr : returned r = true).
      { unfold quiescent in Hq. rewrite Forall_forall in Hq. apply Hq.
        eapply list_elem_of_lookup_2, Hk. }
      destruct r; try discriminate; cbn [resume];
        rewrite list_insert_id by exact Hk; now destruct c. }
  destruct H1 as (Hf1 & Hn1 & Hq1).
  destruct (IH _ Hf1 Hq1) as (Hf2 & Hn2 & Hq2).
  change (take_turns self (t :: ts) c) with (take_turns self ts (take_turn self t c)).
  cbv zeta. rewrite Hn2, Hn1. auto.
Qed.

(** The three steps of a registration that goes through. *)
Lemma turn_call (self libp2p : nat) (c : composable) :
  protocolRegistered c = false ->
  take_turn self (NodeChanged (Some libp2p)) c
  = {| protocolRegistered := false;
       nodes := alter (unhandle FILE_TRANSFER_PROTOCOL) libp2p (nodes c);
       calls := calls c ++ [AwaitsUnhandle libp2p] |}.
Proof.
  intros Hf. unfold take_turn, on_node, registerProtocol. rewrite Hf. reflexivity.
Qed.

Lemma turn_install (self k libp2p : nat) (c : composable) (node0 : Libp2p) :
  calls c !! k = Some (AwaitsUnhandle libp2p) ->
  nodes c !! libp2p = Some (unhandled node0) ->
  take_turn self (Resumed k) c
  = {| protocolRegistered := protocolRegistered c;
       nodes := <[libp2p := installed self node0]> (nodes c);
       calls := <[k := AwaitsHandle libp2p]> (calls c) |}.
Proof.
  intros Hk Hn. unfold take_turn. rewrite Hk. cbn [resume]. rewrite Hn, handle_unhandled.
  reflexivity.
Qed.

Lemma turn_set_flag (self k libp2p : nat) (c : composable) :
  calls c !! k = Some (AwaitsHandle libp2p) ->
  take_turn self (Resumed k) c
  = {| protocolRegistered := true; nodes := nodes c;
       calls := <[k := Registered libp2p]> (calls c) |}.
Proof. intros Hk. unfold take_turn. rewrite Hk. reflexivity. Qed.

Lemma take_turns_cons (self : nat) (t : turn) (ts : list turn) (c : composable) :
  take_turns self (t :: ts) c = take_turns self ts (take_turn self t c).
Proof. reflexivity. Qed.

(** X20. The watcher registers the handler on the first node that [node.value]
    holds; as long as [node.value] is null nothing is registered. When the
    registration of the first node has run to its end before [node.value]
    changes again, that node holds the handler and whatever happens later
    touches no node: a node that takes the place of the first one is left
    without the handler. When [node.value] changes while the registration
    of the first node is awaiting, the flag is not set yet, and the node
    that comes in gets the handler as well. *)
Theorem watcher_registers_first_node_only (self : nat) (nodes0 : gmap nat Libp2p)
    (n : nat) (libp2p : nat) (node0 : Libp2p) (later : list turn) :
  nodes0 !! libp2p = Some node0 ->
  let nulls := repeat (NodeChanged None) n in
  let first := nulls ++ [NodeChanged (Some libp2p); Resumed n; Resumed n] in
  let registered := <[libp2p := installed self node0]> nodes0 in
  take_turns self nulls (set_up nodes0)
    = {| protocolRegistered := false; nodes := nodes0; calls := repeat Skipped n |} /\
  take_turns self first (set_up nodes0)
    = {| protocolRegistered := true; nodes := registered;
         calls := repeat Skipped n ++ [Registered libp2p] |} /\
  (let c := take_turns self (first ++ later) (set_up nodes0) in
   protocolRegistered c = true /\ nodes c = registered /\ quiescent c) /\
  forall (other : nat) (node1 : Libp2p),
    other <> libp2p -> nodes0 !! other = Some node1 ->
    let raced := take_turns self
                   [NodeChanged (Some libp2p); NodeChanged (Some other);
                    Resumed 0; Resumed 1; Resumed 0; Resumed 1]
                   (set_up nodes0) in
    protocolRegistered raced = true /\
    nodes raced = <[other := installed self node1]> registered /\
    calls raced = [Registered libp2p; Registered other].
Proof.
  intros Hnode nulls first registered.
  assert (Hnulls : take_turns self nulls (set_up nodes0)
                   = {| protocolRegistered := false; nodes := nodes0;
                        calls := repeat Skipped n |}).
  { subst nulls. now rewrite take_turns_nulls. }
  assert (Hfirst : take_turns self first (set_up nodes0)
                   = {| protocolRegistered := true; nodes := registered;
                        calls := repeat Skipped n ++ [Registered libp2p] |}).
  { subst first. rewrite take_turns_app, Hnulls.
    set (skipped := repeat Skipped n).
    assert (Hlen : n = length skipped) by (subst skipped; now rewrite repeat_length).
    clearbody skipped. clear Hnulls. subst nulls. rewrite Hlen. clear Hlen.
    rewrite take_turns_cons, turn_call by reflexivity. cbn [nodes calls].
    rewrite take_turns_cons, (turn_install self (length skipped) libp2p _ node0);
      [|cbn [calls]; apply lookup_snoc
       |cbn [nodes]; rewrite lookup_alter_eq, Hnode; reflexivity].
    cbn [nodes calls protocolRegistered]. rewrite insert_snoc.
    rewrite take_turns_cons, (turn_set_flag self (length skipped) libp2p);
      [|cbn [calls]; apply lookup_snoc].
    cbn [nodes calls protocolRegistered take_turns fold_left].
    rewrite insert_snoc.
    subst registered. now rewrite insert_unhandled. }
  split; [exact Hnulls|]. split; [exact Hfirst|]. split.
  - rewrite take_turns_app, Hfirst.
    apply (registered_stays self later
             {| protocolRegistered := true; nodes := registered;
                calls := repeat Skipped n ++ [Registered libp2p] |}); [reflexivity|].
    unfold quiescent. cbn [calls]. apply Forall_app. split.
    + apply Forall_forall. intros r Hr. apply list_elem_of_In, repeat_spec in Hr. now subst r.
    + now repeat constructor.
  - intros other node1 Hne Hother.
    rewrite take_turns_cons, turn_call by reflexivity. cbn [nodes calls set_up app].
    rewrite take_turns_cons, turn_call by reflexivity. cbn [nodes calls app].
    rewrite take_turns_cons, (turn_install self 0 libp2p _ node0);
      [|reflexivity
       |cbn [nodes]; rewrite lookup_alter_ne by congruence;
        rewrite lookup_alter_eq, Hnode; reflexivity].
    cbn [nodes calls protocolRegistered].
    rewrite take_turns_cons, (turn_install self 1 other _ node1);
      [|reflexivity
       |cbn [nodes]; rewrite lookup_insert_ne by congruence;
        rewrite lookup_alter_eq, lookup_alter_ne by congruence; rewrite Hother; reflexivity].
    cbn [nodes calls protocolRegistered].
    rewrite take_turns_cons, (turn_set_flag self 0 libp2p) by reflexivity.
    cbn [nodes calls protocolRegistered].
    rewrite take_turns_cons, (turn_set_flag self 1 other) by reflexivity.
    cbn [nodes calls protocolRegistered take_turns fold_left].
    split; [reflexivity|]. split; [|reflexivity].
    subst registered. apply map_eq. intros i.
    destruct (decide (i = other)) as [->|No].
    { now rewrite !lookup_insert_eq. }
    rewrite !(lookup_insert_ne _ other) by congruence.
    destruct (decide (i = libp2p)) as [->|Nl].
    { now rewrite !lookup_insert_eq. }
    rewrite !lookup_insert_ne by congruence. now rewrite !lookup_alter_ne by congruence.
Qed.

Lemma watcher_registers_first_node_only_witness :
  let fresh_node := {| handlers := [("/ipfs/id/1.0.0", 1%nat)] |} in
  let nodes0 : gmap nat Libp2p := <[1%nat := fresh_node]> {[0%nat := reused_node]} in
  let first := [NodeChanged None; NodeChanged None; NodeChanged (Some 0%nat);
                Resumed 2; Resumed 2] in
  let later := [NodeChanged None; NodeChanged (Some 1%nat); Resumed 4; Resumed 4] in
  let c := take_turns 7 (first ++ later) (set_up nodes0) in
  nodes0 !! 0%nat = Some reused_node /\
  protocolRegistered c = true /\
  nodes c = <[0%nat := installed 7 reused_node]> nodes0 /\
  nodes c !! 1%nat = Some fresh_node /\
  (forall env stream s,
     deliver (handlers fresh_node) FILE_TRANSFER_PROTOCOL 7 env stream s = (Return tt, s)) /\
  nodes (take_turns 7 [NodeChanged (Some 0%nat); NodeChanged (Some 1%nat);
                       Resumed 0; Resumed 1; Resumed 0; Resumed 1] (set_up nodes0))
    = <[1%nat := installed 7 fresh_node]> (<[0%nat := installed 7 reused_node]> nodes0).
Proof.
  intros fresh_node nodes0 first later c.
  assert (H0 : nodes0 !! 0%nat = Some reused_node) by (vm_compute; reflexivity).
  assert (H1 : nodes0 !! 1%nat = Some fresh_node) by (vm_compute; reflexivity).
  destruct (watcher_registers_first_node_only 7 nodes0 2 0 reused_node later H0)
    as (_ & _ & (Hf & Hn & _) & Hrace).
  destruct (Hrace 1%nat fresh_node ltac:(discriminate) H1) as (_ & Hraced & _).
  split; [exact H0|]. split; [exact Hf|]. split; [exact Hn|].
  split; [|split; [|exact Hraced]].
  - assert (E : nodes c = <[0%nat := installed 7 reused_node]> nodes0) by exact Hn.
    rewrite E, lookup_insert_ne by discriminate. exact H1.
  - intros env stream s. now apply deliver_others.
Defined.

(** ** The header, by itself *)

(** X21. The header [sendFile] composes is read back by the receiver's decoding
    steps for every file name that is well-formed text, whatever quotes,
    backslashes or control characters it holds, and every size up to 2^53:
    the four-byte prefix gives the length of the metadata as long as that
    is below 2^32 (and the length modulo 2^32 beyond), and decoding and
    parsing the metadata bytes give an object whose [filename] and [size]
    are the name and the size that went in. *)
Theorem metadata_header_round_trip (name : string) (size : Z) :
  well_formed name = true ->
  0 <= size <= 2 ^ 53 ->
  let metaBytes := fromString (JSON_stringify_metadata name size) in
  let lenBuf := setUint32 (Z.of_nat (length metaBytes)) in
  length lenBuf = 4%nat /\
  getUint32 lenBuf = Z.of_nat (length metaBytes) mod 2 ^ 32 /\
  (Z.of_nat (length metaBytes) < 2 ^ 32 -> getUint32 lenBuf = Z.of_nat (length metaBytes)) /\
  forall s : state,
    exists metadata,
      parse_metadata metaBytes s = (Return metadata, s) /\
      get_property metadata "filename" s = (Return (VString name), s) /\
      get_property metadata "size" s = (Return (VNumber size), s) /\
      ToNumber (VNumber size) = Some (Num size).
Proof.
  intros Hname Hsize metaBytes lenBuf. split; [reflexivity|].
  subst lenBuf. rewrite getUint32_setUint32. split; [reflexivity|].
  split; [intros Hlt; apply Z.mod_small; lia|].
  intros s. exists (VObject [("filename", VString name); ("size", VNumber size)]).
  split; [|repeat split].
  unfold parse_metadata. subst metaBytes.
  rewrite decode_metadata_text by (lia || assumption).
  now rewrite JSON_parse_stringify_metadata.
Qed.

Lemma metadata_header_round_trip_witness :
  let name := Http.odd_address in
  let metaBytes := fromString (JSON_stringify_metadata name 196625) in
  well_formed name = true /\ 0 <= 196625 <= 2 ^ 53 /\
  getUint32 (setUint32 (Z.of_nat (length metaBytes))) = 42 /\
  forall s : state,
    exists metadata,
      parse_metadata metaBytes s = (Return metadata, s) /\
      get_property metadata "filename" s = (Return (VString name), s) /\
      get_property metadata "size" s = (Return (VNumber 196625), s) /\
      ToNumber (VNumber 196625) = Some (Num 196625).
Proof.
  cbv zeta.
  assert (Hname : well_formed Http.odd_address = true) by reflexivity.
  assert (Hsize : 0 <= 196625 <= 2 ^ 53) by (vm_compute; split; discriminate).
  destruct (metadata_header_round_trip Http.odd_address 196625 Hname Hsize)
    as (_ & _ & Hlen & Hparse).
  split; [exact Hname|]. split; [exact Hsize|]. split; [|exact Hparse].
  rewrite Hlen; vm_compute; reflexivity.
Defined.

(** ** The page's send button *)

(** X22. [handleSendFile] never rejects. Without a selected file or peer it
    leaves the page and the composable as they are. Otherwise it runs
    [sendFile] once, shows exactly one toast and ends with [isSending]
    off: the toast is [File Sent], and the selection is cleared, exactly
    when the session it started is completed; it is [Send Failed], with the
    exception the session's entry records, and the selection is kept, when
    the session is in error. *)
Theorem handleSendFile_reports_the_session (env : environment) (page : Page.t)
    (s s' : state) (o : outcome Page.t) :
  Page.handleSendFile env page s = (o, s') ->
  exists page',
    o = Return page' /\
    match Page.selectedFile page, Page.selectedPeer page with
    | Some file, Some peer =>
        if String.eqb peer "" then page' = page /\ s' = s
        else
          Page.isSending page' = false /\
          Page.selectedPeer page' = Page.selectedPeer page /\
          ((Page.toasts page'
              = Page.toasts page ++ [Page.FileSent (File.name file ++ " sent successfully")] /\
            Page.selectedFile page' = None /\
            FTP.status <$> transfers s' !! uuids s = Some completed)
           \/
           (exists err,
              Page.toasts page' = Page.toasts page ++ [Page.SendFailed err] /\
              Page.selectedFile page' = Some file /\
              if node_ready env
              then (FTP.status <$> transfers s' !! uuids s) = Some error /\
                   (FTP.error <$> transfers s' !! uuids s) = Some (Some err)
              else s' = s /\ err = JsError "Node not initialized"))
    | _, _ => page' = page /\ s' = s
    end.
Proof.
  unfold Page.handleSendFile.
  destruct (Page.selectedFile page) as [file|] eqn:Hf;
    [|intros [= <- <-]; eauto].
  destruct (Page.selectedPeer page) as [peer|] eqn:Hp;
    [|intros [= <- <-]; eauto].
  destruct (String.eqb peer ""); [intros [= <- <-]; eauto|].
  destruct (sendFile env file peer s) as [out s1] eqn:E.
  destruct (sendFile_run env file peer s s1 out E)
    as [(Hno & -> & ->)|(Hnode & _ & _ & _ & new & final & _ & Hsr & Hmap)].
  - intros [= <- <-]. eexists. split; [reflexivity|]. simpl.
    split; [reflexivity|]. split; [reflexivity|]. right. eexists.
    split; [reflexivity|]. split; [reflexivity|]. rewrite Hno. auto.
  - destruct (sender_run_final _ _ _ _ _ Hsr) as (_ & _ & _ & _ & _ & Hout).
    destruct out as [[]|err|]; [| |contradiction]; intros [= <- <-];
      (eexists; split; [reflexivity|]); simpl;
      (split; [reflexivity|]); (split; [reflexivity|]).
    + left. rewrite Hmap, lookup_insert_eq. simpl.
      destruct Hout as (-> & _). auto.
    + right. exists err. rewrite Hnode, Hmap, lookup_insert_eq. simpl.
      destruct Hout as (-> & ->). auto.
Qed.

Lemma handleSendFile_reports_the_session_witness :
  Page.handleSendFile calm Page.ready initial_state
    = (Return {| Page.selectedFile := None; Page.selectedPeer := Some "peer";
                 Page.isSending := false;
                 Page.toasts := [Page.FileSent "hello.txt sent successfully"] |},
       hello_sent) /\
  (FTP.status <$> transfers hello_sent !! 0%nat) = Some completed.
Proof.
  assert (Hrun : Page.handleSendFile calm Page.ready initial_state
                 = (Return {| Page.selectedFile := None; Page.selectedPeer := Some "peer";
                              Page.isSending := false;
                              Page.toasts := [Page.FileSent "hello.txt sent successfully"] |},
                    hello_sent)) by (vm_compute; reflexivity).
  split; [exact Hrun|].
  destruct (handleSendFile_reports_the_session calm Page.ready initial_state hello_sent _
              Hrun) as (page' & Hret & Hcases).
  injection Hret as <-. cbv beta iota in Hcases.
  change (Page.selectedFile Page.ready) with (Some hello) in Hcases.
  change (Page.selectedPeer Page.ready) with (Some "peer") in Hcases.
  cbv iota in Hcases. change (String.eqb "peer" "") with false in Hcases.
  cbv iota in Hcases.
  destruct Hcases as (_ & _ & [(_ & _ & Hst)|(err & Ht & _)]); [exact Hst|].
  simpl in Ht. discriminate.
Defined.

(** ** The list of connected peers *)

Lemma NoDup_snoc (p : string) (l : list string) :
  List.NoDup l -> ~ In p l -> List.NoDup (l ++ [p]).
Proof.
  induction 1 as [|x l Hx Hl IH]; intros Hp; simpl.
  - constructor; [intros [] | constructor].
  - constructor.
    + intros Hin. apply in_app_or in Hin as [Hin|[->|[]]]; [contradiction|].
      apply Hp. now left.
    + apply IH. intros Hin. apply Hp. now right.
Qed.

Lemma filter_out_distinct (p : string) (l : list string) :
  List.NoDup l ->
  List.NoDup (List.filter (fun q => negb (String.eqb q p)) l) /\
  ~ In p (List.filter (fun q => negb (String.eqb q p)) l).
Proof.
  intros Hl. split.
  - now apply List.NoDup_filter.
  - intros Hin. apply filter_In in Hin as [_ Hin]. now rewrite String.eqb_refl in Hin.
Qed.

(** X23. Whatever connections open and close, whenever the relay is dialed and
    the node stopped, the list of connected peers names no peer twice and
    does not name the relay the node last dialed; a peer whose connection
    closes leaves the list at once, and stopping the node empties it. *)
Theorem connected_peers_are_distinct_and_exclude_relay (changes : list Peers.change) :
  let state := fold_left (fun st c => Peers.apply c st) changes Peers.initial in
  List.NoDup (Peers.connectedPeers state) /\
  (forall r, Peers.relayPeerId state = Some r -> ~ In r (Peers.connectedPeers state)) /\
  (forall p, ~ In p (Peers.connectedPeers (Peers.apply (Peers.ConnectionClose p) state))) /\
  Peers.connectedPeers (Peers.apply Peers.NodeStopped state) = [].
Proof.
  cbv zeta.
  assert (Hinv : forall st,
            List.NoDup (Peers.connectedPeers st) /\
            (forall r, Peers.relayPeerId st = Some r -> ~ In r (Peers.connectedPeers st)) ->
            forall c,
            List.NoDup (Peers.connectedPeers (Peers.apply c st)) /\
            (forall r, Peers.relayPeerId (Peers.apply c st) = Some r ->
                       ~ In r (Peers.connectedPeers (Peers.apply c st)))).
  { intros st [Hnd Hrelay] [p|p|r|]; simpl.
    - unfold Peers.is_relay.
      destruct (negb _ && negb _) eqn:E; [|auto].
      apply andb_prop in E as [Er Ein]. simpl. split.
      + apply NoDup_snoc; [exact Hnd|].
        intros Hx. apply negb_true_iff in Ein.
        assert (existsb (String.eqb p) (Peers.connectedPeers st) = true); [|congruence].
        apply existsb_exists. exists p. split; [exact Hx | apply String.eqb_refl].
      + intros r Hr Hin. apply in_app_or in Hin as [Hin|[<-|[]]].
        * now apply (Hrelay r Hr).
        * rewrite Hr, String.eqb_refl in Er. discriminate.
    - destruct (filter_out_distinct p _ Hnd) as [Hnd' _]. split; [exact Hnd'|].
      intros r Hr Hin. apply filter_In in Hin as [Hin _]. now apply (Hrelay r Hr).
    - destruct (filter_out_distinct r _ Hnd) as [Hnd' Hout]. split; [exact Hnd'|].
      now intros r' [= <-].
    - split; [constructor | intros r _ []]. }
  assert (Hall : forall cs st,
            List.NoDup (Peers.connectedPeers st) /\
            (forall r, Peers.relayPeerId st = Some r -> ~ In r (Peers.connectedPeers st)) ->
            List.NoDup (Peers.connectedPeers (fold_left (fun st c => Peers.apply c st) cs st)) /\
            (forall r, Peers.relayPeerId (fold_left (fun st c => Peers.apply c st) cs st)
                       = Some r ->
               ~ In r (Peers.connectedPeers
                         (fold_left (fun st c => Peers.apply c st) cs st)))).
  { induction cs as [|c cs IH]; intros st Hst; [exact Hst|]. simpl. apply IH. now apply Hinv. }
  destruct (Hall changes Peers.initial) as [Hnd Hrelay].
  { split; [constructor | intros r [=]]. }
  split; [exact Hnd|]. split; [exact Hrelay|]. split; [|reflexivity].
  intros p. simpl. apply (filter_out_distinct p _ Hnd).
Qed.

(** ** A stream that ends inside the header *)

(** X24. A stream that ends before its four-byte prefix is complete, or before
    the metadata the prefix announces is complete, fails the session with
    the end of the stream as its error: the registry gets an error entry
    and nothing else, no storage is acquired, no file is published and the
    handler does not close the stream. *)
Theorem stream_ending_in_header_fails (env : environment) (s : state)
    (stream : list byte) :
  Z.of_nat (length stream) < 4 \/
  (exists lenBuf rest,
     stream = lenBuf ++ rest /\ length lenBuf = 4%nat /\
     getUint32 lenBuf <= 10000 /\ Z.of_nat (length rest) < getUint32 lenBuf) ->
  let id := uuids s in
  exists (s' : state) (rs : list Z),
    handleIncomingTransfer env stream s = (Return tt, s') /\
    trace s' = trace s ++ map EvRead rs
                       ++ [EvRegistry id (error_entry id UnexpectedEOFError)] /\
    (rs = [4] \/ exists L, 0 <= L <= 10000 /\ rs = [4; L]) /\
    transfers s' = <[id := error_entry id UnexpectedEOFError]> (transfers s) /\
    receivedFiles s' = receivedFiles s /\
    acquisitions (map EvRead rs) = [] /\ closes (map EvRead rs) = 0%nat.
Proof.
  intros Hcut id. rewrite handleIncomingTransfer_unfold. cbv zeta. fold id.
  unfold receive_body.
  destruct Hcut as [Hshort|(lenBuf & rest & -> & Hlen & Hmax & Hshort)].
  - erewrite bind_throw; [|apply read_short; exact Hshort].
    eexists _, [4]. split; [reflexivity|]. simpl. rewrite <- app_assoc.
    repeat split; auto.
  - erewrite bind_return; [|apply read_prefix; [now rewrite Hlen|reflexivity]].
    destruct (Z.ltb_spec 10000 (getUint32 lenBuf)) as [?|_]; [lia|].
    erewrite bind_throw; [|apply read_short; exact Hshort].
    eexists _, [4; getUint32 lenBuf]. split; [reflexivity|]. simpl.
    rewrite <- !app_assoc. split; [reflexivity|]. split; [|repeat split; auto].
    right. exists (getUint32 lenBuf). split; [|reflexivity].
    split; [apply getUint32_nonneg | exact Hmax].
Qed.

Lemma stream_ending_in_header_fails_witness :
  exists (s' : state) (rs : list Z),
    handleIncomingTransfer calm (setUint32 33 ++ fromString "{") initial_state
      = (Return tt, s') /\
    trace s' = trace initial_state ++ map EvRead rs
                 ++ [EvRegistry 0 (error_entry 0 UnexpectedEOFError)] /\
    (rs = [4] \/ exists L, 0 <= L <= 10000 /\ rs = [4; L]) /\
    transfers s' = <[0%nat := error_entry 0 UnexpectedEOFError]> (transfers initial_state) /\
    receivedFiles s' = receivedFiles initial_state /\
    acquisitions (map EvRead rs) = [] /\ closes (map EvRead rs) = 0%nat.
Proof.
  apply (stream_ending_in_header_fails calm initial_state (setUint32 33 ++ fromString "{")).
  right. exists (setUint32 33), (fromString "{").
  split; [reflexivity|]. split; [reflexivity|]. split; vm_compute; [discriminate|reflexivity].
Defined.
